(** * pa-jail: a shallow embedding of [jail/pa-jail.cc]

    The development follows the layout of the C++ source: C library
    helpers, pathname helpers ([shell_quote]), the mount table
    ([mountslot]), the policy file ([pajailconf]), [check_filename],
    the byte buffer ([jbuffer]) and the jail owner ([jailownerinfo]).

    Conventions.
    - A [char] / [unsigned char] is an [ascii]; [uc c] is its value as an
      unsigned char.  A [std::string] and a C string are a [list ascii].
    - [size_t] and [unsigned long] are [Z] with the 64-bit wrap-around
      written out ([wrap64]); [int] values are [Z].
    - Loops are structural recursions on a fuel argument and return
      [OutOfFuel] when it runs out; every such loop comes with a lemma
      showing that the fuel given by its caller is enough. *)

From Stdlib Require Import ZArith Ascii String Bool Lia Arith.
From Stdlib Require Import List.
Import ListNotations.

Local Open Scope Z_scope.
Local Open Scope list_scope.

(** ** Outcomes of a C++ computation

    [Ok a] is a normal return, [OutOfFuel] a loop cut short by the model,
    [Undefined] an execution that reads or writes outside an object
    (undefined behaviour in C++) and [Aborted] a failed [assert]. *)

Inductive result (A : Type) : Type :=
| Ok (a : A)
| OutOfFuel
| Undefined
| Aborted.

Arguments Ok {A} a.
Arguments OutOfFuel {A}.
Arguments Undefined {A}.
Arguments Aborted {A}.

Definition bind {A B : Type} (r : result A) (k : A -> result B) : result B :=
  match r with
  | Ok a => k a
  | OutOfFuel => OutOfFuel
  | Undefined => Undefined
  | Aborted => Aborted
  end.

Notation "'let*' x ':=' r 'in' k" := (bind r (fun x => k))
  (at level 10, x pattern, r at level 100, k at level 200).

(** ** Bytes, strings and C library helpers *)

Definition str := list ascii.

Definition lit (s : string) : str := list_ascii_of_string s.

Definition uc (c : ascii) : Z := Z.of_N (N_of_ascii c).

Definition NUL : ascii := ascii_of_N 0.

Definition chr (n : Z) : ascii := ascii_of_N (Z.to_N n).

(** The double quote and the byte [0x7F]. *)
Definition DQUOTE : ascii := ascii_of_N 34.

Definition DEL : ascii := ascii_of_N 127.

Definition wrap64 (x : Z) : Z := x mod 2 ^ 64.

Fixpoint str_eqb (a b : str) : bool :=
  match a, b with
  | [], [] => true
  | x :: a', y :: b' => Ascii.eqb x y && str_eqb a' b'
  | _, _ => false
  end.

Definition mem_char (c : ascii) (set : str) : bool :=
  existsb (Ascii.eqb c) set.

(** [*p] for a C string held as the list of its remaining bytes: the
    terminator is read at the end of the list. *)
Definition deref (p : str) : ascii :=
  match p with
  | [] => NUL
  | c :: _ => c
  end.

(** [strspn(s, accept)] and [strcspn(s, reject)]; both stop at the
    terminating NUL. *)
Fixpoint strspn (s accept : str) : nat :=
  match s with
  | c :: s' =>
      if negb (Ascii.eqb c NUL) && mem_char c accept
      then S (strspn s' accept) else O
  | [] => O
  end.

Fixpoint strcspn (s reject : str) : nat :=
  match s with
  | c :: s' =>
      if Ascii.eqb c NUL || mem_char c reject
      then O else S (strcspn s' reject)
  | [] => O
  end.

(** [strlen(s)] *)
Definition strlen (s : str) : nat := strcspn s [].

(** [isalnum], [isspace] in the "C" locale (the program never calls
    [setlocale]). *)
Definition isdigit (c : ascii) : bool :=
  (48 <=? uc c) && (uc c <=? 57).

Definition isupper (c : ascii) : bool :=
  (65 <=? uc c) && (uc c <=? 90).

Definition islower (c : ascii) : bool :=
  (97 <=? uc c) && (uc c <=? 122).

Definition isalnum (c : ascii) : bool :=
  isdigit c || isupper c || islower c.

Definition isspace (c : ascii) : bool :=
  (uc c =? 32) || ((9 <=? uc c) && (uc c <=? 13)).

(** [s.substr(pos, n)] and [s.substr(pos)] for [pos <= s.length()]. *)
Definition substr (s : str) (pos n : nat) : str := firstn n (skipn pos s).

Definition substr_from (s : str) (pos : nat) : str := skipn pos s.

(** ** The mount table *)

Module Mount.

(** Linux mount flags of [<sys/mount.h>]. *)
Definition MS_RDONLY : Z := 1.
Definition MS_NOSUID : Z := 2.
Definition MS_NODEV : Z := 4.
Definition MS_NOEXEC : Z := 8.
Definition MS_REMOUNT : Z := 32.
Definition MS_NOATIME : Z := 1024.
Definition MS_NODIRATIME : Z := 2048.
Definition MS_BIND : Z := 4096.
Definition MS_REC : Z := 16384.
Definition MS_UNBINDABLE : Z := 2 ^ 17.
Definition MS_PRIVATE : Z := 2 ^ 18.
Definition MS_SLAVE : Z := 2 ^ 19.
Definition MS_RELATIME : Z := 2 ^ 21.
Definition MS_STRICTATIME : Z := 2 ^ 24.

Record mountarg := {
  name : str;
  value : Z;
  unparse : bool
}.

Definition mountargs : list mountarg :=
  [ {| name := lit "bind"; value := MS_BIND; unparse := false |};
    {| name := lit "noatime"; value := MS_NOATIME; unparse := true |};
    {| name := lit "nodev"; value := MS_NODEV; unparse := true |};
    {| name := lit "nodiratime"; value := MS_NODIRATIME; unparse := true |};
    {| name := lit "noexec"; value := MS_NOEXEC; unparse := true |};
    {| name := lit "nosuid"; value := MS_NOSUID; unparse := true |};
    {| name := lit "private"; value := MS_PRIVATE; unparse := true |};
    {| name := lit "rec"; value := MS_REC; unparse := false |};
    {| name := lit "relatime"; value := MS_RELATIME; unparse := true |};
    {| name := lit "remount"; value := MS_REMOUNT; unparse := true |};
    {| name := lit "ro"; value := MS_RDONLY; unparse := true |};
    {| name := lit "rw"; value := 0; unparse := true |};
    {| name := lit "slave"; value := MS_SLAVE; unparse := true |};
    {| name := lit "strictatime"; value := MS_STRICTATIME; unparse := true |};
    {| name := lit "unbindable"; value := MS_UNBINDABLE; unparse := true |} ].

(** [find_mountarg(name, namelen)]: the first table entry whose name has
    length [namelen] and equals the first [namelen] bytes of [name]. *)
Definition find_mountarg (nm : str) (namelen : nat) : option mountarg :=
  find (fun ma => Nat.eqb (strlen (name ma)) namelen
                  && str_eqb (firstn namelen (name ma)) (firstn namelen nm))
       mountargs.

Record mountslot := {
  fsname : str;
  type : str;
  opts : Z;
  data : str;
  wanted : bool
}.

(** The body of the constructor's [while (mopt && *mopt)] loop. *)
Fixpoint parse_mopt (fuel : nat) (mopt : str) (opts : Z) (data : str)
  : result (Z * str) :=
  if Ascii.eqb (deref mopt) NUL then Ok (opts, data) else
  match fuel with
  | O => OutOfFuel
  | S fuel' =>
      let ok_first := skipn (strspn mopt (lit ",")) mopt in
      let klen := strcspn ok_first (lit ",=") in
      let ok_last := skipn klen ok_first in
      let vlen := strcspn ok_last (lit ",") in
      let ov_last := skipn vlen ok_last in
      match find_mountarg ok_first klen with
      | Some ma => parse_mopt fuel' ov_last (Z.lor opts (value ma)) data
      | None =>
          if Nat.eqb (klen + vlen) 0
          then parse_mopt fuel' ov_last opts data
          else parse_mopt fuel' ov_last opts
                 (data ++ (if Nat.eqb (length data) 0 then [] else lit ",")
                       ++ firstn (klen + vlen) ok_first)
      end
  end.

(** [mountslot::mountslot(fsname, type, mopt)]; a null [mopt] is [None]. *)
Definition mountslot_new (fsname_ type_ : str) (mopt : option str)
  : result mountslot :=
  match mopt with
  | None =>
      Ok {| fsname := fsname_; type := type_; opts := 0; data := [];
            wanted := false |}
  | Some m =>
      let* (o, d) := parse_mopt (length m) m 0 [] in
      Ok {| fsname := fsname_; type := type_; opts := o; data := d;
            wanted := false |}
  end.

(** The [while] loop of [add_mountopt] over [mopt], which deletes from [data]
    the options whose key is [inopt]'s.  [pre] is [data] before [mopt]
    and [mopt] the rest of it.  After a deletion the code resumes at
    [mstart + offset], where [offset] still counts the separators it has
    just deleted: when that lies beyond the terminator of the shortened
    string the next [*mopt] reads out of bounds. *)
Fixpoint drop_mopt (fuel : nat) (inopt : str) (inopt_len : nat)
    (pre mopt : str) : result str :=
  if Ascii.eqb (deref mopt) NUL then Ok (pre ++ mopt) else
  match fuel with
  | O => OutOfFuel
  | S fuel' =>
      let nsep := strspn mopt (lit ",") in
      let ok_first := skipn nsep mopt in
      let klen := strcspn ok_first (lit ",=") in
      let ok_last := skipn klen ok_first in
      let vlen := strcspn ok_last (lit ",") in
      let ov_last := skipn vlen ok_last in
      if Nat.eqb klen inopt_len
         && str_eqb (firstn inopt_len inopt) (firstn inopt_len ok_first)
      then
        (* data = [mstart, mopt) + [ov_last, end); mopt = mstart + offset
           with offset = ok_first - data.data() *)
        let data' := pre ++ ov_last in
        let offset := (length pre + nsep)%nat in
        if Nat.ltb (length data') offset then Undefined else
        drop_mopt fuel' inopt inopt_len (firstn offset data')
                  (skipn offset data')
      else
        drop_mopt fuel' inopt inopt_len
                  (pre ++ firstn (nsep + klen + vlen) mopt) ov_last
  end.

(** [mountslot::add_mountopt(inopt)] *)
Definition add_mountopt (ms : mountslot) (inopt : str) : result mountslot :=
  let inopt_len := strcspn inopt (lit ",=") in
  match find_mountarg inopt inopt_len with
  | Some ma =>
      if negb (value ma =? 0)
      then Ok {| fsname := fsname ms; type := type ms;
                 opts := Z.lor (opts ms) (value ma);
                 data := data ms; wanted := wanted ms |}
      else Ok {| fsname := fsname ms; type := type ms;
                 opts := Z.land (opts ms) (wrap64 (Z.lnot MS_RDONLY));
                 data := data ms; wanted := wanted ms |}
  | None =>
      let* d := drop_mopt (length (data ms)) inopt inopt_len [] (data ms) in
      Ok {| fsname := fsname ms; type := type ms; opts := opts ms;
            data := d ++ (if Nat.eqb (length d) 0 then [] else lit ",")
                      ++ firstn (strlen inopt) inopt;
            wanted := wanted ms |}
  end.

(** The globals [mount_status] (0: add, 1: run pre-fork, 2: in child) and
    [delayed_mounts]. *)
Record globals := {
  mount_status : Z;
  delayed_mounts : list str
}.

(** [mountslot::mountable(src, dst)] *)
Definition mountable (ms : mountslot) (src dst : str) (g : globals)
  : bool * globals :=
  if (str_eqb src (lit "/proc") && str_eqb (type ms) (lit "proc"))
     || (str_eqb src (lit "/dev/pts") && str_eqb (type ms) (lit "devpts"))
  then (mount_status g =? 2, g)
  else if str_eqb src (lit "/tmp") && str_eqb (type ms) (lit "tmpfs")
  then (negb (mount_status g =? 1), g)
  else if str_eqb src (lit "/run") && str_eqb (type ms) (lit "tmpfs")
  then (false, g)
  else if (str_eqb src (lit "/sys") && str_eqb (type ms) (lit "sysfs"))
          || (str_eqb src (lit "/dev") && str_eqb (type ms) (lit "udev"))
          || wanted ms
  then
    if mount_status g =? 1
    then (false, {| mount_status := mount_status g;
                    delayed_mounts := delayed_mounts g ++ [src; dst] |})
    else (true, g)
  else (false, g).

End Mount.

(** ** Pathname helpers *)

Module Path.

(** [path.back()] of a non-empty string. *)
Definition back (s : str) : ascii := last s NUL.

Definition path_endslash (path : str) : str :=
  if Nat.eqb (length path) 0 || negb (Ascii.eqb (back path) "/")
  then path ++ lit "/" else path.

(** The characters [shell_quote] leaves bare. *)
Definition bare_char (c : ascii) : bool :=
  isalnum c || Ascii.eqb c "_" || Ascii.eqb c "-" || Ascii.eqb c "~"
  || Ascii.eqb c "." || Ascii.eqb c "/".

(** The [for] loop of [shell_quote]: [n] iterations are left, [pos] is the
    loop index, [quoted] and [last] are the locals of the same name. *)
Fixpoint shell_quote_loop (n : nat) (argument : str) (pos : nat)
    (quoted : str) (last : nat) : str * nat :=
  match n with
  | O => (quoted, last)
  | S n' =>
      let c := nth pos argument NUL in
      if (Nat.eqb pos 0 && Ascii.eqb c "~") || negb (bare_char c)
      then
        let quoted1 :=
          if Nat.eqb (length quoted) 0 then lit "'" else quoted in
        if Ascii.eqb c "'"
        then shell_quote_loop n' argument (S pos)
               (quoted1 ++ substr argument last (pos - last) ++ lit "'\''")
               (S pos)
        else shell_quote_loop n' argument (S pos) quoted1 last
      else shell_quote_loop n' argument (S pos) quoted last
  end.

Definition shell_quote (argument : str) : str :=
  let '(quoted, last) :=
    shell_quote_loop (length argument) argument 0 [] 0%nat in
  if Nat.eqb (length quoted) 0
  then argument
  else quoted ++ substr_from argument last ++ lit "'".

End Path.

(** ** The shell's word parser

    [shell_quote] produces text for [sh -c].  The shell is not part of the
    program; this is the token recognition of POSIX XCU 2.2 (quoting) and
    2.3 (token recognition) for a command line made of plain words.  A
    word is delimited by blanks; a backslash outside quotes keeps the next
    byte; inside single quotes every byte is kept up to the closing
    quote; inside double quotes a backslash keeps the next byte only
    before [$], a backquote, a double quote, a backslash or a newline.
    Text that the shell would expand or treat as an operator (an unquoted
    [$], backquote, glob character, [#], operator character, or a word
    that starts with a tilde) is outside the model: [sh_words] answers
    [None] for it, as for an unterminated quote. *)

Module Shell.

Inductive mode := Unquoted | InSingle | InDouble.

Definition is_blank (c : ascii) : bool :=
  Ascii.eqb c " " || (uc c =? 9) || (uc c =? 10).

(** Unquoted bytes with a meaning of their own to the shell. *)
Definition is_special (c : ascii) : bool :=
  mem_char c (lit "|&;<>()$`*?[#").

(** [cur] is the word being read ([None] between words), in order. *)
Fixpoint sh_scan (m : mode) (cur : option str) (input : str)
  : option (list str) :=
  match m, input with
  | Unquoted, [] =>
      match cur with
      | None => Some []
      | Some w => Some [w]
      end
  | Unquoted, c :: rest =>
      if is_blank c then
        match cur with
        | None => sh_scan Unquoted None rest
        | Some w => option_map (cons w) (sh_scan Unquoted None rest)
        end
      else if Ascii.eqb c "'" then
        sh_scan InSingle (Some (match cur with None => [] | Some w => w end))
                rest
      else if Ascii.eqb c DQUOTE then
        sh_scan InDouble (Some (match cur with None => [] | Some w => w end))
                rest
      else if Ascii.eqb c "\" then
        match rest with
        | [] => None
        | d :: rest' =>
            if uc d =? 10 then sh_scan Unquoted cur rest'
            else sh_scan Unquoted
                   (Some (match cur with None => [] | Some w => w end ++ [d]))
                   rest'
        end
      else if is_special c then None
      else
        match cur with
        | None =>
            if Ascii.eqb c "~" then None
            else sh_scan Unquoted (Some [c]) rest
        | Some w => sh_scan Unquoted (Some (w ++ [c])) rest
        end
  | InSingle, [] => None
  | InSingle, c :: rest =>
      if Ascii.eqb c "'" then sh_scan Unquoted cur rest
      else sh_scan InSingle
             (Some (match cur with None => [] | Some w => w end ++ [c])) rest
  | InDouble, [] => None
  | InDouble, c :: rest =>
      if Ascii.eqb c DQUOTE then sh_scan Unquoted cur rest
      else if Ascii.eqb c "$" || Ascii.eqb c "`" then None
      else if Ascii.eqb c "\" then
        match rest with
        | [] => None
        | d :: rest' =>
            if uc d =? 10 then sh_scan InDouble cur rest'
            else if mem_char d (lit "$`\") || Ascii.eqb d DQUOTE then
              sh_scan InDouble
                (Some (match cur with None => [] | Some w => w end ++ [d]))
                rest'
            else
              sh_scan InDouble
                (Some (match cur with None => [] | Some w => w end
                         ++ [c; d]))
                rest'
        end
      else sh_scan InDouble
             (Some (match cur with None => [] | Some w => w end ++ [c])) rest
  end.

Definition sh_words (input : str) : option (list str) :=
  sh_scan Unquoted None input.

End Shell.

(** ** [check_filename] *)

Module Filename.

Definition allowed_chars : str :=
  lit "/0123456789-._ABCDEFGHIJKLMNOPQRSTUVWXYZabcdefghijklmnopqrstuvwxyz~".

(** [sizeof(buf)] *)
Definition BUFSZ : nat := 1024.

(** [s[i]] in the array [name.c_str()], whose last element, at index
    [name.length()], is the terminator. *)
Definition read (name : str) (i : nat) : result ascii :=
  if Nat.ltb (length name) i then Undefined else Ok (nth i name NUL).

(** [*s == '.' && (s[1] == '/' || s[1] == '\0')
     && s != name.c_str() && s[-1] == '/'] *)
Definition dot_component (name : str) (s : nat) (c : ascii) : result bool :=
  if negb (Ascii.eqb c ".") then Ok false else
  let* c1 := read name (S s) in
  if negb (Ascii.eqb c1 "/" || Ascii.eqb c1 NUL) then Ok false else
  if Nat.eqb s 0 then Ok false else
  let* p := read name (s - 1) in
  Ok (Ascii.eqb p "/").

(** [*s == '.' && s[1] == '.' && (s[2] == '/' || s[2] == '\0')
     && (s == name.c_str() || s[-1] == '/')] *)
Definition dotdot_component (name : str) (s : nat) (c : ascii)
  : result bool :=
  if negb (Ascii.eqb c ".") then Ok false else
  let* c1 := read name (S s) in
  if negb (Ascii.eqb c1 ".") then Ok false else
  let* c2 := read name (S (S s)) in
  if negb (Ascii.eqb c2 "/" || Ascii.eqb c2 NUL) then Ok false else
  if Nat.eqb s 0 then Ok true else
  let* p := read name (s - 1) in
  Ok (Ascii.eqb p "/").

(** [while ( *s == '/' && s[1] == '/') ++s;] *)
Fixpoint skip_slashes (fuel : nat) (name : str) (s : nat) : result nat :=
  let* c := read name s in
  if negb (Ascii.eqb c "/") then Ok s else
  let* c1 := read name (S s) in
  if negb (Ascii.eqb c1 "/") then Ok s else
  match fuel with
  | O => OutOfFuel
  | S fuel' => skip_slashes fuel' name (S s)
  end.

(** The [for] loop.  [out] holds the bytes written to [buf] so far; the
    answer is [None] when the loop returns the empty string early. *)
Fixpoint copy_loop (fuel : nat) (name : str) (s : nat) (out : str)
  : result (option str) :=
  match fuel with
  | O => OutOfFuel
  | S fuel' =>
      let* c := read name s in
      if Ascii.eqb c NUL then Ok (Some out) else
      if Nat.leb BUFSZ (length out) then Undefined else
      let* dot := dot_component name s c in
      if dot then
        (* --out; ++s; *)
        let* s' := skip_slashes (length name) name (S s) in
        copy_loop fuel' name (S s') out
      else
        let* dotdot := dotdot_component name s c in
        if dotdot then Ok None else
        let* s' := skip_slashes (length name) name s in
        copy_loop fuel' name (S s') (out ++ [c])
  end.

(** [while (out > buf + 1 && out[-1] == '/') --out;] on the reversed
    contents of [buf]. *)
Fixpoint trim_rev (r : str) : str :=
  match r with
  | c :: ((_ :: _) as r') => if Ascii.eqb c "/" then trim_rev r' else r
  | _ => r
  end.

Definition trim_slashes (out : str) : str := rev (trim_rev (rev out)).

Definition check_filename (name : str) : result str :=
  if negb (Nat.eqb (strspn name allowed_chars) (length name))
     || Nat.eqb (length name) 0
     || Ascii.eqb (nth 0 name NUL) "~"
     || Nat.leb BUFSZ (length name)
  then Ok []
  else
    let* r := copy_loop (S (length name)) name 0 [] in
    match r with
    | None => Ok []
    | Some out => Ok (trim_slashes out)
    end.

End Filename.

(** ** The policy file [/etc/pa-jail.conf] *)

Module Conf.

Definition ROOT : Z := 0.

(** [S_IWGRP] and [S_IWOTH] of [<sys/stat.h>]. *)
Definition S_IWGRP : Z := 16.
Definition S_IWOTH : Z := 2.

(** [sizeof(buf_)] *)
Definition BUFSZ : Z := 8192.

Record stat := {
  st_uid : Z;
  st_gid : Z;
  st_mode : Z
}.

Definition writable_only_by_root (st : stat) : bool :=
  (st_uid st =? ROOT)
  && ((st_gid st =? ROOT) || (Z.land (st_mode st) S_IWGRP =? 0))
  && (Z.land (st_mode st) S_IWOTH =? 0).

(** What the system calls of the constructor answer: whether [open] and
    [fstat] succeed, the file's [stat], whether [read] succeeds and the
    file's bytes.  A successful [read] of a regular file returns as many
    bytes as asked for, or all of the file when it is shorter. *)
Record etc_file := {
  open_ok : bool;
  fstat_ok : bool;
  file_stat : stat;
  read_ok : bool;
  file_bytes : str
}.

(** The valid part of [buf_] and [len_]. *)
Record pajailconf := {
  buf_ : str;
  len_ : nat
}.

(** How the constructor ends: by [perror_die], by one of its three [die]
    messages, or normally. *)
Inductive loaded :=
| PerrorDie
| DieWritable
| DieEmpty
| DieTooBig
| Loaded (c : pajailconf).

(** [pajailconf::pajailconf()] *)
Definition pajailconf_new (f : etc_file) : loaded :=
  if negb (open_ok f) then PerrorDie
  else if negb (fstat_ok f) then PerrorDie
  else if negb (writable_only_by_root (file_stat f)) then DieWritable
  else
    let nr := if read_ok f
              then Z.min (Z.of_nat (length (file_bytes f))) BUFSZ
              else -1 in
    if nr <? 0 then PerrorDie
    else if nr =? 0 then DieEmpty
    else if nr =? BUFSZ then DieTooBig
    else Loaded {| buf_ := firstn (Z.to_nat nr) (file_bytes f);
                   len_ := Z.to_nat nr |}.

(** Length of the longest prefix whose bytes all satisfy [p]. *)
Fixpoint span (p : ascii -> bool) (l : str) : nat :=
  match l with
  | c :: l' => if p c then S (span p l') else O
  | [] => O
  end.

Definition NL : ascii := ascii_of_N 10.

(** [take_word(pos)]: the word's bounds and the new [pos]. *)
Definition take_word (c : pajailconf) (pos : nat) : (nat * nat) * nat :=
  let buf := firstn (len_ c) (buf_ c) in
  let a := (pos + span (fun ch => negb (Ascii.eqb ch NL) && isspace ch)
                       (skipn pos buf))%nat in
  let b := (a + span (fun ch => negb (isspace ch)) (skipn a buf))%nat in
  ((a, b), b).

(** [std::string(w.first, w.second)] *)
Definition word (c : pajailconf) (w : nat * nat) : str :=
  substr (buf_ c) (fst w) (snd w - fst w).

(** [while (pos < len_ && buf_[pos] != '\n') take_word(pos);] *)
Fixpoint skip_words (fuel : nat) (c : pajailconf) (pos : nat) : result nat :=
  if Nat.ltb pos (len_ c) && negb (Ascii.eqb (nth pos (buf_ c) NUL) NL)
  then
    match fuel with
    | O => OutOfFuel
    | S fuel' => skip_words fuel' c (snd (take_word c pos))
    end
  else Ok pos.

(** [while (pos < len_ && buf_[pos] == '\n') ++pos;] *)
Definition skip_newlines (c : pajailconf) (pos : nat) : nat :=
  (pos + span (fun ch => Ascii.eqb ch NL)
              (skipn pos (firstn (len_ c) (buf_ c))))%nat.

(** [check_action(action, prefix, type, typelen)] *)
Definition check_action (action prefix type : str) : bool :=
  Nat.eqb (length action) (length prefix + length type)
  && str_eqb (firstn (length prefix) action) prefix
  && str_eqb (skipn (length action - length type) action) type.

(** [s.find(c, pos)] *)
Definition find_from (c : ascii) (s : str) (pos : nat) : option nat :=
  let k := span (fun ch => negb (Ascii.eqb ch c)) (skipn pos s) in
  if Nat.ltb k (length (skipn pos s)) then Some (pos + k)%nat else None.

(** The [while (true)] loop of [check_dirmatch]: [None] when it returns
    false, otherwise the shortened [str]. *)
Fixpoint superdir_loop (fuel : nat) (pattern s : str)
    (patslashpos strslashpos : nat) : result (option str) :=
  match find_from "/" pattern patslashpos with
  | None => Ok (Some (substr s 0 strslashpos))
  | Some pp =>
      match find_from "/" s strslashpos with
      | None => Ok None
      | Some sp =>
          match fuel with
          | O => OutOfFuel
          | S fuel' => superdir_loop fuel' pattern s (S pp) (S sp)
          end
      end
  end.

(** The mutable members [treedir_] and [allowance_pattern_] and the
    locals [allowed_globally] and [allowed_locally] of [allows_type]. *)
Record eval_state := {
  allowed_globally : Z;
  allowed_locally : Z;
  allowance_pattern_ : str;
  treedir_ : str
}.

Section WithFnmatch.

(** [fnmatch(pattern, str, FNM_PATHNAME | FNM_PERIOD) == 0] of the C
    library. *)
Variable fnmatch : str -> str -> bool.

(** [check_dirmatch(pattern, str, superdir, &store)]: the answer and
    what is stored through [store_superdir], if anything. *)
Definition check_dirmatch (pattern s : str) (superdir : bool)
  : result (bool * option str) :=
  if superdir then
    let* r := superdir_loop (length pattern) pattern s 0 0 in
    match r with
    | None => Ok (false, None)
    | Some s' => Ok (fnmatch pattern s', Some s')
    end
  else Ok (fnmatch pattern s, None).

(** [set_treedir(pattern, str, is_explicit)] *)
Definition set_treedir (st : eval_state) (pattern s : str)
    (is_explicit : bool) : result eval_state :=
  let pattern1 :=
    if negb is_explicit
       && Nat.ltb 3 (length pattern)
       && str_eqb (skipn (length pattern - 3) pattern) (lit "/*/")
    then substr pattern 0 (length pattern - 2) else pattern in
  let* (m, stored) := check_dirmatch pattern1 s true in
  let superdir := match stored with Some d => d | None => [] end in
  if m && (Nat.eqb (length (treedir_ st)) 0
           || Nat.ltb (length superdir) (length (treedir_ st)))
  then Ok {| allowed_globally := allowed_globally st;
             allowed_locally := allowed_locally st;
             allowance_pattern_ := allowance_pattern_ st;
             treedir_ := superdir |}
  else Ok st.

(** The body of the loop of [allows_type] from [// check action] on, for
    one line with the words [action] and [arg]. *)
Definition apply_line (type dir : str) (superdir : bool)
    (action arg : str) (st : eval_state) : result eval_state :=
  let decide (allowed : Z) : result eval_state :=
    if Nat.eqb (length arg) 0 then
      (* global allowance *)
      Ok {| allowed_globally := allowed;
            allowed_locally :=
              if allowed =? 0 then allowed else allowed_locally st;
            allowance_pattern_ := [];
            treedir_ := treedir_ st |}
    else if Ascii.eqb (nth 0 arg NUL) "/" then
      (* check subdirectory match *)
      let pattern := Path.path_endslash arg in
      let* (m, _) := check_dirmatch pattern dir (superdir || (allowed <=? 0)) in
      if m then
        let st1 := {| allowed_globally := allowed_globally st;
                      allowed_locally := allowed;
                      allowance_pattern_ := pattern;
                      treedir_ := treedir_ st |} in
        if 0 <? allowed then set_treedir st1 pattern dir false else Ok st1
      else Ok st
    else Ok st in
  if check_action action (lit "disable") type
     || check_action action (lit "no") type
  then decide 0
  else if check_action action (lit "enable") type
          || check_action action (lit "allow") type
  then decide 1
  else if check_action action (lit "treedir") []
  then
    if negb (Nat.eqb (length arg) 0) && Ascii.eqb (nth 0 arg NUL) "/"
    then set_treedir st (Path.path_endslash arg) dir true
    else Ok st
  else Ok st.

(** The [while (pos < len_)] loop of [allows_type]. *)
Fixpoint allows_loop (fuel : nat) (c : pajailconf) (type dir : str)
    (superdir : bool) (pos : nat) (st : eval_state) : result eval_state :=
  if negb (Nat.ltb pos (len_ c)) then Ok st else
  match fuel with
  | O => OutOfFuel
  | S fuel' =>
      let '(action, pos1) := take_word c pos in
      let '(arg, pos2) := take_word c pos1 in
      let* pos3 := skip_words (len_ c) c pos2 in
      let pos4 := skip_newlines c pos3 in
      let* st' := apply_line type dir superdir (word c action) (word c arg) st in
      allows_loop fuel' c type dir superdir pos4 st'
  end.

(** [allows_type(type, dir, superdir)]: the answer together with the
    members [treedir_] and [allowance_pattern_] it leaves behind. *)
Definition allows_type (c : pajailconf) (type dir : str) (superdir : bool)
  : result (bool * eval_state) :=
  let st0 := {| allowed_globally := -1; allowed_locally := -1;
                allowance_pattern_ := []; treedir_ := [] |} in
  let* st := allows_loop (len_ c) c type (Path.path_endslash dir) superdir
                         0 st0 in
  Ok (negb (allowed_globally st =? 0) && (0 <? allowed_locally st), st).

Definition allow_jail (c : pajailconf) (dir : str) :=
  allows_type c (lit "jail") dir false.

Definition allow_jail_subdir (c : pajailconf) (dir : str) :=
  allows_type c (lit "jail") dir true.

Definition allow_skeleton (c : pajailconf) (dir : str) :=
  allows_type c (lit "skeleton") dir false.

End WithFnmatch.

(** [pajailconf::pajailconf(const std::string&)], for strings shorter
    than [sizeof(buf_)]. *)
Definition pajailconf_of (s : str) : pajailconf :=
  {| buf_ := s; len_ := length s |}.

(** A matcher to run the policy on concrete files: [fnmatch] with
    [FNM_PATHNAME | FNM_PERIOD] for patterns made of ordinary characters,
    [?] and [*] (POSIX XCU 2.13).  [lead] tells whether the next byte of
    the string is at its start or just after a slash, where a period has
    to be matched by a period of the pattern. *)
Fixpoint glob (pat : str) : str -> bool -> bool :=
  match pat with
  | [] => fun s _ => match s with [] => true | _ => false end
  | p :: pat' =>
      if Ascii.eqb p "*" then
        fix star (s : str) (lead : bool) : bool :=
          if lead && Ascii.eqb (deref s) "." then false else
          glob pat' s lead
          || match s with
             | [] => false
             | c :: s' => negb (Ascii.eqb c "/") && star s' false
             end
      else
        fun s lead =>
          match s with
          | [] => false
          | c :: s' =>
              if Ascii.eqb p "?"
              then negb (Ascii.eqb c "/") && negb (lead && Ascii.eqb c ".")
                   && glob pat' s' false
              else Ascii.eqb p c && glob pat' s' (Ascii.eqb c "/")
          end
  end.

Definition fnmatch_glob (pattern s : str) : bool := glob pattern s true.

End Conf.

(** ** The byte buffer [jbuffer] *)

Module JBuffer.

Definition EINTR : Z := 4.
Definition EAGAIN : Z := 11.

(** [buf_] is the array of [cap_] bytes; the other members are as in the
    source. *)
Record jbuffer := {
  buf_ : str;
  head_ : Z;
  tail_ : Z;
  cap_ : Z;
  bufpos_ : Z;
  rclosed_ : bool;
  wclosed_ : bool;
  rerrno_ : Z
}.

(** Storage obtained from [new unsigned char[n]]; its bytes are not
    initialised, the model fills them with NUL. *)
Definition fresh (n : Z) : str := repeat NUL (Z.to_nat n).

(** [jbuffer::jbuffer(cap)] *)
Definition jbuffer_new (cap : Z) : jbuffer :=
  {| buf_ := fresh cap; head_ := 0; tail_ := 0; cap_ := cap; bufpos_ := 0;
     rclosed_ := false; wclosed_ := false; rerrno_ := 0 |}.

(** [memcpy(buf + pos, data, data.length)] inside the array [buf]. *)
Definition splice (buf : str) (pos : Z) (data : str) : str :=
  firstn (Z.to_nat pos) buf ++ data
    ++ skipn (Z.to_nat pos + length data) buf.

(** The [while (tail_ + n > ncap)] loop of [reserve]; [need] is
    [tail_ + n]. *)
Fixpoint grow (fuel : nat) (need ncap : Z) : result Z :=
  if need >? ncap then
    match fuel with
    | O => OutOfFuel
    | S fuel' =>
        grow fuel' need (Z.min (wrap64 (ncap * 2)) (wrap64 (ncap + 131072)))
    end
  else Ok ncap.

(** [jbuffer::reserve(n)] *)
Definition reserve (b : jbuffer) (n : Z) : result jbuffer :=
  let n := if n =? 0 then Z.min (cap_ b) 131072 else n in
  let need := wrap64 (tail_ b + n) in
  let* ncap := grow (Z.to_nat need) need (cap_ b) in
  (* memcpy(nbuf, buf_, tail_) *)
  if (cap_ b <? tail_ b) || (ncap <? tail_ b) then Undefined else
  Ok {| buf_ := firstn (Z.to_nat (tail_ b)) (buf_ b)
                  ++ fresh (ncap - tail_ b);
        head_ := head_ b; tail_ := tail_ b; cap_ := ncap;
        bufpos_ := bufpos_ b; rclosed_ := rclosed_ b;
        wclosed_ := wclosed_ b; rerrno_ := rerrno_ b |}.

Definition set_tail (b : jbuffer) (buf : str) (tail : Z) : jbuffer :=
  {| buf_ := buf; head_ := head_ b; tail_ := tail; cap_ := cap_ b;
     bufpos_ := bufpos_ b; rclosed_ := rclosed_ b; wclosed_ := wclosed_ b;
     rerrno_ := rerrno_ b |}.

(** [jbuffer::append(char ch)] *)
Definition append_ch (b : jbuffer) (ch : ascii) : result jbuffer :=
  let* b1 := if tail_ b =? cap_ b then reserve b 0 else Ok b in
  if (tail_ b1 <? 0) || (cap_ b1 <=? tail_ b1) then Undefined else
  Ok (set_tail b1 (splice (buf_ b1) (tail_ b1) [ch]) (wrap64 (tail_ b1 + 1))).

(** [jbuffer::append(first, last)] for the bytes [data] of the range. *)
Definition append (b : jbuffer) (data : str) : result jbuffer :=
  let n := Z.of_nat (length data) in
  let* b1 := if wrap64 (cap_ b - tail_ b) <? n then reserve b n else Ok b in
  if (tail_ b1 <? 0) || (cap_ b1 <? tail_ b1 + n) then Undefined else
  Ok (set_tail b1 (splice (buf_ b1) (tail_ b1) data) (wrap64 (tail_ b1 + n))).

(** What [::read] answers: some bytes ([nr > 0]), end of file ([nr == 0])
    or an error ([nr == -1] and [errno]). *)
Inductive read_answer :=
| ReadData (data : str)
| ReadEOF
| ReadError (errno : Z).

(** [jbuffer::read(from)] *)
Definition read (b : jbuffer) (from : Z) (r : read_answer)
  : result (bool * jbuffer) :=
  if (from >=? 0) && negb (rclosed_ b) && negb (tail_ b =? cap_ b) then
    match r with
    | ReadData ((_ :: _) as data) =>
        let nr := Z.of_nat (length data) in
        if wrap64 (cap_ b - tail_ b) <? nr then Undefined else
        Ok (true, set_tail b (splice (buf_ b) (tail_ b) data)
                    (wrap64 (tail_ b + nr)))
    | ReadData [] | ReadEOF =>
        Ok (false,
            {| buf_ := buf_ b; head_ := head_ b; tail_ := tail_ b;
               cap_ := cap_ b; bufpos_ := bufpos_ b; rclosed_ := true;
               wclosed_ := wclosed_ b; rerrno_ := rerrno_ b |})
    | ReadError errno =>
        if negb (errno =? EINTR) && negb (errno =? EAGAIN) then
          Ok (false,
              {| buf_ := buf_ b; head_ := head_ b; tail_ := tail_ b;
                 cap_ := cap_ b; bufpos_ := bufpos_ b; rclosed_ := true;
                 wclosed_ := wclosed_ b; rerrno_ := errno |})
        else Ok (false, b)
    end
  else Ok (false, b).

(** The [assert] that opens [write] and [consume_to]. *)
Definition off_in_range (b : jbuffer) (off : Z) : bool :=
  (off >=? wrap64 (bufpos_ b + head_ b))
  && (off <=? wrap64 (bufpos_ b + tail_ b)).

(** [jbuffer::write(to, off)]; [nw] and [errno] are what [::write]
    answers.  Returns the answer, the updated [off] and the buffer. *)
Definition write (b : jbuffer) (to : Z) (off : Z) (nw errno : Z)
  : result (bool * Z * jbuffer) :=
  if negb (off_in_range b off) then Aborted else
  if (to >=? 0) && negb (wclosed_ b)
     && negb (off =? wrap64 (bufpos_ b + tail_ b))
  then
    if negb (nw =? 0) && negb (nw =? -1) then
      Ok (true, wrap64 (off + nw), b)
    else if negb (errno =? EINTR) && negb (errno =? EAGAIN) then
      Ok (false, off,
          {| buf_ := buf_ b; head_ := head_ b; tail_ := tail_ b;
             cap_ := cap_ b; bufpos_ := bufpos_ b; rclosed_ := rclosed_ b;
             wclosed_ := true; rerrno_ := rerrno_ b |})
    else Ok (false, off, b)
  else Ok (false, off, b).

(** [jbuffer::consume_to(off)] *)
Definition consume_to (b : jbuffer) (off : Z) : result jbuffer :=
  if negb (off_in_range b off) then Aborted else
  let head := wrap64 (off - bufpos_ b) in
  if tail_ b >=? wrap64 (3 * cap_ b) / 4 then
    (* memmove(buf_, &buf_[head_], tail_ - head_) *)
    if (0 <=? head) && (head <=? tail_ b) && (tail_ b <=? cap_ b) then
      Ok {| buf_ := splice (buf_ b) 0
                      (substr (buf_ b) (Z.to_nat head)
                              (Z.to_nat (tail_ b - head)));
            head_ := 0;
            tail_ := wrap64 (tail_ b - head);
            cap_ := cap_ b;
            bufpos_ := wrap64 (bufpos_ b + head);
            rclosed_ := rclosed_ b; wclosed_ := wclosed_ b;
            rerrno_ := rerrno_ b |}
    else Undefined
  else
    Ok {| buf_ := buf_ b; head_ := head; tail_ := tail_ b; cap_ := cap_ b;
          bufpos_ := bufpos_ b; rclosed_ := rclosed_ b;
          wclosed_ := wclosed_ b; rerrno_ := rerrno_ b |}.

Definition empty (b : jbuffer) : bool := head_ b =? tail_ b.

Definition can_read (b : jbuffer) : bool :=
  negb (rclosed_ b) && negb (wclosed_ b) && negb (tail_ b =? cap_ b).

Definition can_write (b : jbuffer) : bool :=
  negb (wclosed_ b) && negb (head_ b =? tail_ b).

Definition done (b : jbuffer) : bool :=
  rclosed_ b && (head_ b =? tail_ b).

(** The bytes between [head_] and [tail_]. *)
Definition contents (b : jbuffer) : str :=
  substr (buf_ b) (Z.to_nat (head_ b)) (Z.to_nat (tail_ b - head_ b)).

(** The bytes before [tail_]. *)
Definition written (b : jbuffer) : str :=
  firstn (Z.to_nat (tail_ b)) (buf_ b).

Definition hex : str := lit "0123456789ABCDEF".

(** [append(stop, first)] for positions in [input]. *)
Definition append_range (b : jbuffer) (input : str) (stop first : nat)
  : result jbuffer :=
  append b (substr input stop (first - stop)%nat).

(** The escape written after the backslash for the byte [ch] of value
    [c]. *)
Definition append_escape (b : jbuffer) (ch : ascii) (c : Z)
  : result jbuffer :=
  if c =? 8 then append_ch b "b"
  else if c =? 12 then append_ch b "f"
  else if c =? 10 then append_ch b "n"
  else if c =? 13 then append_ch b "r"
  else if c =? 9 then append_ch b "t"
  else if c >=? 32 then append_ch b ch
  else
    let* b1 := append_ch b "u" in
    let* b2 := append_ch b1 "0" in
    let* b3 := append_ch b2 "0" in
    let* b4 := append_ch b3 (nth (Z.to_nat (c / 16)) hex NUL) in
    append_ch b4 (nth (Z.to_nat (c mod 16)) hex NUL).

(** The [while (first != last)] loop of [append_json_chars]; answers the
    buffer and the final [first] and [stop]. *)
Fixpoint json_loop (fuel : nat) (input : str) (first stop : nat)
    (b : jbuffer) : result (jbuffer * nat * nat) :=
  let last := length input in
  if Nat.eqb first last then Ok (b, first, stop) else
  match fuel with
  | O => OutOfFuel
  | S fuel' =>
      let ch := nth first input NUL in
      let c := uc ch in
      let at_ (i : nat) := uc (nth (first + i)%nat input NUL) in
      let skip :=
        let* b1 := append_range b input stop first in
        let* b2 := append_ch b1 DEL in
        json_loop fuel' input (S first) (S first) b2 in
      if c =? 0 then skip
      else if (c <? 32) || (c =? 92) || (c =? 34) then
        let* b1 := append_range b input stop first in
        let* b2 := append_ch b1 "\" in
        let* b3 := append_escape b2 ch c in
        json_loop fuel' input (S first) (S first) b3
      else if c <? 128 then json_loop fuel' input (S first) stop b
      else if (c <? 194) || (c >? 244) then skip
      else if Nat.eqb (last - first) 1%nat then Ok (b, first, stop)
      else if (at_ 1%nat <? 128) || (at_ 1%nat >? 191) then skip
      else if c <? 224 then json_loop fuel' input (first + 2)%nat stop b
      else if ((c =? 224) && (at_ 1%nat <? 160))
              || ((c =? 237) && (at_ 1%nat >? 159))
              || ((c =? 240) && (at_ 1%nat <? 144))
              || ((c =? 244) && (at_ 1%nat >? 143)) then skip
      else if Nat.eqb (last - first) 2%nat then Ok (b, first, stop)
      else if (at_ 2%nat <? 128) || (at_ 2%nat >? 191) then skip
      else if c <? 240 then json_loop fuel' input (first + 3)%nat stop b
      else if Nat.eqb (last - first) 3%nat then Ok (b, first, stop)
      else if (at_ 3%nat <? 128) || (at_ 3%nat >? 191) then skip
      else json_loop fuel' input (first + 4)%nat stop b
  end.

(** [jbuffer::append_json_chars(first, last)] on the bytes [input] of the
    range; the position returned is an index into [input]. *)
Definition append_json_chars (b : jbuffer) (input : str)
  : result (jbuffer * nat) :=
  let* (b1, first, stop) := json_loop (length input) input 0 0 b in
  let* b2 := append_range b1 input stop first in
  Ok (b2, first).

End JBuffer.

(** ** The jail owner: command line and termination *)

Module Owner.

Definition SIGTERM : Z := 15.
Definition EAGAIN : Z := 11.
Definition ECHILD : Z := 10.

Record timeval := {
  tv_sec : Z;
  tv_usec : Z
}.

(** [timerisset(tv)] and [timercmp(a, b, >)] *)
Definition timerisset (tv : timeval) : bool :=
  negb (tv_sec tv =? 0) || negb (tv_usec tv =? 0).

Definition timercmp_gt (a b : timeval) : bool :=
  if tv_sec a =? tv_sec b then tv_usec a >? tv_usec b
  else tv_sec a >? tv_sec b.

(** The members read by [check_child_timeout]. *)
Record jailownerinfo := {
  child_status_ : Z;
  expiry_ : timeval;
  idle_expiry_ : timeval
}.

(** The [do ... while (xr.first != -1)] loop: [reaped] lists the pairs
    [x_waitpid] answers before it answers [(-1, -1)]. *)
Definition reap (child : Z) (reaped : list (Z * Z)) (child_status : Z) : Z :=
  fold_left (fun st (xr : Z * Z) => if fst xr =? child then snd xr else st)
            (reaped ++ [(-1, -1)]) child_status.

(** [check_child_timeout(child, waitpid)].  [errno] is the value left by
    the last [x_waitpid], [now] what [gettimeofday] answers.  Returns the
    answer and the updated [child_status_]. *)
Definition check_child_timeout (o : jailownerinfo) (got_sigterm : Z)
    (child : Z) (waitpid : bool) (reaped : list (Z * Z)) (errno : Z)
    (now : timeval) : Z * jailownerinfo :=
  let o' := {| child_status_ := reap child reaped (child_status_ o);
               expiry_ := expiry_ o; idle_expiry_ := idle_expiry_ o |} in
  if negb (errno =? EAGAIN) && negb (errno =? ECHILD) then (125, o')
  else if (child_status_ o' >=? 0) && waitpid then (child_status_ o', o')
  else if negb (got_sigterm =? 0) then (128 + SIGTERM, o')
  else if (timerisset (expiry_ o') || timerisset (idle_expiry_ o'))
          && ((timerisset (expiry_ o') && timercmp_gt now (expiry_ o'))
              || (timerisset (idle_expiry_ o')
                  && timercmp_gt now (idle_expiry_ o')))
  then (124, o')
  else (-1, o').

(** The command built by [jailownerinfo::exec] for [argc >= 1]. *)
Definition command (argv : list str) : str :=
  if Nat.eqb (length argv) 1%nat then nth 0%nat argv []
  else
    fold_left (fun command arg => command ++ lit " " ++ Path.shell_quote arg)
              argv (Path.shell_quote (nth 0%nat argv [])).

(** The vector [argv_] handed to [execve], without its null terminator. *)
Definition exec_argv (owner_sh : str) (argv : list str) : list str :=
  [owner_sh; lit "-l"]
    ++ (if Nat.eqb (length argv) 0%nat then [] else [lit "-c"; command argv]).

End Owner.

(** * Further parts of the program *)

(** ** More pathname helpers *)

Module Pathname.
Import Path.

(** The [while] loop of [path_noendslash]. *)
Fixpoint noendslash_loop (fuel : nat) (path : str) : result str :=
  if Nat.ltb 1 (length path) && Ascii.eqb (back path) "/" then
    match fuel with
    | O => OutOfFuel
    | S fuel' => noendslash_loop fuel' (substr path 0 (length path - 1))
    end
  else Ok path.

(** [path_noendslash(path)] *)
Definition path_noendslash (path : str) : result str :=
  noendslash_loop (length path) path.

(** [while (npos > 1 && p(path[npos - 1])) --npos;] *)
Fixpoint skip_back (fuel : nat) (p : ascii -> bool) (path : str)
    (npos : nat) : result nat :=
  if Nat.ltb 1 npos && p (nth (npos - 1) path NUL) then
    match fuel with
    | O => OutOfFuel
    | S fuel' => skip_back fuel' p path (npos - 1)
    end
  else Ok npos.

(** [path_parentdir(path)] *)
Definition path_parentdir (path : str) : result str :=
  let* n1 := skip_back (length path) (fun c => Ascii.eqb c "/") path
                       (length path) in
  let* n2 := skip_back (length path) (fun c => negb (Ascii.eqb c "/")) path
                       n1 in
  Ok (substr path 0 n2).

End Pathname.

(** ** [printf] conversions

    [dec n] is what [printf] writes for [%zu], [%lu] and [%llu], and for
    [%d] when the argument is not negative: the decimal digits of [n],
    without leading zeros.  A 64-bit value has at most 20 digits. *)

Module Printf.

Definition digit_char (d : Z) : ascii := chr (48 + d).

Fixpoint dec_loop (fuel : nat) (n : Z) (acc : str) : str :=
  match fuel with
  | O => acc
  | S fuel' =>
      let acc' := digit_char (n mod 10) :: acc in
      if n <? 10 then acc' else dec_loop fuel' (n / 10) acc'
  end.

Definition dec (n : Z) : str := dec_loop 20 n [].

(** [%d] *)
Definition dec_int (n : Z) : str :=
  if n <? 0 then "-"%char :: dec (- n) else dec n.

End Printf.

(** ** Command-line numbers *)

Module Options.

(** A [long] read back from the 64 bits of an [unsigned long]. *)
Definition to_long (x : Z) : Z :=
  if wrap64 x <? 2 ^ 63 then wrap64 x else wrap64 x - 2 ^ 64.

(** The [while] loop of [range_strtol]: the value and the bytes left. *)
Fixpoint digits_loop (val : Z) (s : str) : Z * str :=
  match s with
  | c :: s' =>
      if isdigit c then digits_loop (wrap64 (10 * val + uc c - 48)) s'
      else (val, s)
  | [] => (val, s)
  end.

(** [range_strtol(v, a, b)] on the bytes [s] of the range: the answer and
    the value of [v] afterwards. *)
Definition range_strtol (v : Z) (s : str) : bool * Z :=
  let signed := match s with
                | c :: _ => Ascii.eqb c "-" || Ascii.eqb c "+"
                | [] => false
                end in
  let negative := signed && Ascii.eqb (deref s) "-" in
  let a := if signed then skipn 1 s else s in
  match a with
  | [] => (false, v)
  | c :: _ =>
      if negb (isdigit c) then (false, v)
      else
        let (val, rest) := digits_loop 0 a in
        (match rest with [] => true | _ => false end,
         to_long (if negative then - val else val))
  end.


End Options.

(** ** Timers *)

Module Timer.
Import Owner.

(** [timersub(a, b, result)] of [<sys/time.h>] *)
Definition timersub (a b : timeval) : timeval :=
  let sec := tv_sec a - tv_sec b in
  let usec := tv_usec a - tv_usec b in
  if usec <? 0
  then {| tv_sec := sec - 1; tv_usec := usec + 1000000 |}
  else {| tv_sec := sec; tv_usec := usec |}.

(** [timercmp(a, b, <)] *)
Definition timercmp_lt (a b : timeval) : bool :=
  if tv_sec a =? tv_sec b then tv_usec a <? tv_usec b
  else tv_sec a <? tv_sec b.

(** A [long] converted to [int]. *)
Definition to_int (x : Z) : Z := (x + 2 ^ 31) mod 2 ^ 32 - 2 ^ 31.

(** [timer_difference_ms(lhs, rhs)] *)
Definition timer_difference_ms (lhs rhs : timeval) : Z :=
  let d := timersub lhs rhs in
  to_int (tv_sec d * 1000 + Z.quot (tv_usec d) 1000).

(** The computation of [timeout_ms] in [jailownerinfo::block]; [esfds]
    tells whether [esfds_] is not empty. *)
Definition block_timeout (esfds : bool) (expiry idle_expiry now : timeval)
  : Z :=
  let t0 := if esfds then 30000 else 3600000 in
  let t1 :=
    if timerisset expiry then
      if timercmp_lt now expiry
      then Z.min t0 (timer_difference_ms expiry now)
      else 0
    else t0 in
  if timerisset idle_expiry then
    if timercmp_lt now idle_expiry
    then Z.min t1 (timer_difference_ms idle_expiry now)
    else 0
  else t1.

End Timer.

(** ** The environment and the arguments of the jailed command *)

Module Env.

(** [strncmp(e, p, strlen(p)) == 0] *)
Definition has_prefix (p e : str) : bool :=
  str_eqb (firstn (length p) e) p.






(** [argpos - arg] after the [while] loop over the name of [arg]. *)
Definition name_len (arg : str) : nat :=
  Conf.span (fun c => isalnum c || Ascii.eqb c "_") arg.

(** [!(arg == argpos || *argpos != '=')] *)
Definition is_assignment (arg : str) : bool :=
  negb (Nat.eqb (name_len arg) 0)
  && Ascii.eqb (nth (name_len arg) arg NUL) "=".

(** The search of [newenv_] for the first entry whose first [n] bytes
    are those of [arg], which [arg] replaces; [arg] is added at the end
    when there is none. *)
Fixpoint set_env (env : list str) (arg : str) (n : nat) : list str :=
  match env with
  | [] => [arg]
  | e :: env' =>
      if str_eqb (firstn n e) (firstn n arg) then arg :: env'
      else e :: set_env env' arg n
  end.

(** The [while (argc > 0)] loop: the environment and the arguments that
    are left. *)
Fixpoint take_assignments (argv : list str) (env : list str)
  : list str * list str :=
  match argv with
  | [] => (env, [])
  | arg :: rest =>
      if is_assignment arg
      then take_assignments rest (set_env env arg (name_len arg))
      else (env, argv)
  end.


End Env.

(** ** Copying into the jail: symbolic links *)

Module Symlink.

(** The last index of [c] in [s]. *)
Fixpoint rfind_in (c : ascii) (s : str) : option nat :=
  match s with
  | [] => None
  | x :: s' =>
      match rfind_in c s' with
      | Some i => Some (S i)
      | None => if Ascii.eqb x c then Some 0%nat else None
      end
  end.

(** [s.rfind(c, pos)]: the last index of [c] that is not after [pos]. *)
Definition rfind (c : ascii) (s : str) (pos : Z) : option nat :=
  if Z.of_nat (length s) <=? pos then rfind_in c s
  else rfind_in c (firstn (Z.to_nat pos + 1) s).

(** [s.length() - 2] as a [size_t] *)
Definition len_minus_2 (s : str) : Z := wrap64 (Z.of_nat (length s) - 2).

(** The [while (true)] loop of [handle_symlink_dst]: [None] when it
    gives up, otherwise [src], [dst] and [lnk] at the [break]. *)
Fixpoint climb (fuel : nat) (root src dst lnk : str)
  : result (option (str * str * str)) :=
  if Nat.eqb (length src) 1 then Ok None else
  match rfind "/" src (len_minus_2 src), rfind "/" dst (len_minus_2 dst) with
  | Some srcslash, Some dstslash =>
      if Nat.ltb dstslash (length root) then Ok None else
      let src' := substr src 0 (srcslash + 1) in
      let dst' := substr dst 0 (dstslash + 1) in
      if Nat.ltb 3 (length lnk)
         && Ascii.eqb (nth 0 lnk NUL) "."
         && Ascii.eqb (nth 1 lnk NUL) "."
         && Ascii.eqb (nth 2 lnk NUL) "/"
      then
        match fuel with
        | O => OutOfFuel
        | S fuel' => climb fuel' root src' dst' (substr_from lnk 3)
        end
      else Ok (Some (src', dst', lnk))
  | _, _ => Ok None
  end.

(** [handle_symlink_dst(dst, src, lnk, jaildev)] up to its call of
    [handle_copy]: the arguments [src] and [subdst] of that call, or
    [None] when [handle_copy] is not called.  [substr] with a position
    after the end of the string throws, and the program is aborted. *)
Definition handle_symlink_dst (dstroot linkdir dst src lnk : str)
  : result (option (str * str)) :=
  let root :=
    if negb (Nat.eqb (length linkdir) 0)
       && negb (str_eqb (substr dst 0 (length dstroot)) dstroot)
    then linkdir else dstroot in
  let* r :=
    if Ascii.eqb (nth 0 lnk NUL) "/" then Ok (Some (lnk, root ++ lnk))
    else
      let* c := climb (length lnk) root src dst lnk in
      match c with
      | None => Ok None
      | Some (src', dst', lnk') => Ok (Some (src' ++ lnk', dst' ++ lnk'))
      end in
  match r with
  | None => Ok None
  | Some (src', dst') =>
      if Nat.ltb (length dst') (length root) then Aborted else
      if negb (str_eqb (substr dst' (length root) 6) (lit "/proc/"))
      then Ok (Some (src', substr_from dst' (length root)))
      else Ok None
  end.

(** The four [assert]s that open [handle_copy(src, subdst, ...)], in
    their order: whether all of them hold.  [back()] of an empty
    [dstroot] is undefined; the [substr(0, n)] of the last one does not
    throw. *)
Definition handle_copy_asserts (dstroot subdst : str) : result bool :=
  if negb (Ascii.eqb (nth 0 subdst NUL) "/") then Ok false else
  if negb (Nat.eqb (length subdst) 1
           || negb (Ascii.eqb (nth 1 subdst NUL) "/")) then Ok false else
  if Nat.eqb (length dstroot) 0 then Undefined else
  Ok (negb (Ascii.eqb (Path.back dstroot) "/")
      && negb (str_eqb (substr subdst 0 (length dstroot)) dstroot)).

(** A link is copied: [handle_symlink_dst] as far as the assertions of
    the [handle_copy] it calls; the answer tells whether [handle_copy]
    goes on, and with which [src] and [subdst]. *)
Definition symlink_copy (dstroot linkdir dst src lnk : str)
  : result (option (str * str)) :=
  let* r := handle_symlink_dst dstroot linkdir dst src lnk in
  match r with
  | None => Ok None
  | Some (src', subdst) =>
      let* ok := handle_copy_asserts dstroot subdst in
      if ok then Ok (Some (src', subdst)) else Aborted
  end.

End Symlink.

(** ** Event sources *)

Module Event.
Import JBuffer Printf.

Record esfd := {
  fd_ : Z;
  jbuf_ : jbuffer;
  output_off_ : Z;
  off_ : Z
}.

(** [esfd::esfd(fd, output_off)] *)
Definition esfd_new (fd output_off : Z) : esfd :=
  {| fd_ := fd; jbuf_ := jbuffer_new 4096; output_off_ := output_off;
     off_ := 0 |}.

(** What the first [sprintf] of [write_event] writes: [data:{], the
    member [offset] with the number, and the member [data] up to the
    quote that opens its string. *)
Definition event_header (output_off : Z) : str :=
  lit "data:{" ++ [DQUOTE] ++ lit "offset" ++ [DQUOTE] ++ lit ":"
    ++ dec output_off ++ lit "," ++ [DQUOTE] ++ lit "data" ++ [DQUOTE]
    ++ lit ":" ++ [DQUOTE].

(** What the second [sprintf] writes: the quote that closes the string,
    the member [end_offset] with the number and the closing brace, a
    newline, [id:] with the number and two newlines. *)
Definition event_trailer (newoff : Z) : str :=
  [DQUOTE] ++ lit "," ++ [DQUOTE] ++ lit "end_offset" ++ [DQUOTE] ++ lit ":"
    ++ dec newoff ++ lit "}" ++ [Conf.NL] ++ lit "id:" ++ dec newoff
    ++ [Conf.NL; Conf.NL].

(** [esfd::write_event(jbuf)].  The range handed to [append_json_chars]
    starts at [jbuf.buf_ + output_off_ - jbuf.bufpos_] and ends at
    [jbuf.buf_ + jbuf.tail_]; it has to lie inside the array of [jbuf],
    with its start not after its end. *)
Definition write_event (e : esfd) (jbuf : jbuffer) : result esfd :=
  let first := output_off_ e - bufpos_ jbuf in
  if (first <? 0) || (tail_ jbuf <? first)
     || (Z.of_nat (length (JBuffer.buf_ jbuf)) <? tail_ jbuf)
  then Undefined else
  let input := substr (JBuffer.buf_ jbuf) (Z.to_nat first)
                      (Z.to_nat (tail_ jbuf - first)) in
  let* b1 := append (jbuf_ e) (event_header (output_off_ e)) in
  let* (b2, stop) := append_json_chars b1 input in
  let newoff := wrap64 (bufpos_ jbuf + (first + Z.of_nat stop)) in
  let* b3 := append b2 (event_trailer newoff) in
  Ok {| fd_ := fd_ e; jbuf_ := b3; output_off_ := newoff; off_ := off_ e |}.

End Event.

(** ** The manifest *)

Module Manifest.

(** The [while] loop of [construct_jail] that removes doubled slashes
    from the end of [cursrcdir]. *)
Fixpoint undouble (fuel : nat) (cur : str) : result str :=
  if Nat.ltb 1 (length cur)
     && Ascii.eqb (nth (length cur - 1) cur NUL) "/"
     && Ascii.eqb (nth (length cur - 2) cur NUL) "/"
  then
    match fuel with
    | O => OutOfFuel
    | S fuel' => undouble fuel' (substr cur 0 (length cur - 1))
    end
  else Ok cur.

(** A line [directory:] of the manifest: the new [cursrcdir] (and
    [curdstsubdir]).  [line] holds the bytes from [line] to [endline],
    the last of which is the colon.  [std::string(first, last)] with
    [first] after [last] is undefined. *)
Definition dir_line (line : str) : result str :=
  let n := length line in
  let* cur :=
    if Nat.eqb n 2 && Ascii.eqb (nth 0 line NUL) "." then Ok (lit "/")
    else if Nat.ltb n 2 && Ascii.eqb (nth 0 line NUL) "."
            && Ascii.eqb (nth 1 line NUL) "/"
    then Undefined
    else Ok (substr line 0 (n - 1)) in
  let cur1 := if Ascii.eqb (nth 0 cur NUL) "/" then cur else lit "/" ++ cur in
  let* cur2 := undouble (length cur1) cur1 in
  Ok (if Ascii.eqb (nth (length cur2 - 1) cur2 NUL) "/" then cur2
      else cur2 ++ lit "/").

End Manifest.

(** ** The PID file *)

Module Pid.
Import Printf.

(** [sizeof(buf)] *)
Definition BUFSZ : nat := 1024%nat.

(** [snprintf(sx, buf + 1024 - sx, "%d", p)] followed by
    [sx += min(l, buf + 1024 - sx)], [out] being the bytes before [sx]:
    when the digits do not fit, [snprintf] writes as many as fit before
    the terminator it always writes, and [sx] moves over both. *)
Definition print_pid (out : str) (p : Z) : str :=
  let size := (BUFSZ - length out)%nat in
  let digits := dec_int p in
  if Nat.ltb (length digits) size then out ++ digits
  else out ++ firstn (size - 1) digits ++ [NUL].

(** The [while (s0 != s1 && sx != buf + 1024)] loop of [write_pid]. *)
Fixpoint pid_loop (p : Z) (s out : str) : str :=
  match s with
  | [] => out
  | c :: s' =>
      if Nat.eqb (length out) BUFSZ then out else
      match s' with
      | d :: s'' =>
          if Ascii.eqb c "$" && Ascii.eqb d "$"
          then pid_loop p s'' (print_pid out p)
          else pid_loop p s' (out ++ [c])
      | [] => pid_loop p s' (out ++ [c])
      end
  end.

(** The bytes that [write_pid(p)] hands to [write]. *)
Definition pid_text (pidcontents : str) (p : Z) : str :=
  let out := if 0 <? p then pid_loop p pidcontents [] else lit "*" in
  if negb (Nat.eqb (length out) 0) && negb (Nat.eqb (length out) BUFSZ)
     && negb (Ascii.eqb (Path.back out) Conf.NL)
  then out ++ [Conf.NL] else out.

End Pid.

(** * The specification's statements

    Definitions that follow the words of the specification, to be compared
    with the definitions above, which follow the source. *)

Module Spec.

(** *** Mount scheduling *)

(** The classes of mount entries named by the phase rules, tie-broken in
    the order in which the rules are listed. *)
Inductive mount_class :=
| ChildOnly     (* /proc (proc), /dev/pts (devpts) *)
| TmpMount      (* /tmp (tmpfs) *)
| NeverMount    (* /run (tmpfs) *)
| Deferrable    (* /sys (sysfs), /dev (udev), any wanted mount *)
| Unlisted.

Definition is_entry (ms : Mount.mountslot) (src : str) (path fstype : string)
  : bool :=
  str_eqb src (lit path) && str_eqb (Mount.type ms) (lit fstype).

Definition classify (ms : Mount.mountslot) (src : str) : mount_class :=
  if is_entry ms src "/proc" "proc" || is_entry ms src "/dev/pts" "devpts"
  then ChildOnly
  else if is_entry ms src "/tmp" "tmpfs" then TmpMount
  else if is_entry ms src "/run" "tmpfs" then NeverMount
  else if is_entry ms src "/sys" "sysfs" || is_entry ms src "/dev" "udev"
          || Mount.wanted ms
  then Deferrable
  else Unlisted.

(** Appending [(src, dst)] to the deferred list. *)
Definition defer (src dst : str) (g : Mount.globals) : Mount.globals :=
  {| Mount.mount_status := Mount.mount_status g;
     Mount.delayed_mounts := Mount.delayed_mounts g ++ [src; dst] |}.

(** What each class answers in phase [phase] (0: manifest-time, 1:
    pre-fork, 2: post-clone), and the globals it leaves. *)
Definition phase_rule (cl : mount_class) (src dst : str) (g : Mount.globals)
  : bool * Mount.globals :=
  let phase := Mount.mount_status g in
  match cl with
  | ChildOnly => (phase =? 2, g)
  | TmpMount => (negb (phase =? 1), g)
  | NeverMount => (false, g)
  | Deferrable =>
      if phase =? 1 then (false, defer src dst g)
      else ((phase =? 0) || (phase =? 2), g)
  | Unlisted => (false, g)
  end.

(** *** Termination causes *)

(** The wall-clock or the idle timeout has expired at [now]. *)
Definition expired (o : Owner.jailownerinfo) (now : Owner.timeval) : bool :=
  (Owner.timerisset (Owner.expiry_ o)
   && Owner.timercmp_gt now (Owner.expiry_ o))
  || (Owner.timerisset (Owner.idle_expiry_ o)
      && Owner.timercmp_gt now (Owner.idle_expiry_ o)).

(** [x_waitpid] ended without an error other than "no child yet" and the
    exit status of the child is not being reported. *)
Definition still_running (o : Owner.jailownerinfo) (child : Z)
    (waitpid : bool) (reaped : list (Z * Z)) (errno : Z) : bool :=
  ((errno =? Owner.EAGAIN) || (errno =? Owner.ECHILD))
  && negb ((Owner.reap child reaped (Owner.child_status_ o) >=? 0)
           && waitpid).

(** The priority of the specification: an expired timeout wins over a
    SIGTERM received by the controller. *)
Definition timeout_beats_sigterm : Prop :=
  forall o got_sigterm child waitpid reaped errno now,
    still_running o child waitpid reaped errno = true ->
    expired o now = true ->
    got_sigterm <> 0 ->
    fst (Owner.check_child_timeout o got_sigterm child waitpid reaped errno
                                   now) = 124.

(** *** Reading the policy file *)

(** Owned by root and not writable by group or other. *)
Definition root_only (st : Conf.stat) : Prop :=
  Conf.st_uid st = Conf.ROOT
  /\ Z.land (Conf.st_mode st) Conf.S_IWGRP = 0
  /\ Z.land (Conf.st_mode st) Conf.S_IWOTH = 0.

Definition readable (f : Conf.etc_file) : Prop :=
  Conf.open_ok f = true /\ Conf.fstat_ok f = true /\ Conf.read_ok f = true.

(** The file is read in full. *)
Definition read_in_full (f : Conf.etc_file) : Conf.loaded :=
  Conf.Loaded {| Conf.buf_ := Conf.file_bytes f;
                 Conf.len_ := length (Conf.file_bytes f) |}.

(** Every root-only file of at most 8192 bytes is read in full. *)
Definition accepts_up_to_8192 : Prop :=
  forall f,
    readable f -> root_only (Conf.file_stat f) ->
    Z.of_nat (length (Conf.file_bytes f)) <= 8192 ->
    Conf.pajailconf_new f = read_in_full f.

(** *** Shell quoting *)

(** The argument has a byte outside [A-Za-z0-9_-.~/] or begins with a
    tilde. *)
Definition needs_quote (s : str) : bool :=
  Ascii.eqb (deref s) "~" || existsb (fun c => negb (Path.bare_char c)) s.

(** Every single quote replaced by ['\'']. *)
Definition escape_quotes (s : str) : str :=
  flat_map (fun c => if Ascii.eqb c "'" then lit "'\''" else [c]) s.

Definition quoted_form (s : str) : str :=
  if needs_quote s then lit "'" ++ escape_quotes s ++ lit "'" else s.

(** The shell reads the quoted form of any byte string as that one
    word. *)
Definition round_trip : Prop :=
  forall s, Shell.sh_words (Path.shell_quote s) = Some [s].

(** *** Policy evaluation *)

(** The lines of the policy file as the loop of [allows_type] reads them:
    the first two words of each line. *)
Fixpoint conf_lines (fuel : nat) (c : Conf.pajailconf) (pos : nat)
  : result (list (str * str)) :=
  if negb (Nat.ltb pos (Conf.len_ c)) then Ok [] else
  match fuel with
  | O => OutOfFuel
  | S fuel' =>
      let '(action, pos1) := Conf.take_word c pos in
      let '(arg, pos2) := Conf.take_word c pos1 in
      let* pos3 := Conf.skip_words (Conf.len_ c) c pos2 in
      let* rest := conf_lines fuel' c (Conf.skip_newlines c pos3) in
      Ok ((Conf.word c action, Conf.word c arg) :: rest)
  end.

(** The rules of a policy in textual order. *)
Definition rules_of (c : Conf.pajailconf) : result (list (str * str)) :=
  conf_lines (Conf.len_ c) c 0.

(** The allow bit a line asks for, if it is a rule for [type]:
    [disable<type>] and [no<type>] ask for 0, [enable<type>] and
    [allow<type>] for 1. *)
Definition rule_bit (type : str) (line : str * str) : option Z :=
  if Conf.check_action (fst line) (lit "disable") type
     || Conf.check_action (fst line) (lit "no") type
  then Some 0
  else if Conf.check_action (fst line) (lit "enable") type
          || Conf.check_action (fst line) (lit "allow") type
  then Some 1
  else None.

Definition bit_of (type : str) (line : str * str) : Z :=
  match rule_bit type line with
  | Some a => a
  | None => -1
  end.

(** A global rule: a rule without a pattern. *)
Definition is_global (type : str) (line : str * str) : bool :=
  match rule_bit type line with
  | Some _ => Nat.eqb (length (snd line)) 0
  | None => false
  end.

Section Evaluation.

Variable fnmatch : str -> str -> bool.
Variables (type dir : str) (superdir : bool).

(** A subdirectory-pattern rule that matches [dir]. *)
Definition matches_dir (line : str * str) : bool :=
  match rule_bit type line with
  | Some a =>
      negb (Nat.eqb (length (snd line)) 0)
      && Ascii.eqb (nth 0 (snd line) NUL) "/"
      && match Conf.check_dirmatch fnmatch (Path.path_endslash (snd line))
                 dir (superdir || (a <=? 0)) with
         | Ok (m, _) => m
         | _ => false
         end
  | None => false
  end.

(** The last line of [lines] that satisfies [p]. *)
Definition last_such (p : str * str -> bool) (lines : list (str * str))
  : option (str * str) :=
  find p (rev lines).

(** Last-match-wins: the global bit is that of the last global rule. *)
Definition global_bit (lines : list (str * str)) : Z :=
  match last_such (is_global type) lines with
  | Some l => bit_of type l
  | None => -1
  end.

(** Last-match-wins: the local bit is that of the last rule that is a
    matching pattern rule or a global disable. *)
Definition local_bit_last (lines : list (str * str)) : Z :=
  match last_such (fun l => matches_dir l
                            || (is_global type l && (bit_of type l =? 0)))
                  lines with
  | Some l => bit_of type l
  | None => -1
  end.

(** How specific a pattern is: the number of its bytes that are not
    wildcards. *)
Definition specificity (pattern : str) : nat :=
  length (filter (fun ch => negb (Ascii.eqb ch "*" || Ascii.eqb ch "?"))
                 pattern).

(** Most-specific-wins: the local bit is that of the matching pattern
    rule whose pattern is the most specific (the later one on a tie). *)
Definition most_specific (lines : list (str * str)) : option (str * str) :=
  fold_left
    (fun best l =>
       if matches_dir l
          && match best with
             | Some b => Nat.leb (specificity (snd b)) (specificity (snd l))
             | None => true
             end
       then Some l else best)
    lines None.

Definition local_bit_specific (lines : list (str * str)) : Z :=
  match most_specific lines with
  | Some l => bit_of type l
  | None => -1
  end.

End Evaluation.

(** The statement of the specification: among the matching pattern
    rules, the most specific one decides the local bit. *)
Definition most_specific_decides : Prop :=
  forall fnmatch c type dir superdir answer st lines,
    Conf.allows_type fnmatch c type dir superdir = Ok (answer, st) ->
    rules_of c = Ok lines ->
    Conf.allowed_locally st
    = local_bit_specific fnmatch type (Path.path_endslash dir) superdir lines.


(** The valid part of [buf_] lies inside the array. *)
Definition conf_wf (c : Conf.pajailconf) : Prop :=
  (Conf.len_ c <= length (Conf.buf_ c))%nat.

(** The body of the loop of [allows_type] run over a sequence of lines. *)
Fixpoint apply_lines (fnmatch : str -> str -> bool) (type dir : str)
    (superdir : bool) (lines : list (str * str)) (st : Conf.eval_state)
  : result Conf.eval_state :=
  match lines with
  | [] => Ok st
  | l :: rest =>
      let* st' := Conf.apply_line fnmatch type dir superdir (fst l) (snd l)
                                  st in
      apply_lines fnmatch type dir superdir rest st'
  end.

(** The answer of [allows_type] from the two bits. *)
Definition allowed (global local : Z) : bool :=
  negb (global =? 0) && (0 <? local).

(** *** File names *)

(** The components of a name: the pieces between its slashes. *)
Fixpoint split_slash (s : str) : list str :=
  match s with
  | [] => [[]]
  | c :: s' =>
      if Ascii.eqb c "/" then [] :: split_slash s'
      else match split_slash s' with
           | w :: ws => (c :: w) :: ws
           | [] => [[c]]
           end
  end.

Definition has_dotdot (name : str) : bool :=
  existsb (str_eqb (lit "..")) (split_slash name).

(** The allowlist: [/], digits, ASCII letters, [-], [.], [_] and [~]. *)
Definition allowed_byte (c : ascii) : bool :=
  Ascii.eqb c "/" || isalnum c || mem_char c (lit "-._~").

(** The name ends with a [.] component that follows a slash. *)
Definition ends_with_dot (name : str) : bool :=
  match rev name with
  | d :: s :: _ => Ascii.eqb d "." && Ascii.eqb s "/"
  | _ => false
  end.

(** The names refused by the code: a byte outside the allowlist, the
    empty name, a leading tilde, 1024 bytes or more, a [..] component. *)
Definition rejected (name : str) : bool :=
  negb (forallb allowed_byte name)
  || Nat.eqb (length name) 0
  || Ascii.eqb (deref name) "~"
  || Nat.leb 1024 (length name)
  || has_dotdot name.

(** A component that survives: neither empty (a doubled or trailing
    slash) nor [.]. *)
Definition keep (w : str) : bool :=
  negb (str_eqb w [] || str_eqb w (lit ".")).

(** The name with doubled slashes, trailing slashes and [.] components
    after the first component removed; [/] when nothing is left. *)
Definition collapse (name : str) : str :=
  match split_slash name with
  | first :: rest =>
      let out := first ++ flat_map (fun w => "/"%char :: w) (filter keep rest) in
      if Nat.eqb (length out) 0 then lit "/" else out
  | [] => []
  end.

(** The statement of the specification, whose allowlist has the space:
    the names refused are exactly those with a byte outside the
    allowlist, a leading tilde or a [..] component. *)
Definition refused_by_spec (name : str) : bool :=
  negb (forallb (fun c => allowed_byte c || Ascii.eqb c " ") name)
  || Ascii.eqb (deref name) "~"
  || has_dotdot name.

Definition rejects_exactly : Prop :=
  forall name,
    Filename.check_filename name = Ok [] <-> refused_by_spec name = true.

(** The loop of [check_filename] read as a scanner over the bytes that
    remain: at the start of the name, just after a slash (further slashes
    are skipped), or inside a component. *)
Inductive scan_state := Start | AfterSlash | Mid.

Definition at_end_or_slash (r : str) : bool :=
  match r with
  | [] => true
  | e :: _ => Ascii.eqb e "/"
  end.

Fixpoint scan (st : scan_state) (suf out : str) : result (option str) :=
  match suf with
  | [] => Ok (Some out)
  | c :: rest =>
      if Ascii.eqb c "/" then
        match st with
        | AfterSlash => scan AfterSlash rest out
        | _ => scan AfterSlash rest (out ++ [c])
        end
      else if Ascii.eqb c "." then
        match st, rest with
        | AfterSlash, [] => Undefined
        | AfterSlash, d :: r =>
            if Ascii.eqb d "/" then scan AfterSlash r out
            else if Ascii.eqb d "." && at_end_or_slash r then Ok None
            else scan Mid rest (out ++ [c])
        | Start, d :: r =>
            if Ascii.eqb d "." && at_end_or_slash r then Ok None
            else scan Mid rest (out ++ [c])
        | _, _ => scan Mid rest (out ++ [c])
        end
      else scan Mid rest (out ++ [c])
  end.

(** The same for the components that follow a slash. *)
Fixpoint later (ws : list str) (out : str) : result (option str) :=
  match ws with
  | [] => Ok (Some out)
  | w :: ws' =>
      if str_eqb w (lit "..") then Ok None
      else if str_eqb w (lit ".") then
        match ws' with
        | [] => Undefined
        | _ => later ws' out
        end
      else if str_eqb w [] then later ws' out
      else
        match ws' with
        | [] => Ok (Some (out ++ w))
        | _ => later ws' (out ++ w ++ lit "/")
        end
  end.

(** *** The byte buffer *)

(** [head <= tail <= cap] *)
Definition buf_inv (b : JBuffer.jbuffer) : Prop :=
  JBuffer.head_ b <= JBuffer.tail_ b /\ JBuffer.tail_ b <= JBuffer.cap_ b.

(** A buffer as the program builds it: the invariant, a positive
    capacity, the array of that size, and members that fit [size_t]. *)
Definition buf_wf (b : JBuffer.jbuffer) : Prop :=
  buf_inv b
  /\ 0 <= JBuffer.head_ b
  /\ 0 < JBuffer.cap_ b < 2 ^ 64
  /\ Z.of_nat (length (JBuffer.buf_ b)) = JBuffer.cap_ b
  /\ 0 <= JBuffer.bufpos_ b < 2 ^ 64.

(** The operations of the buffer, with what the system calls answer. *)
Inductive op :=
| Append (data : str)
| AppendCh (ch : ascii)
| Read (from : Z) (r : JBuffer.read_answer)
| Write (to off nw errno : Z)
| ConsumeTo (off : Z).

Definition run_op (b : JBuffer.jbuffer) (o : op) : result JBuffer.jbuffer :=
  match o with
  | Append data => JBuffer.append b data
  | AppendCh ch => JBuffer.append_ch b ch
  | Read from r => let* (_, b') := JBuffer.read b from r in Ok b'
  | Write to off nw errno =>
      let* (_, b') := JBuffer.write b to off nw errno in Ok b'
  | ConsumeTo off => JBuffer.consume_to b off
  end.

(** The buffers after each operation of a sequence. *)
Fixpoint run_trace (b : JBuffer.jbuffer) (ops : list op)
  : result (list JBuffer.jbuffer) :=
  match ops with
  | [] => Ok []
  | o :: rest =>
      let* b' := run_op b o in
      let* states := run_trace b' rest in
      Ok (b' :: states)
  end.

(** An absolute offset between [bufpos + head] and [bufpos + tail]. *)
Definition offset_ok (b : JBuffer.jbuffer) (off : Z) : Prop :=
  JBuffer.bufpos_ b + JBuffer.head_ b <= off
  /\ off <= JBuffer.bufpos_ b + JBuffer.tail_ b.

(** What an operation needs: offsets in range; [::read] stores no more
    bytes than it was asked for; and sizes on which the [size_t]
    arithmetic of the operation does not wrap around. *)
Definition op_ok (b : JBuffer.jbuffer) (o : op) : Prop :=
  match o with
  | Append data => JBuffer.tail_ b + Z.of_nat (length data) <= 2 ^ 62
  | AppendCh _ => JBuffer.tail_ b + 1 <= 2 ^ 62
  | Read _ (JBuffer.ReadData data) =>
      Z.of_nat (length data) <= JBuffer.cap_ b - JBuffer.tail_ b
  | Read _ _ => True
  | Write _ off _ _ =>
      offset_ok b off /\ JBuffer.bufpos_ b + JBuffer.tail_ b < 2 ^ 64
  | ConsumeTo off =>
      offset_ok b off /\ JBuffer.bufpos_ b + JBuffer.tail_ b < 2 ^ 64
      /\ 3 * JBuffer.cap_ b < 2 ^ 64
  end.

Fixpoint ops_ok (b : JBuffer.jbuffer) (ops : list op) : Prop :=
  match ops with
  | [] => True
  | o :: rest =>
      op_ok b o /\ forall b', run_op b o = Ok b' -> ops_ok b' rest
  end.

(** [consume_to] without compaction: only [head] moves. *)
Definition advance (b : JBuffer.jbuffer) (off : Z) : JBuffer.jbuffer :=
  {| JBuffer.buf_ := JBuffer.buf_ b;
     JBuffer.head_ := off - JBuffer.bufpos_ b;
     JBuffer.tail_ := JBuffer.tail_ b;
     JBuffer.cap_ := JBuffer.cap_ b;
     JBuffer.bufpos_ := JBuffer.bufpos_ b;
     JBuffer.rclosed_ := JBuffer.rclosed_ b;
     JBuffer.wclosed_ := JBuffer.wclosed_ b;
     JBuffer.rerrno_ := JBuffer.rerrno_ b |}.

(** [consume_to] with compaction: the bytes from [off] on are shifted
    left to the start of the array and [bufpos] becomes [off]. *)
Definition compact (b : JBuffer.jbuffer) (off : Z) : JBuffer.jbuffer :=
  let kept := Z.to_nat (JBuffer.bufpos_ b + JBuffer.tail_ b - off) in
  {| JBuffer.buf_ :=
       substr (JBuffer.buf_ b) (Z.to_nat (off - JBuffer.bufpos_ b)) kept
         ++ skipn kept (JBuffer.buf_ b);
     JBuffer.head_ := 0;
     JBuffer.tail_ := JBuffer.bufpos_ b + JBuffer.tail_ b - off;
     JBuffer.cap_ := JBuffer.cap_ b;
     JBuffer.bufpos_ := off;
     JBuffer.rclosed_ := JBuffer.rclosed_ b;
     JBuffer.wclosed_ := JBuffer.wclosed_ b;
     JBuffer.rerrno_ := JBuffer.rerrno_ b |}.

(** The bytes of the buffer between two absolute positions. *)
Definition bytes_between (b : JBuffer.jbuffer) (from to : Z) : str :=
  substr (JBuffer.buf_ b) (Z.to_nat (from - JBuffer.bufpos_ b))
         (Z.to_nat (to - from)).

(** *** JSON escaping *)

Definition in_range (lo hi : Z) (c : ascii) : bool :=
  (lo <=? uc c) && (uc c <=? hi).

(** A continuation byte, [80..BF]. *)
Definition cont (c : ascii) : bool := in_range 128 191 c.

(** The first two bytes of a three-byte and of a four-byte sequence. *)
Definition lead3 (a b : ascii) : bool :=
  ((uc a =? 224) && in_range 160 191 b)
  || (in_range 225 236 a && cont b)
  || ((uc a =? 237) && in_range 128 159 b)
  || (in_range 238 239 a && cont b).

Definition lead4 (a b : ascii) : bool :=
  ((uc a =? 240) && in_range 144 191 b)
  || (in_range 241 243 a && cont b)
  || ((uc a =? 244) && in_range 128 143 b).

(** The well-formed UTF-8 byte sequences (Unicode Standard, table 3-7). *)
Definition well_formed (s : str) : bool :=
  match s with
  | [a] => in_range 0 127 a
  | [a; b] => in_range 194 223 a && cont b
  | [a; b; c] => lead3 a b && cont c
  | [a; b; c; d] => lead4 a b && cont c && cont d
  | _ => false
  end.

(** A proper prefix of a well-formed sequence: a sequence cut short. *)
Definition truncated (s : str) : bool :=
  match s with
  | [a] => in_range 194 244 a
  | [a; b] => lead3 a b || lead4 a b
  | [a; b; c] => lead4 a b && cont c
  | _ => false
  end.

(** The length of the well-formed sequence that starts [l], if any. *)
Definition wf_len (l : str) : option nat :=
  if well_formed (firstn 1 l) then Some 1%nat
  else if well_formed (firstn 2 l) then Some 2%nat
  else if well_formed (firstn 3 l) then Some 3%nat
  else if well_formed (firstn 4 l) then Some 4%nat
  else None.

(** The input cut into well-formed sequences and offending bytes. *)
Inductive piece :=
| Good (w : str)
| Bad (c : ascii).

(** The pieces of [l], and what is left of it when it ends in a sequence
    cut short. *)
Fixpoint pieces (fuel : nat) (l : str) : list piece * str :=
  match fuel with
  | O => ([], l)
  | S fuel' =>
      match l with
      | [] => ([], [])
      | c :: rest =>
          match wf_len l with
          | Some k =>
              let (ps, left) := pieces fuel' (skipn k l) in
              (Good (firstn k l) :: ps, left)
          | None =>
              if truncated l then ([], l)
              else let (ps, left) := pieces fuel' rest in
                   (Bad c :: ps, left)
          end
      end
  end.

(** The JSON escape of a control character, a backslash or a double
    quote. *)
Definition escape_of (c : ascii) : str :=
  if uc c =? 8 then lit "\b"
  else if uc c =? 12 then lit "\f"
  else if uc c =? 10 then lit "\n"
  else if uc c =? 13 then lit "\r"
  else if uc c =? 9 then lit "\t"
  else if 32 <=? uc c then ["\"%char; c]
  else lit "\u00" ++ [nth (Z.to_nat (uc c / 16)) JBuffer.hex NUL;
                      nth (Z.to_nat (uc c mod 16)) JBuffer.hex NUL].

Definition needs_escape (c : ascii) : bool :=
  (uc c <? 32) || Ascii.eqb c "\" || Ascii.eqb c DQUOTE.

(** What is appended for a piece: [0x7F] for a NUL and for an offending
    byte, the escape for a byte that JSON wants escaped, and the sequence
    itself otherwise. *)
Definition render (p : piece) : str :=
  match p with
  | Bad _ => [DEL]
  | Good [c] =>
      if uc c =? 0 then [DEL]
      else if needs_escape c then escape_of c
      else [c]
  | Good w => w
  end.

Definition json_output (input : str) : str :=
  flat_map render (fst (pieces (length input) input)).

(** The position of the first byte that is not consumed. *)
Definition json_consumed (input : str) : nat :=
  length input - length (snd (pieces (length input) input)).


(** The bytes of the input a piece stands for. *)
Definition piece_bytes (p : piece) : str :=
  match p with
  | Good w => w
  | Bad c => [c]
  end.

(** A good piece is a well-formed sequence. *)
Definition piece_ok (p : piece) : bool :=
  match p with
  | Good w => well_formed w
  | Bad _ => true
  end.

End Spec.

(** * Invariants and auxiliary notions of the proofs *)

(** ** Shell quoting *)

Module QuoteInv.
Import Path Shell.

(** The trigger of the loop at index [length pre], for the byte [c]. *)
Definition trigger (pre : str) (c : ascii) : bool :=
  (Nat.eqb (length pre) 0 && Ascii.eqb c "~") || negb (bare_char c).

(** The loop invariant: before any trigger [quoted] is empty and [last]
    is 0; afterwards [quoted] followed by the bytes from [last] on is the
    opening quote and the escaped prefix. *)
Definition loop_inv (pre quoted : str) (last : nat) : Prop :=
  (last <= length pre)%nat
  /\ (length quoted = 0%nat ->
      last = 0%nat /\ Spec.needs_quote pre = false)
  /\ (length quoted <> 0%nat ->
      Spec.needs_quote pre = true
      /\ quoted ++ skipn last pre = lit "'" ++ Spec.escape_quotes pre).

End QuoteInv.

(** ** File names *)

Module FilenameInv.
Import Filename.

Definition is_slash (c : ascii) : bool := Ascii.eqb c "/".

(** A name as C holds it: no byte of it is the terminator. *)
Definition no_nul (s : str) : Prop := Forall (fun c => c <> NUL) s.

(** How the scanner's state describes the bytes before the position. *)
Definition state_ok (st : Spec.scan_state) (pre suf : str) : Prop :=
  match st with
  | Spec.Start => pre = []
  | Spec.AfterSlash =>
      pre <> [] /\ last pre NUL = "/"%char
      /\ Ascii.eqb (deref suf) "/" = false
  | Spec.Mid => pre <> [] /\ Ascii.eqb (last pre NUL) "/" = false
  end.

(** What the scanner does with a component [w] that is kept and the
    components [ws] after it. *)
Definition emit_then (w : str) (ws : list str) (out : str)
  : result (option str) :=
  match ws with
  | [] => Ok (Some (out ++ w))
  | _ => Spec.later ws (out ++ w ++ lit "/")
  end.

(** The kept components, each after a slash. *)
Definition slashed (ws : list str) : str :=
  flat_map (fun w => "/"%char :: w) (filter Spec.keep ws).

(** A component holds no slash. *)
Definition slash_free (w : str) : Prop := Forall (fun c => c <> "/"%char) w.

End FilenameInv.

(** ** The byte buffer *)

Module BufferInv.
Import JBuffer.

(** What an append leaves: a well-formed buffer that differs from the
    old one by the bytes added before [tail]. *)
Definition extends (b b' : jbuffer) (data : str) : Prop :=
  Spec.buf_wf b'
  /\ tail_ b' = tail_ b + Z.of_nat (length data)
  /\ head_ b' = head_ b
  /\ bufpos_ b' = bufpos_ b
  /\ written b' = written b ++ data
  /\ cap_ b <= cap_ b'.

End BufferInv.

(** ** JSON escaping *)

Module JsonInv.
Import JBuffer BufferInv.

(** What one turn of the loop does with the bytes that remain. *)
Inductive action :=
| Skip
| Escape
| Plain (k : nat)
| Break.

(** The chain of tests of the loop, on the bytes [suf] from [first]
    on. *)
Definition decide (suf : str) : action :=
  let c := uc (nth 0 suf NUL) in
  let at_ (i : nat) := uc (nth i suf NUL) in
  if c =? 0 then Skip
  else if (c <? 32) || (c =? 92) || (c =? 34) then Escape
  else if c <? 128 then Plain 1
  else if (c <? 194) || (c >? 244) then Skip
  else if Nat.eqb (length suf) 1 then Break
  else if (at_ 1%nat <? 128) || (at_ 1%nat >? 191) then Skip
  else if c <? 224 then Plain 2
  else if ((c =? 224) && (at_ 1%nat <? 160))
          || ((c =? 237) && (at_ 1%nat >? 159))
          || ((c =? 240) && (at_ 1%nat <? 144))
          || ((c =? 244) && (at_ 1%nat >? 143)) then Skip
  else if Nat.eqb (length suf) 2 then Break
  else if (at_ 2%nat <? 128) || (at_ 2%nat >? 191) then Skip
  else if c <? 240 then Plain 3
  else if Nat.eqb (length suf) 3 then Break
  else if (at_ 3%nat <? 128) || (at_ 3%nat >? 191) then Skip
  else Plain 4.

(** The same choice, from the pieces of the specification. *)
Definition classify (suf : str) : action :=
  match Spec.wf_len suf with
  | Some 1%nat =>
      if uc (nth 0 suf NUL) =? 0 then Skip
      else if Spec.needs_escape (nth 0 suf NUL) then Escape
      else Plain 1
  | Some k => Plain k
  | None => if Spec.truncated suf then Break else Skip
  end.

(** Where the loop stands after its run over [suf]: the position it
    returns, and what has been appended once the pending bytes are
    flushed. *)
Definition loop_result (pre suf : str) (stop : nat) (b : jbuffer)
    (m : nat) (r : result (jbuffer * nat * nat)) : Prop :=
  let first' := (length pre + length suf
                 - length (snd (Spec.pieces m suf)))%nat in
  exists b1 stop' emitted,
    r = Ok (b1, first', stop')
    /\ (stop' <= first')%nat
    /\ extends b b1 emitted
    /\ emitted ++ substr (pre ++ suf) stop' (first' - stop')
       = skipn stop pre ++ flat_map Spec.render (fst (Spec.pieces m suf))
    /\ Z.of_nat (length emitted) + Z.of_nat (first' - stop')
       <= Z.of_nat (length pre - stop) + 6 * Z.of_nat (length suf).

(** No control byte. *)
Definition printable (c : ascii) : Prop := 32 <= uc c.

End JsonInv.

(** ** Notions for the further parts *)

(** *** Timers *)

Module TimerInv.
Import Owner.

(** A [timeval] as a number of microseconds. *)
Definition usecs (t : timeval) : Z := tv_sec t * 1000000 + tv_usec t.

(** A [timeval] as the library keeps it. *)
Definition normal (t : timeval) : Prop := 0 <= tv_usec t < 1000000.

End TimerInv.

(** *** Policy evaluation *)

Module PolicyInv.
Import Conf.

(** [t] is empty or a prefix of [dir] that ends in a slash. *)
Definition dir_prefix (dir t : str) : Prop :=
  t = [] \/ (exists rest, dir = t ++ rest) /\ Path.back t = "/"%char.

End PolicyInv.

(** *** File names *)

Module NameInv.

(** A component that is neither empty nor [.] nor [..]. *)
Definition component_ok (w : str) : Prop :=
  w <> [] /\ w <> lit "." /\ w <> lit "..".

(** A name in the form [check_filename] answers: allowed bytes only, no
    leading tilde, shorter than the buffer, and either [/] alone or a
    first component other than [..] followed by components that are
    neither empty (no doubled slash, no slash at the end) nor [.] nor
    [..]. *)
Definition normal_name (d : str) : Prop :=
  forallb Spec.allowed_byte d = true
  /\ deref d <> "~"%char
  /\ (1 <= length d < 1024)%nat
  /\ (d = lit "/"
      \/ exists w0 ws,
           Spec.split_slash d = w0 :: ws
           /\ w0 <> lit ".."
           /\ Forall component_ok ws).

End NameInv.

(** *** Mount options *)

Module MountInv.
Import Mount.

(** A word of an options string: no comma and no terminator in it. *)
Definition word_ok (w : str) : Prop :=
  Forall (fun c => c <> ","%char /\ c <> NUL) w.

(** Words joined by commas. *)
Definition join (ws : list str) : str :=
  match ws with
  | [] => []
  | w :: rest => w ++ flat_map (fun x => ","%char :: x) rest
  end.

(** The key of a word: what comes before its [=], if it has one. *)
Definition key (w : str) : str := firstn (strcspn w (lit ",=")) w.

(** What the constructor does with one word of the options: a word whose
    key is in the table adds the flag of the table, any other word that
    is not empty is added to [data]. *)
Definition ctor_word (st : Z * str) (w : str) : Z * str :=
  match find_mountarg w (strcspn w (lit ",=")) with
  | Some ma => (Z.lor (fst st) (value ma), snd st)
  | None =>
      if Nat.eqb (length w) 0 then st
      else (fst st,
            snd st ++ (if Nat.eqb (length (snd st)) 0 then [] else lit ",")
                   ++ w)
  end.

(** The text after a word: nothing, or a comma and more. *)
Definition at_boundary (s : str) : Prop :=
  s = [] \/ exists s', s = ","%char :: s'.

(** The test of [add_mountopt] for an option [w] of [data]: its key is
    the key of [inopt]. *)
Definition same_key (inopt w : str) : bool :=
  Nat.eqb (strcspn w (lit ",=")) (strcspn inopt (lit ",="))
  && str_eqb (firstn (strcspn inopt (lit ",=")) inopt)
             (firstn (strcspn inopt (lit ",=")) w).

(** An option of [data] with another key than [inopt]. *)
Definition other_option (inopt w : str) : Prop :=
  word_ok w /\ w <> [] /\ same_key inopt w = false.

End MountInv.

(** * Theorems *)

(** ** Helper lemmas on strings *)

Lemma str_eqb_eq (a b : str) : str_eqb a b = true <-> a = b.
Proof.
  revert b; induction a as [|x a IH]; intros [|y b]; simpl;
    try (split; [discriminate | discriminate]); try tauto.
  rewrite andb_true_iff, Ascii.eqb_eq, IH.
  split; [intros [-> ->]; reflexivity | intros H; inversion H; auto].
Qed.

Lemma str_eqb_refl (a : str) : str_eqb a a = true.
Proof. apply str_eqb_eq; reflexivity. Qed.

(** ** Mount options and mount scheduling *)

Module MountFacts.
Import Mount.

(** C3.  [mountable(src, dst)] implements the phase rules: it answers
    what the rule of the entry's class says for the current phase and
    appends [(src, dst)] to the deferred list exactly where that rule
    defers. *)
Theorem mountable_phase_rules (ms : mountslot) (src dst : str) (g : globals) :
  mount_status g = 0 \/ mount_status g = 1 \/ mount_status g = 2 ->
  mountable ms src dst g = Spec.phase_rule (Spec.classify ms src) src dst g.
Proof.
  intros Hphase.
  unfold mountable, Spec.classify, Spec.phase_rule, Spec.is_entry, Spec.defer.
  destruct (str_eqb src (lit "/proc") && str_eqb (type ms) (lit "proc")
            || str_eqb src (lit "/dev/pts") && str_eqb (type ms) (lit "devpts"));
    [reflexivity|].
  destruct (str_eqb src (lit "/tmp") && str_eqb (type ms) (lit "tmpfs"));
    [reflexivity|].
  destruct (str_eqb src (lit "/run") && str_eqb (type ms) (lit "tmpfs"));
    [reflexivity|].
  destruct (str_eqb src (lit "/sys") && str_eqb (type ms) (lit "sysfs")
            || str_eqb src (lit "/dev") && str_eqb (type ms) (lit "udev")
            || wanted ms); [|reflexivity].
  destruct Hphase as [-> | [-> | ->]]; reflexivity.
Qed.

Lemma mountable_phase_rules_witness :
  let ms := {| fsname := lit "/srv"; type := lit "none"; opts := MS_BIND;
               data := []; wanted := true |} in
  let g := {| mount_status := 1; delayed_mounts := [] |} in
  mountable ms (lit "/srv") (lit "/jail/srv") g
  = Spec.phase_rule (Spec.classify ms (lit "/srv"))
                    (lit "/srv") (lit "/jail/srv") g.
Proof.
  intros ms g.
  apply (mountable_phase_rules ms (lit "/srv") (lit "/jail/srv") g).
  right; left; reflexivity.
Defined.

(** Where each named entry is classified. *)
Lemma classify_named (ms : mountslot) :
  (type ms = lit "proc" -> Spec.classify ms (lit "/proc") = Spec.ChildOnly)
  /\ (type ms = lit "devpts" ->
      Spec.classify ms (lit "/dev/pts") = Spec.ChildOnly)
  /\ (type ms = lit "tmpfs" -> Spec.classify ms (lit "/tmp") = Spec.TmpMount)
  /\ (type ms = lit "tmpfs" ->
      Spec.classify ms (lit "/run") = Spec.NeverMount)
  /\ (type ms = lit "sysfs" ->
      Spec.classify ms (lit "/sys") = Spec.Deferrable)
  /\ (type ms = lit "udev" -> Spec.classify ms (lit "/dev") = Spec.Deferrable).
Proof.
  unfold Spec.classify, Spec.is_entry.
  repeat split; intros ->; reflexivity.
Qed.

(** A wanted mount that is none of the entries listed before it is
    deferrable; without [wanted] it is unlisted unless it is [/sys] or
    [/dev]. *)
Lemma classify_wanted (ms : mountslot) (src : str) :
  Spec.classify ms src = Spec.Deferrable \/
  Spec.classify ms src = Spec.Unlisted ->
  Spec.classify ms src
  = if Spec.is_entry ms src "/sys" "sysfs" || Spec.is_entry ms src "/dev" "udev"
       || wanted ms
    then Spec.Deferrable else Spec.Unlisted.
Proof.
  unfold Spec.classify.
  destruct (Spec.is_entry ms src "/proc" "proc"
            || Spec.is_entry ms src "/dev/pts" "devpts").
  { intros [H | H]; discriminate. }
  destruct (Spec.is_entry ms src "/tmp" "tmpfs").
  { intros [H | H]; discriminate. }
  destruct (Spec.is_entry ms src "/run" "tmpfs").
  { intros [H | H]; discriminate. }
  reflexivity.
Qed.

End MountFacts.

Module MountOptFacts.
Import Mount.

(** The constructor only ever sets flags: a flag that is set stays set
    whatever follows in the options string. *)
Lemma parse_mopt_keeps_bit (n : Z) (fuel : nat) :
  forall mopt o d o' d',
    parse_mopt fuel mopt o d = Ok (o', d') ->
    Z.testbit o n = true -> Z.testbit o' n = true.
Proof.
  induction fuel as [|fuel IH]; intros mopt o d o' d'; simpl.
  - destruct (Ascii.eqb (deref mopt) NUL); [|discriminate].
    intros H; inversion H; subst; auto.
  - destruct (Ascii.eqb (deref mopt) NUL).
    { intros H; inversion H; subst; auto. }
    destruct (find_mountarg _ _) as [ma|].
    + intros H Hb. eapply IH; [exact H|].
      rewrite Z.lor_spec, Hb. reflexivity.
    + destruct (Nat.eqb _ 0); intros H Hb; eapply IH; eauto.
Qed.

(** [add_mountopt("rw")] clears the read-only flag. *)
Lemma add_mountopt_rw_clears (ms : mountslot) :
  exists ms',
    add_mountopt ms (lit "rw") = Ok ms'
    /\ Z.land (opts ms') MS_RDONLY = 0
    /\ data ms' = data ms.
Proof.
  eexists; split; [reflexivity|]. simpl. split; [|reflexivity].
  rewrite <- Z.land_assoc. apply Z.land_0_r.
Qed.

(** C4.  The mount-entry constructor does not clear the read-only flag
    on [rw]: the options string [ro,rw] yields a bitmap in which the
    read-only flag is set, whereas [add_mountopt], given [rw] after [ro],
    clears it. *)
Theorem mountslot_ro_then_rw :
  (exists ms,
      mountslot_new (lit "none") (lit "tmpfs") (Some (lit "ro,rw")) = Ok ms
      /\ Z.land (opts ms) MS_RDONLY = MS_RDONLY)
  /\ (exists ms ms',
         mountslot_new (lit "none") (lit "tmpfs") (Some (lit "ro")) = Ok ms
         /\ add_mountopt ms (lit "rw") = Ok ms'
         /\ Z.land (opts ms') MS_RDONLY = 0).
Proof.
  split.
  - eexists; split; reflexivity.
  - do 2 eexists; repeat split; reflexivity.
Qed.

End MountOptFacts.

(** ** The command handed to the shell *)

Module CommandFacts.
Import Owner.

Lemma fold_left_command (q : str -> str) (l : list str) (init : str) :
  fold_left (fun command arg => command ++ lit " " ++ q arg) l init
  = init ++ concat (map (fun arg => lit " " ++ q arg) l).
Proof.
  revert init; induction l as [|a l IH]; intros init; simpl.
  - rewrite app_nil_r; reflexivity.
  - rewrite IH, <- !app_assoc; reflexivity.
Qed.

(** C10.  With two or more COMMAND words the string after [-c] is the
    quoted first word followed by every quoted word, the first one again
    included, each preceded by a space; with one word it is that word,
    unquoted. *)
Theorem command_repeats_first_word :
  (forall a0 a1 rest,
      command (a0 :: a1 :: rest)
      = Path.shell_quote a0
          ++ concat (map (fun arg => lit " " ++ Path.shell_quote arg)
                         (a0 :: a1 :: rest)))
  /\ (forall a, command [a] = a)
  /\ (forall sh a argv,
         exec_argv sh (a :: argv) = [sh; lit "-l"; lit "-c"; command (a :: argv)]).
Proof.
  repeat split.
  - intros a0 a1 rest. unfold command.
    change (Nat.eqb (length (a0 :: a1 :: rest)) 1) with false.
    cbv iota. rewrite fold_left_command. reflexivity.
Qed.

End CommandFacts.

(** ** Termination causes *)

Module TerminationFacts.
Import Owner.

(** C2, as stated, does not hold: with the wall-clock timeout expired
    and a SIGTERM received, the answer is [128 + SIGTERM]. *)
Lemma timeout_beats_sigterm_fails : ~ Spec.timeout_beats_sigterm.
Proof.
  intros H.
  specialize (H {| child_status_ := -1;
                   expiry_ := {| tv_sec := 10; tv_usec := 0 |};
                   idle_expiry_ := {| tv_sec := 0; tv_usec := 0 |} |}
                1 42 false [] EAGAIN {| tv_sec := 11; tv_usec := 0 |}
                eq_refl eq_refl).
  assert (E : (1 <> 0)%Z) by discriminate.
  specialize (H E). discriminate H.
Qed.

(** C2, amended.  While the child's status is not being reported and
    [x_waitpid] has not failed, a SIGTERM received by the controller wins
    over any timeout: the answer is [128 + SIGTERM] whether or not a
    timeout has expired, and it is 124 exactly when no SIGTERM was
    received and a timeout has expired. *)
Theorem sigterm_beats_timeout o got_sigterm child waitpid reaped errno now :
  Spec.still_running o child waitpid reaped errno = true ->
  let r := fst (check_child_timeout o got_sigterm child waitpid reaped
                                    errno now) in
  (got_sigterm <> 0 -> r = 128 + SIGTERM)
  /\ (r = 124 <-> got_sigterm = 0 /\ Spec.expired o now = true).
Proof.
  unfold Spec.still_running, Spec.expired, check_child_timeout.
  cbn [child_status_ expiry_ idle_expiry_].
  intros Hrun.
  apply andb_true_iff in Hrun. destruct Hrun as [Herr Hst].
  apply negb_true_iff in Hst.
  assert (Herr' : negb (errno =? EAGAIN) && negb (errno =? ECHILD) = false).
  { rewrite <- negb_orb, Herr. reflexivity. }
  rewrite Herr', Hst.
  destruct (Z.eqb_spec got_sigterm 0) as [-> | Hg]; cbn [negb].
  - split; [intros C; contradiction C; reflexivity|].
    set (e := timerisset (expiry_ o)) in *.
    set (i := timerisset (idle_expiry_ o)) in *.
    set (ce := e && timercmp_gt now (expiry_ o)).
    set (ci := i && timercmp_gt now (idle_expiry_ o)).
    assert (Hsimp : (e || i) && (ce || ci) = ce || ci).
    { subst ce ci. destruct e, i; simpl; auto. }
    rewrite Hsimp.
    destruct (ce || ci); cbn [fst]; split.
    + intros _; auto.
    + reflexivity.
    + discriminate.
    + intros [_ C]; discriminate C.
  - cbn [fst]. split; [reflexivity|].
    unfold SIGTERM. split; [discriminate|].
    intros [C _]; contradiction.
Qed.

Lemma sigterm_beats_timeout_witness :
  let o := {| child_status_ := -1;
              expiry_ := {| tv_sec := 10; tv_usec := 0 |};
              idle_expiry_ := {| tv_sec := 0; tv_usec := 0 |} |} in
  let now := {| tv_sec := 11; tv_usec := 0 |} in
  let r := fst (check_child_timeout o 1 42 false [] EAGAIN now) in
  (1 <> 0 -> r = 128 + SIGTERM)
  /\ (r = 124 <-> 1 = 0 /\ Spec.expired o now = true).
Proof.
  intros o now.
  apply (sigterm_beats_timeout o 1 42 false [] EAGAIN now).
  reflexivity.
Defined.

End TerminationFacts.

(** ** Reading the policy file *)

Module ConfReadFacts.
Import Conf.

Lemma root_only_writable (st : stat) :
  Spec.root_only st -> writable_only_by_root st = true.
Proof.
  intros (Hu & Hg & Ho). unfold writable_only_by_root.
  rewrite Hu, Hg, Ho. rewrite orb_true_r. reflexivity.
Qed.

(** C7, as stated, does not hold: an empty file is root-only and has at
    most 8192 bytes, and the constructor dies on it. *)
Lemma accepts_up_to_8192_fails : ~ Spec.accepts_up_to_8192.
Proof.
  intros H.
  specialize (H {| open_ok := true; fstat_ok := true;
                   file_stat := {| st_uid := 0; st_gid := 0;
                                   st_mode := 420 |};
                   read_ok := true; file_bytes := [] |}).
  assert (Hr : Spec.readable
                 {| open_ok := true; fstat_ok := true;
                    file_stat := {| st_uid := 0; st_gid := 0;
                                    st_mode := 420 |};
                    read_ok := true; file_bytes := [] |})
    by (repeat split).
  assert (Ho : Spec.root_only {| st_uid := 0; st_gid := 0; st_mode := 420 |})
    by (repeat split).
  specialize (H Hr Ho). simpl in H.
  assert (Hle : 0 <= 8192) by lia.
  specialize (H Hle). discriminate H.
Qed.

(** C7, amended.  A policy file that can be opened and read, is owned by
    root and is not writable by group or other is read in full when it
    has between 1 and 8191 bytes, is refused as empty when it has none
    and is refused as too big when it has more than 8192 bytes. *)
Theorem conf_size_limits (f : etc_file) :
  Spec.readable f -> Spec.root_only (file_stat f) ->
  Z.of_nat (length (file_bytes f)) <> 8192 ->
  pajailconf_new f
  = if Z.of_nat (length (file_bytes f)) =? 0 then DieEmpty
    else if Z.of_nat (length (file_bytes f)) <? 8192 then Spec.read_in_full f
    else DieTooBig.
Proof.
  intros (Hopen & Hfstat & Hread) Hroot Hsize.
  unfold pajailconf_new.
  rewrite Hopen, Hfstat, Hread, (root_only_writable _ Hroot).
  cbn [negb]. unfold BUFSZ.
  set (n := Z.of_nat (length (file_bytes f))) in *.
  assert (Hn : 0 <= n) by (subst n; lia).
  destruct (Z.eqb_spec n 0) as [E0 | N0].
  - rewrite E0. reflexivity.
  - destruct (Z.ltb_spec n 8192) as [Hlt | Hge].
    + rewrite Z.min_l by lia.
      replace (n <? 0) with false by (symmetry; apply Z.ltb_ge; lia).
      replace (n =? 0) with false by (symmetry; apply Z.eqb_neq; lia).
      replace (n =? 8192) with false by (symmetry; apply Z.eqb_neq; lia).
      unfold Spec.read_in_full. subst n. rewrite Nat2Z.id.
      rewrite firstn_all. reflexivity.
    + rewrite Z.min_r by lia. reflexivity.
Qed.

Lemma conf_size_limits_witness :
  let f := {| open_ok := true; fstat_ok := true;
              file_stat := {| st_uid := 0; st_gid := 0; st_mode := 420 |};
              read_ok := true; file_bytes := lit "enablejail /jails" |} in
  pajailconf_new f
  = if Z.of_nat (length (file_bytes f)) =? 0 then DieEmpty
    else if Z.of_nat (length (file_bytes f)) <? 8192 then Spec.read_in_full f
    else DieTooBig.
Proof.
  intros f.
  apply (conf_size_limits f).
  - repeat split.
  - repeat split.
  - simpl. lia.
Defined.

(** A file of exactly 8192 bytes is refused with the message
    "Too big, max 8192 bytes". *)
Lemma conf_8192_refused (f : etc_file) :
  Spec.readable f -> Spec.root_only (file_stat f) ->
  Z.of_nat (length (file_bytes f)) = 8192 ->
  pajailconf_new f = DieTooBig.
Proof.
  intros (Hopen & Hfstat & Hread) Hroot Hsize.
  unfold pajailconf_new.
  rewrite Hopen, Hfstat, Hread, (root_only_writable _ Hroot), Hsize.
  reflexivity.
Qed.

End ConfReadFacts.

(** ** Shell quoting *)

Module QuoteFacts.
Import Path Shell QuoteInv.

Lemma substr_prefix (pre suf : str) (last : nat) :
  (last <= length pre)%nat ->
  substr (pre ++ suf) last (length pre - last) = skipn last pre.
Proof.
  intros Hle. unfold substr.
  rewrite skipn_app.
  replace (last - length pre)%nat with O by lia.
  rewrite skipn_O, firstn_app.
  rewrite length_skipn, Nat.sub_diag, firstn_O, app_nil_r.
  apply firstn_all2. rewrite length_skipn. lia.
Qed.

Lemma nth_middle_app (pre suf : str) (c : ascii) :
  nth (length pre) (pre ++ c :: suf) NUL = c.
Proof.
  rewrite app_nth2 by lia. rewrite Nat.sub_diag. reflexivity.
Qed.

Lemma escape_quotes_app (a b : str) :
  Spec.escape_quotes (a ++ b) = Spec.escape_quotes a ++ Spec.escape_quotes b.
Proof. unfold Spec.escape_quotes. apply flat_map_app. Qed.

Lemma needs_quote_snoc (pre : str) (c : ascii) :
  Spec.needs_quote (pre ++ [c]) = Spec.needs_quote pre || trigger pre c.
Proof.
  unfold Spec.needs_quote, trigger.
  rewrite existsb_app. simpl. rewrite orb_false_r.
  destruct pre as [|p pre]; simpl.
  - destruct (Ascii.eqb c "~"), (bare_char c); reflexivity.
  - destruct (Ascii.eqb p "~"), (negb (bare_char p)), (existsb _ pre),
      (negb (bare_char c)); reflexivity.
Qed.

Lemma quote_not_bare : bare_char "'" = false.
Proof. reflexivity. Qed.

(** An argument that needs no quoting has no single quote, so escaping
    leaves it as it is. *)
Lemma escape_quotes_bare (s : str) :
  existsb (fun c => negb (bare_char c)) s = false ->
  Spec.escape_quotes s = s.
Proof.
  induction s as [|c s IH]; simpl; [reflexivity|].
  intros H. apply orb_false_iff in H. destruct H as [Hc Hs].
  destruct (Ascii.eqb_spec c "'") as [-> | _].
  - rewrite quote_not_bare in Hc. discriminate.
  - simpl. rewrite IH by assumption. reflexivity.
Qed.

Lemma needs_quote_false_bare (s : str) :
  Spec.needs_quote s = false ->
  existsb (fun c => negb (bare_char c)) s = false.
Proof.
  unfold Spec.needs_quote. intros H.
  apply orb_false_iff in H. tauto.
Qed.

Lemma shell_quote_loop_inv (suf : str) :
  forall pre quoted last,
    loop_inv pre quoted last ->
    loop_inv (pre ++ suf)
             (fst (shell_quote_loop (length suf) (pre ++ suf) (length pre)
                                    quoted last))
             (snd (shell_quote_loop (length suf) (pre ++ suf) (length pre)
                                    quoted last)).
Proof.
  induction suf as [|c suf IH]; intros pre quoted last Hinv.
  - simpl. rewrite app_nil_r. exact Hinv.
  - cbn [length shell_quote_loop].
    rewrite nth_middle_app.
    replace (pre ++ c :: suf) with ((pre ++ [c]) ++ suf)
      by (rewrite <- app_assoc; reflexivity).
    replace (S (length pre)) with (length (pre ++ [c]))
      by (rewrite length_app; simpl; lia).
    destruct Hinv as (Hle & Hempty & Hfull).
    fold (trigger pre c).
    destruct (trigger pre c) eqn:Ht.
    + destruct (Ascii.eqb_spec c "'") as [-> | Hc].
      * apply IH. refine (conj _ (conj _ (fun _ => conj _ _))).
        -- lia.
        -- intros H. rewrite !length_app in H. simpl in H. lia.
        -- rewrite needs_quote_snoc, Ht. apply orb_true_r.
        -- rewrite skipn_all, app_nil_r.
           replace (length (pre ++ ["'"%char])) with (S (length pre))
             by (rewrite length_app; simpl; lia).
           replace ((pre ++ ["'"%char]) ++ suf) with (pre ++ "'"%char :: suf)
             by (rewrite <- app_assoc; reflexivity).
           rewrite substr_prefix by lia.
           rewrite escape_quotes_app.
           destruct (Nat.eqb_spec (length quoted) 0) as [E | N].
           ++ destruct (Hempty E) as [-> Hnq].
              rewrite skipn_O.
              rewrite (escape_quotes_bare pre)
                by (apply needs_quote_false_bare; exact Hnq).
              reflexivity.
           ++ destruct (Hfull N) as [_ Heq].
              rewrite app_assoc, Heq, <- app_assoc. reflexivity.
      * apply IH. refine (conj _ (conj _ (fun _ => conj _ _))).
        -- rewrite length_app; simpl; lia.
        -- intros H. destruct (Nat.eqb (length quoted) 0) eqn:E.
           ++ simpl in H. discriminate.
           ++ apply Nat.eqb_neq in E. contradiction.
        -- rewrite needs_quote_snoc, Ht. apply orb_true_r.
        -- rewrite skipn_app.
           replace (last - length pre)%nat with O by lia.
           rewrite skipn_O, escape_quotes_app.
           assert (Ec : Spec.escape_quotes [c] = [c]).
           { unfold Spec.escape_quotes. simpl.
             destruct (Ascii.eqb_spec c "'"); [contradiction|reflexivity]. }
           rewrite Ec.
           destruct (Nat.eqb_spec (length quoted) 0) as [E | N].
           ++ destruct (Hempty E) as [-> Hnq].
              rewrite skipn_O.
              rewrite (escape_quotes_bare pre)
                by (apply needs_quote_false_bare; exact Hnq).
              reflexivity.
           ++ destruct (Hfull N) as [_ Heq].
              rewrite app_assoc, Heq, <- app_assoc. reflexivity.
    + apply IH. refine (conj _ (conj (fun H => conj _ _) (fun H => conj _ _))).
      * rewrite length_app; simpl; lia.
      * apply Hempty; assumption.
      * rewrite needs_quote_snoc, Ht, orb_false_r. apply Hempty; assumption.
      * rewrite needs_quote_snoc, Ht, orb_false_r. apply Hfull; assumption.
      * rewrite skipn_app.
        replace (last - length pre)%nat with O by lia.
        rewrite skipn_O, escape_quotes_app.
        assert (Ec : Spec.escape_quotes [c] = [c]).
        { unfold Spec.escape_quotes. simpl.
          destruct (Ascii.eqb_spec c "'") as [-> | _]; [|reflexivity].
          unfold trigger in Ht. rewrite quote_not_bare in Ht.
          rewrite orb_true_r in Ht. discriminate. }
        rewrite Ec.
        destruct (Hfull H) as [_ Heq].
        rewrite app_assoc, Heq, <- app_assoc. reflexivity.
Qed.

(** [shell_quote] returns the argument unchanged when it consists only of
    [A-Za-z0-9_-.~/] and does not begin with a tilde, and otherwise wraps
    it in single quotes with every single quote written ['\'']. *)
Lemma shell_quote_quoted_form (s : str) :
  shell_quote s = Spec.quoted_form s.
Proof.
  unfold shell_quote, Spec.quoted_form.
  pose proof (shell_quote_loop_inv s [] [] 0%nat) as H.
  simpl in H.
  destruct (shell_quote_loop (length s) s 0 [] 0%nat) as [quoted last].
  simpl in H.
  destruct H as (Hle & Hempty & Hfull).
  { refine (conj _ (conj (fun _ => conj _ _) (fun C => _))); try reflexivity.
    contradiction C; reflexivity. }
  destruct (Nat.eqb_spec (length quoted) 0) as [E | N].
  - destruct (Hempty E) as [_ ->]. reflexivity.
  - destruct (Hfull N) as [-> Heq].
    unfold substr_from. rewrite app_assoc, Heq, <- app_assoc. reflexivity.
Qed.

(** Bare bytes are ordinary bytes to the shell. *)
Lemma bare_plain (c : ascii) :
  bare_char c = true ->
  is_blank c = false /\ Ascii.eqb c "'" = false
  /\ Ascii.eqb c DQUOTE = false /\ Ascii.eqb c "\" = false
  /\ is_special c = false.
Proof.
  destruct c as [[] [] [] [] [] [] [] []]; vm_compute; intros H;
    try discriminate H; repeat split.
Qed.

Lemma sh_scan_bare (rest : str) :
  forall w,
    forallb bare_char rest = true ->
    sh_scan Unquoted (Some w) rest = Some [w ++ rest].
Proof.
  induction rest as [|c rest IH]; intros w Hall.
  - simpl. rewrite app_nil_r. reflexivity.
  - simpl in Hall. apply andb_true_iff in Hall. destruct Hall as [Hc Hrest].
    destruct (bare_plain c Hc) as (Hb & Hq & Hd & Hs & Hp).
    cbn [sh_scan]. rewrite Hb, Hq, Hd, Hs, Hp.
    rewrite IH by assumption.
    rewrite <- app_assoc. reflexivity.
Qed.

(** An argument left bare is read back as itself, provided it has a
    byte at all. *)
Lemma sh_words_bare (c : ascii) (rest : str) :
  Spec.needs_quote (c :: rest) = false ->
  sh_words (c :: rest) = Some [c :: rest].
Proof.
  unfold Spec.needs_quote. intros H.
  apply orb_false_iff in H. destruct H as [Htilde Hall].
  simpl in Htilde, Hall.
  apply orb_false_iff in Hall. destruct Hall as [Hc Hrest].
  apply negb_false_iff in Hc.
  destruct (bare_plain c Hc) as (Hb & Hq & Hd & Hs & Hp).
  unfold sh_words. cbn [sh_scan]. rewrite Hb, Hq, Hd, Hs, Hp, Htilde.
  apply (sh_scan_bare rest [c]).
  clear -Hrest. induction rest as [|d rest IH]; [reflexivity|].
  simpl in *. apply orb_false_iff in Hrest. destruct Hrest as [Hd Hr].
  apply negb_false_iff in Hd. rewrite Hd, IH by assumption. reflexivity.
Qed.

(** Inside single quotes the escaped text is read back byte for byte. *)
Lemma sh_scan_single (s : str) :
  forall w tail,
    sh_scan InSingle (Some w) (Spec.escape_quotes s ++ "'"%char :: tail)
    = sh_scan Unquoted (Some (w ++ s)) tail.
Proof.
  induction s as [|c s IH]; intros w tail.
  - simpl. rewrite app_nil_r. reflexivity.
  - destruct (Ascii.eqb_spec c "'") as [-> | Hc].
    + change (Spec.escape_quotes ("'"%char :: s))
        with (lit "'\''" ++ Spec.escape_quotes s).
      cbn -[Spec.escape_quotes].
      rewrite IH. rewrite <- app_assoc. reflexivity.
    + assert (E : Spec.escape_quotes (c :: s) = c :: Spec.escape_quotes s).
      { unfold Spec.escape_quotes. simpl.
        destruct (Ascii.eqb_spec c "'"); [contradiction|reflexivity]. }
      rewrite E. cbn [app sh_scan].
      destruct (Ascii.eqb_spec c "'"); [contradiction|].
      rewrite IH, <- app_assoc. reflexivity.
Qed.

(** The round trip for every argument that has at least one byte. *)
Theorem shell_quote_round_trip (s : str) :
  s <> [] -> sh_words (shell_quote s) = Some [s].
Proof.
  intros Hne. rewrite shell_quote_quoted_form. unfold Spec.quoted_form.
  destruct (Spec.needs_quote s) eqn:Hq.
  - unfold sh_words. change (lit "'") with ["'"%char].
    cbn [app sh_scan]. cbn.
    rewrite (sh_scan_single s [] []). reflexivity.
  - destruct s as [|c rest]; [contradiction Hne; reflexivity|].
    apply sh_words_bare. exact Hq.
Qed.

(** C6.  The round trip fails for the empty argument: [shell_quote]
    returns it unchanged, as the empty text, which the shell reads as no
    word at all. *)
Theorem shell_quote_empty_lost :
  shell_quote [] = []
  /\ sh_words (shell_quote []) = Some []
  /\ ~ Spec.round_trip.
Proof.
  repeat split.
  intros H. specialize (H []). discriminate H.
Qed.

End QuoteFacts.

(** ** Policy evaluation *)

Module PolicyFacts.
Import Conf.

Lemma span_le (p : ascii -> bool) (l : str) : (span p l <= length l)%nat.
Proof.
  induction l as [|c l IH]; simpl; [lia|].
  destruct (p c); simpl; lia.
Qed.

Lemma span_pos (p : ascii -> bool) (l : str) (d : ascii) :
  l <> [] -> p (nth 0 l d) = true -> (1 <= span p l)%nat.
Proof.
  destruct l as [|c l]; [intros C; contradiction C; reflexivity|].
  simpl. intros _ ->. lia.
Qed.

Lemma span_stop (p : ascii -> bool) (l : str) (d : ascii) :
  (span p l < length l)%nat -> p (nth (span p l) l d) = false.
Proof.
  induction l as [|c l IH]; simpl; [lia|].
  destruct (p c) eqn:E; simpl; [intros H; apply IH; lia | intros _; exact E].
Qed.

Lemma nth_skipn (l : str) (pos i : nat) (d : ascii) :
  nth i (skipn pos l) d = nth (pos + i) l d.
Proof.
  revert l; induction pos as [|pos IH]; intros l; [reflexivity|].
  destruct l as [|c l]; simpl; [destruct i; reflexivity|apply IH].
Qed.

Lemma nth_firstn_lt (l : str) (n i : nat) (d : ascii) :
  (i < n)%nat -> nth i (firstn n l) d = nth i l d.
Proof.
  revert l i; induction n as [|n IH]; intros l i Hi; [lia|].
  destruct l as [|c l]; [reflexivity|].
  destruct i as [|i]; simpl; [reflexivity|apply IH; lia].
Qed.

Section Progress.

Variable c : pajailconf.
Hypothesis Hwf : Spec.conf_wf c.

Let buf := firstn (len_ c) (buf_ c).

Lemma length_buf : length buf = len_ c.
Proof. subst buf. apply firstn_length_le. exact Hwf. Qed.

(** [take_word] never moves backwards and never passes the end. *)
Lemma take_word_bounds (pos : nat) :
  (pos <= snd (take_word c pos))%nat
  /\ ((pos <= len_ c)%nat -> (snd (take_word c pos) <= len_ c)%nat).
Proof.
  unfold take_word. cbn [snd]. fold buf.
  set (p1 := fun ch => negb (Ascii.eqb ch NL) && isspace ch).
  set (p2 := fun ch => negb (isspace ch)).
  pose proof (span_le p1 (skipn pos buf)) as H1.
  pose proof (span_le p2 (skipn (pos + span p1 (skipn pos buf)) buf)) as H2.
  rewrite !length_skipn, length_buf in *.
  split; lia.
Qed.

(** On a byte that is not a newline [take_word] moves forward. *)
Lemma take_word_progress (pos : nat) :
  (pos < len_ c)%nat ->
  Ascii.eqb (nth pos (buf_ c) NUL) NL = false ->
  (pos < snd (take_word c pos))%nat.
Proof.
  intros Hlt Hnl. unfold take_word. cbn [snd]. fold buf.
  set (p1 := fun ch => negb (Ascii.eqb ch NL) && isspace ch).
  set (p2 := fun ch => negb (isspace ch)).
  assert (Hne : skipn pos buf <> []).
  { intros E. apply (f_equal (@length _)) in E.
    rewrite length_skipn, length_buf in E. simpl in E. lia. }
  assert (Hhd : nth 0 (skipn pos buf) NUL = nth pos (buf_ c) NUL).
  { rewrite nth_skipn, Nat.add_0_r. subst buf.
    apply nth_firstn_lt. exact Hlt. }
  destruct (isspace (nth pos (buf_ c) NUL)) eqn:Hsp.
  - assert (1 <= span p1 (skipn pos buf))%nat.
    { apply (span_pos p1 _ NUL Hne). subst p1. cbv beta.
      rewrite Hhd, Hnl, Hsp. reflexivity. }
    lia.
  - assert (E1 : span p1 (skipn pos buf) = 0%nat).
    { destruct (skipn pos buf) as [|x l]; [reflexivity|].
      simpl in Hhd. subst x. simpl. subst p1. cbv beta.
      rewrite Hsp, andb_false_r. reflexivity. }
    rewrite E1, Nat.add_0_r.
    assert (1 <= span p2 (skipn pos buf))%nat.
    { apply (span_pos p2 _ NUL Hne). subst p2. cbv beta.
      rewrite Hhd, Hsp. reflexivity. }
    lia.
Qed.

(** [skip_words] ends, at the end of the buffer or on a newline. *)
Lemma skip_words_ok (fuel : nat) :
  forall pos,
    (len_ c - pos <= fuel)%nat ->
    exists p,
      skip_words fuel c pos = Ok p
      /\ (pos <= p)%nat
      /\ ((pos <= len_ c)%nat -> (p <= len_ c)%nat)
      /\ ((p < len_ c)%nat -> Ascii.eqb (nth p (buf_ c) NUL) NL = true).
Proof.
  induction fuel as [|fuel IH]; intros pos Hfuel.
  - simpl. replace (Nat.ltb pos (len_ c)) with false
      by (symmetry; apply Nat.ltb_ge; lia).
    simpl. exists pos. repeat split; try lia.
  - simpl.
    destruct (Nat.ltb_spec pos (len_ c)) as [Hlt | Hge]; simpl.
    + destruct (Ascii.eqb (nth pos (buf_ c) NUL) NL) eqn:Hnl; simpl.
      * exists pos. repeat split; auto; lia.
      * pose proof (take_word_progress pos Hlt Hnl) as Hp.
        pose proof (take_word_bounds pos) as [_ Hb].
        destruct (IH (snd (take_word c pos))) as (p & Hp1 & Hp2 & Hp3 & Hp4);
          [lia|].
        exists p. repeat split; auto; try lia.
    + exists pos. repeat split; auto; lia.
Qed.

Lemma skip_newlines_bounds (pos : nat) :
  (pos <= skip_newlines c pos)%nat
  /\ ((pos <= len_ c)%nat -> (skip_newlines c pos <= len_ c)%nat)
  /\ ((pos < len_ c)%nat -> Ascii.eqb (nth pos (buf_ c) NUL) NL = true ->
      (pos < skip_newlines c pos)%nat).
Proof.
  unfold skip_newlines. fold buf.
  set (p := fun ch => Ascii.eqb ch NL).
  pose proof (span_le p (skipn pos buf)) as H1.
  rewrite length_skipn, length_buf in H1.
  repeat split; try lia.
  intros Hlt Hnl.
  assert (1 <= span p (skipn pos buf))%nat; [|lia].
  apply (span_pos p _ NUL).
  - intros E. apply (f_equal (@length _)) in E.
    rewrite length_skipn, length_buf in E. simpl in E. lia.
  - rewrite nth_skipn, Nat.add_0_r. subst buf p. cbv beta.
    rewrite nth_firstn_lt by exact Hlt. exact Hnl.
Qed.

(** One turn of the loop of [allows_type] reads a line and moves
    forward. *)
Lemma next_line_progress (pos : nat) :
  (pos < len_ c)%nat ->
  exists pos3,
    skip_words (len_ c) c (snd (take_word c (snd (take_word c pos))))
    = Ok pos3
    /\ (pos < skip_newlines c pos3)%nat.
Proof.
  intros Hlt.
  pose proof (take_word_bounds pos) as [Ha1 Ha2].
  pose proof (take_word_bounds (snd (take_word c pos))) as [Hb1 Hb2].
  destruct (skip_words_ok (len_ c) (snd (take_word c (snd (take_word c pos)))))
    as (p & Hp1 & Hp2 & Hp3 & Hp4); [lia|].
  exists p. split; [exact Hp1|].
  pose proof (skip_newlines_bounds p) as (Hn1 & Hn2 & Hn3).
  destruct (Nat.lt_ge_cases p (len_ c)) as [Hpl | Hpg].
  - specialize (Hn3 Hpl (Hp4 Hpl)). lia.
  - lia.
Qed.

(** The policy file splits into lines. *)
Lemma conf_lines_ok (fuel : nat) :
  forall pos,
    (len_ c - pos <= fuel)%nat ->
    exists lines, Spec.conf_lines fuel c pos = Ok lines.
Proof.
  induction fuel as [|fuel IH]; intros pos Hfuel.
  - simpl. replace (Nat.ltb pos (len_ c)) with false
      by (symmetry; apply Nat.ltb_ge; lia).
    simpl. eauto.
  - cbn [Spec.conf_lines].
    destruct (Nat.ltb_spec pos (len_ c)) as [Hlt | Hge]; cbn [negb];
      [|eauto].
    destruct (next_line_progress pos Hlt) as (pos3 & Hsk & Hprog).
    destruct (take_word c pos) as [action pos1] eqn:E1.
    cbn [snd] in Hsk.
    destruct (take_word c pos1) as [arg pos2] eqn:E2.
    cbn [snd] in Hsk.
    rewrite Hsk. cbn [bind].
    destruct (IH (skip_newlines c pos3)) as (rest & Hrest); [lia|].
    rewrite Hrest. cbn [bind]. eauto.
Qed.

End Progress.

Lemma find_from_bounds (ch : ascii) (s : str) (pos k : nat) :
  find_from ch s pos = Some k -> (pos <= k < length s)%nat.
Proof.
  unfold find_from.
  destruct (Nat.ltb_spec (span (fun x => negb (Ascii.eqb x ch)) (skipn pos s))
                         (length (skipn pos s))) as [Hlt | Hge];
    [|discriminate].
  intros H; inversion H; subst; clear H.
  rewrite length_skipn in Hlt. lia.
Qed.

(** The loop of [check_dirmatch] ends within [pattern.length()] turns. *)
Lemma superdir_loop_ok (pattern s : str) (fuel : nat) :
  forall pp sp,
    (length pattern - pp <= fuel)%nat ->
    exists r, superdir_loop fuel pattern s pp sp = Ok r.
Proof.
  induction fuel as [|fuel IH]; intros pp sp Hfuel.
  - simpl. destruct (find_from "/" pattern pp) as [k|] eqn:E; [|eauto].
    apply find_from_bounds in E. lia.
  - simpl. destruct (find_from "/" pattern pp) as [k|] eqn:E; [|eauto].
    apply find_from_bounds in E.
    destruct (find_from "/" s sp) as [j|]; [|eauto].
    apply IH. lia.
Qed.

Section Evaluation.

Variable fnmatch : str -> str -> bool.

Lemma check_dirmatch_ok (pattern s : str) (superdir : bool) :
  exists m stored, check_dirmatch fnmatch pattern s superdir = Ok (m, stored).
Proof.
  unfold check_dirmatch. destruct superdir; [|eauto].
  destruct (superdir_loop_ok pattern s (length pattern) 0 0) as (r & Hr);
    [lia|].
  rewrite Hr. cbn [bind]. destruct r; eauto.
Qed.

(** [set_treedir] returns, and leaves the allow bits and the recorded
    pattern alone. *)
Lemma set_treedir_ok (st : eval_state) (pattern s : str) (e : bool) :
  exists st',
    set_treedir fnmatch st pattern s e = Ok st'
    /\ allowed_globally st' = allowed_globally st
    /\ allowed_locally st' = allowed_locally st
    /\ allowance_pattern_ st' = allowance_pattern_ st.
Proof.
  unfold set_treedir.
  match goal with
  | |- context [check_dirmatch fnmatch ?p s true] =>
      destruct (check_dirmatch_ok p s true) as (m & stored & H); rewrite H
  end.
  cbn [bind].
  match goal with
  | |- context [if ?b then _ else _] => destruct b
  end; eexists; repeat split.
Qed.

Variables (type dir : str) (superdir : bool).

(** One line: the line sets the global bit when it is a global rule, and
    the local bit when it is a matching pattern rule or a global
    disable. *)
Lemma apply_line_bits (line : str * str) (st : eval_state) :
  exists st',
    apply_line fnmatch type dir superdir (fst line) (snd line) st = Ok st'
    /\ allowed_globally st'
       = (if Spec.is_global type line then Spec.bit_of type line
          else allowed_globally st)
    /\ allowed_locally st'
       = (if Spec.matches_dir fnmatch type dir superdir line
             || (Spec.is_global type line && (Spec.bit_of type line =? 0))
          then Spec.bit_of type line
          else allowed_locally st).
Proof.
  destruct line as [action arg]. cbn [fst snd].
  assert (Hdecide : forall a,
    (a = 0 \/ a = 1) ->
    Spec.rule_bit type (action, arg) = Some a ->
    exists st',
      (if Nat.eqb (length arg) 0
       then Ok {| allowed_globally := a;
                  allowed_locally := if a =? 0 then a else allowed_locally st;
                  allowance_pattern_ := [];
                  treedir_ := treedir_ st |}
       else if Ascii.eqb (nth 0 arg NUL) "/"
       then let* (m, _) := check_dirmatch fnmatch (Path.path_endslash arg) dir
                             (superdir || (a <=? 0)) in
            if m
            then if 0 <? a
                 then set_treedir fnmatch
                        {| allowed_globally := allowed_globally st;
                           allowed_locally := a;
                           allowance_pattern_ := Path.path_endslash arg;
                           treedir_ := treedir_ st |}
                        (Path.path_endslash arg) dir false
                 else Ok {| allowed_globally := allowed_globally st;
                            allowed_locally := a;
                            allowance_pattern_ := Path.path_endslash arg;
                            treedir_ := treedir_ st |}
            else Ok st
       else Ok st) = Ok st'
      /\ allowed_globally st'
         = (if Spec.is_global type (action, arg)
            then Spec.bit_of type (action, arg) else allowed_globally st)
      /\ allowed_locally st'
         = (if Spec.matches_dir fnmatch type dir superdir (action, arg)
               || (Spec.is_global type (action, arg)
                   && (Spec.bit_of type (action, arg) =? 0))
            then Spec.bit_of type (action, arg)
            else allowed_locally st)).
  { intros a Ha Hrule.
    unfold Spec.is_global, Spec.matches_dir, Spec.bit_of.
    rewrite Hrule. cbn [snd].
    destruct (Nat.eqb (length arg) 0) eqn:Elen.
    - cbn [negb andb orb]. eexists. split; [reflexivity|].
      cbn [allowed_globally allowed_locally].
      split; [reflexivity|].
      destruct Ha as [-> | ->]; reflexivity.
    - cbn [negb andb orb]. rewrite orb_false_r.
      destruct (Ascii.eqb (nth 0 arg NUL) "/"); cbn [andb].
      + destruct (check_dirmatch_ok (Path.path_endslash arg) dir
                                    (superdir || (a <=? 0)))
          as (m & stored & Hm).
        rewrite Hm. cbn [bind].
        destruct m.
        * destruct (0 <? a).
          -- match goal with
             | |- context [set_treedir fnmatch ?s ?p ?d ?e] =>
                 destruct (set_treedir_ok s p d e) as (st' & H1 & H2 & H3 & H4)
             end.
             exists st'. split; [exact H1|]. rewrite H2, H3. split; reflexivity.
          -- eexists. split; [reflexivity|]. split; reflexivity.
        * eexists. split; [reflexivity|]. split; reflexivity.
      + eexists. split; [reflexivity|]. split; reflexivity. }
  unfold apply_line.
  destruct (check_action action (lit "disable") type
            || check_action action (lit "no") type) eqn:Edis.
  { apply (Hdecide 0); [auto|]. unfold Spec.rule_bit. cbn [fst].
    rewrite Edis. reflexivity. }
  destruct (check_action action (lit "enable") type
            || check_action action (lit "allow") type) eqn:Een.
  { apply (Hdecide 1); [auto|]. unfold Spec.rule_bit. cbn [fst].
    rewrite Edis, Een. reflexivity. }
  assert (Hnone : Spec.rule_bit type (action, arg) = None).
  { unfold Spec.rule_bit. cbn [fst]. rewrite Edis, Een. reflexivity. }
  unfold Spec.is_global, Spec.matches_dir, Spec.bit_of. rewrite Hnone.
  cbn [orb andb].
  destruct (check_action action (lit "treedir") []).
  - destruct (negb (Nat.eqb (length arg) 0) && Ascii.eqb (nth 0 arg NUL) "/").
    + destruct (set_treedir_ok st (Path.path_endslash arg) dir true)
        as (st' & H1 & H2 & H3 & H4).
      exists st'. split; [exact H1|]. split; assumption.
    + eexists. split; [reflexivity|]. split; reflexivity.
  - eexists. split; [reflexivity|]. split; reflexivity.
Qed.

Lemma find_snoc (p : str * str -> bool) (l : list (str * str))
    (x : str * str) :
  Spec.last_such p (l ++ [x])
  = if p x then Some x else Spec.last_such p l.
Proof.
  unfold Spec.last_such. rewrite rev_app_distr. reflexivity.
Qed.

Lemma apply_lines_app (l1 l2 : list (str * str)) (st : eval_state) :
  Spec.apply_lines fnmatch type dir superdir (l1 ++ l2) st
  = let* st' := Spec.apply_lines fnmatch type dir superdir l1 st in
    Spec.apply_lines fnmatch type dir superdir l2 st'.
Proof.
  revert st; induction l1 as [|x l1 IH]; intros st; [reflexivity|].
  cbn [app Spec.apply_lines].
  destruct (apply_line fnmatch type dir superdir (fst x) (snd x) st);
    cbn [bind]; auto.
Qed.

(** A sequence of lines: each bit is decided by the last line that sets
    it. *)
Lemma apply_lines_bits (lines : list (str * str)) (st : eval_state) :
  exists st',
    Spec.apply_lines fnmatch type dir superdir lines st = Ok st'
    /\ allowed_globally st'
       = match Spec.last_such (Spec.is_global type) lines with
         | Some l => Spec.bit_of type l
         | None => allowed_globally st
         end
    /\ allowed_locally st'
       = match Spec.last_such
                 (fun l => Spec.matches_dir fnmatch type dir superdir l
                           || (Spec.is_global type l
                               && (Spec.bit_of type l =? 0))) lines with
         | Some l => Spec.bit_of type l
         | None => allowed_locally st
         end.
Proof.
  induction lines as [|x lines IH] using rev_ind.
  - exists st. repeat split.
  - destruct IH as (st1 & H1 & Hg & Hl).
    destruct (apply_line_bits x st1) as (st2 & H2 & Hg2 & Hl2).
    exists st2. rewrite apply_lines_app, H1. cbn [bind Spec.apply_lines].
    rewrite H2. cbn [bind]. split; [reflexivity|].
    rewrite !find_snoc, Hg2, Hl2, Hg, Hl.
    split.
    + destruct (Spec.is_global type x); reflexivity.
    + destruct (Spec.matches_dir fnmatch type dir superdir x
                || Spec.is_global type x && (Spec.bit_of type x =? 0));
        reflexivity.
Qed.

(** The loop of [allows_type] is the body run over the lines of the
    file. *)
Lemma allows_loop_lines (c : pajailconf) (fuel : nat) :
  forall pos st lines,
    Spec.conf_lines fuel c pos = Ok lines ->
    allows_loop fnmatch fuel c type dir superdir pos st
    = Spec.apply_lines fnmatch type dir superdir lines st.
Proof.
  induction fuel as [|fuel IH]; intros pos st lines.
  - cbn [Spec.conf_lines allows_loop].
    destruct (negb (Nat.ltb pos (len_ c))); [|discriminate].
    intros H; inversion H; reflexivity.
  - cbn [Spec.conf_lines allows_loop].
    destruct (negb (Nat.ltb pos (len_ c))).
    { intros H; inversion H; reflexivity. }
    destruct (take_word c pos) as [action pos1].
    destruct (take_word c pos1) as [arg pos2].
    destruct (skip_words (len_ c) c pos2) as [pos3| | |]; cbn [bind];
      try discriminate.
    destruct (Spec.conf_lines fuel c (skip_newlines c pos3)) as [rest| | |] eqn:Er;
      cbn [bind]; try discriminate.
    intros H; inversion H; subst; clear H.
    cbn [Spec.apply_lines fst snd].
    destruct (apply_line fnmatch type dir superdir (word c action)
                         (word c arg) st); cbn [bind]; auto.
Qed.

End Evaluation.

(** C1, as stated, does not hold.  In the policy
    [disablejail /jails/run1], [enablejail /jails/*] both patterns match
    [/jails/run1]; the first is the more specific and asks for 0, but
    the local bit is 1, from the rule that comes last. *)
Lemma most_specific_decides_fails : ~ Spec.most_specific_decides.
Proof.
  intros H.
  set (c := pajailconf_of (lit "disablejail /jails/run1" ++ [NL]
                             ++ lit "enablejail /jails/*" ++ [NL])).
  assert (exists st lines,
             allows_type fnmatch_glob c (lit "jail") (lit "/jails/run1") false
             = Ok (true, st)
             /\ allowed_locally st = 1
             /\ Spec.rules_of c = Ok lines
             /\ Spec.local_bit_specific fnmatch_glob (lit "jail")
                  (Path.path_endslash (lit "/jails/run1")) false lines = 0)
    as (st & lines & Ha & Hl & Hr & Hs).
  { do 2 eexists. repeat split; vm_compute; reflexivity. }
  specialize (H fnmatch_glob c (lit "jail") (lit "/jails/run1") false
                true st lines Ha Hr).
  rewrite Hl, Hs in H. discriminate H.
Qed.

(** C1, amended.  For every policy and every directory the policy splits
    into lines, [allows_type] returns, the global allow bit is that of
    the last global rule, the local allow bit is that of the textually
    last rule that is either a pattern rule matching the directory or a
    global disable, and the answer is "allowed" exactly when the global
    bit is not 0 and the local bit is 1. *)
Theorem last_match_wins (fnmatch : str -> str -> bool) (c : pajailconf)
    (type dir : str) (superdir : bool) :
  Spec.conf_wf c ->
  exists lines st,
    Spec.rules_of c = Ok lines
    /\ allows_type fnmatch c type dir superdir
       = Ok (Spec.allowed (allowed_globally st) (allowed_locally st), st)
    /\ allowed_globally st = Spec.global_bit type lines
    /\ allowed_locally st
       = Spec.local_bit_last fnmatch type (Path.path_endslash dir) superdir
                             lines.
Proof.
  intros Hwf.
  destruct (conf_lines_ok c Hwf (len_ c) 0) as (lines & Hlines); [lia|].
  set (st0 := {| allowed_globally := -1; allowed_locally := -1;
                 allowance_pattern_ := []; treedir_ := [] |}).
  destruct (apply_lines_bits fnmatch type (Path.path_endslash dir) superdir
                             lines st0) as (st & Hst & Hg & Hl).
  exists lines, st. split; [exact Hlines|].
  unfold allows_type. fold st0.
  rewrite (allows_loop_lines fnmatch type (Path.path_endslash dir) superdir
                             c (len_ c) 0 st0 lines Hlines), Hst.
  cbn [bind]. repeat split; assumption.
Qed.

Lemma last_match_wins_witness :
  let c := pajailconf_of (lit "disablejail /jails/run1" ++ [NL]
                            ++ lit "enablejail /jails/*" ++ [NL]) in
  exists lines st,
    Spec.rules_of c = Ok lines
    /\ allows_type fnmatch_glob c (lit "jail") (lit "/jails/run1") false
       = Ok (Spec.allowed (allowed_globally st) (allowed_locally st), st)
    /\ allowed_globally st = Spec.global_bit (lit "jail") lines
    /\ allowed_locally st
       = Spec.local_bit_last fnmatch_glob (lit "jail")
           (Path.path_endslash (lit "/jails/run1")) false lines.
Proof.
  intros c.
  apply (last_match_wins fnmatch_glob c (lit "jail") (lit "/jails/run1") false).
  unfold Spec.conf_wf. simpl. lia.
Defined.

End PolicyFacts.

(** ** [check_filename] *)

Module FilenameFacts.
Import Filename FilenameInv.

Lemma deref_no_nul (s : str) :
  no_nul s -> Ascii.eqb (deref s) NUL = match s with [] => true | _ => false end.
Proof.
  destruct s as [|c s]; [reflexivity|].
  intros H. inversion H; subst. simpl.
  apply Ascii.eqb_neq. assumption.
Qed.

(** Reading the array at, after and before the current position. *)
Lemma read_app (a b : str) : read (a ++ b) (length a) = Ok (deref b).
Proof.
  unfold read.
  replace (Nat.ltb (length (a ++ b)) (length a)) with false
    by (symmetry; apply Nat.ltb_ge; rewrite length_app; lia).
  rewrite app_nth2 by lia. rewrite Nat.sub_diag.
  destruct b; reflexivity.
Qed.

Lemma read_next (a : str) (c : ascii) (b : str) :
  read (a ++ c :: b) (S (length a)) = Ok (deref b).
Proof.
  replace (a ++ c :: b) with ((a ++ [c]) ++ b)
    by (rewrite <- app_assoc; reflexivity).
  replace (S (length a)) with (length (a ++ [c]))
    by (rewrite length_app; simpl; lia).
  apply read_app.
Qed.

Lemma read_next2 (a : str) (c d : ascii) (b : str) :
  read (a ++ c :: d :: b) (S (S (length a))) = Ok (deref b).
Proof.
  replace (a ++ c :: d :: b) with ((a ++ [c]) ++ d :: b)
    by (rewrite <- app_assoc; reflexivity).
  replace (S (length a)) with (length (a ++ [c]))
    by (rewrite length_app; simpl; lia).
  apply read_next.
Qed.

Lemma read_prev (a b : str) :
  a <> [] -> read (a ++ b) (length a - 1) = Ok (last a NUL).
Proof.
  intros Ha. destruct (exists_last Ha) as (a' & x & ->).
  rewrite last_last, length_app. simpl.
  replace (length a' + 1 - 1)%nat with (length a') by lia.
  rewrite <- app_assoc. rewrite read_app. reflexivity.
Qed.

Lemma read_past (name : str) : read name (S (length name)) = Undefined.
Proof.
  unfold read.
  replace (Nat.ltb (length name) (S (length name))) with true
    by (symmetry; apply Nat.ltb_lt; lia).
  reflexivity.
Qed.

Lemma length_zero_iff (a : str) : Nat.eqb (length a) 0 = true <-> a = [].
Proof.
  destruct a; simpl; split; intros H; try reflexivity; discriminate.
Qed.

(** The two tests of the loop, on the bytes around the position. *)
Lemma dot_component_spec (pre : str) (c : ascii) (rest : str) :
  dot_component (pre ++ c :: rest) (length pre) c
  = Ok (Ascii.eqb c "."
        && (Ascii.eqb (deref rest) "/" || Ascii.eqb (deref rest) NUL)
        && negb (Nat.eqb (length pre) 0)
        && Ascii.eqb (last pre NUL) "/").
Proof.
  unfold dot_component.
  destruct (Ascii.eqb c "."); cbn [negb andb]; [|reflexivity].
  rewrite read_next. cbn [bind].
  destruct (Ascii.eqb (deref rest) "/" || Ascii.eqb (deref rest) NUL);
    cbn [negb andb]; [|reflexivity].
  destruct (Nat.eqb (length pre) 0) eqn:E; cbn [negb andb]; [reflexivity|].
  rewrite read_prev.
  - reflexivity.
  - intros ->. discriminate E.
Qed.

Lemma dotdot_component_spec (pre : str) (c : ascii) (rest : str) :
  dotdot_component (pre ++ c :: rest) (length pre) c
  = Ok (Ascii.eqb c "."
        && Ascii.eqb (deref rest) "."
        && (Ascii.eqb (deref (tl rest)) "/" || Ascii.eqb (deref (tl rest)) NUL)
        && (Nat.eqb (length pre) 0 || Ascii.eqb (last pre NUL) "/")).
Proof.
  unfold dotdot_component.
  destruct (Ascii.eqb c "."); cbn [negb andb]; [|reflexivity].
  rewrite read_next. cbn [bind].
  destruct rest as [|d r]; [reflexivity|]. cbn [deref tl].
  destruct (Ascii.eqb d "."); cbn [negb andb]; [|reflexivity].
  rewrite read_next2. cbn [bind].
  destruct (Ascii.eqb (deref r) "/" || Ascii.eqb (deref r) NUL);
    cbn [negb andb]; [|reflexivity].
  destruct (Nat.eqb (length pre) 0) eqn:E; cbn [orb]; [reflexivity|].
  rewrite read_prev.
  - reflexivity.
  - intros ->. discriminate E.
Qed.

(** [skip_slashes] stops on the last slash of a run. *)
Lemma skip_slashes_run (k : nat) :
  forall pre rest fuel,
    Conf.span is_slash rest = k -> (k <= fuel)%nat ->
    skip_slashes fuel (pre ++ "/"%char :: rest) (length pre)
    = Ok (length pre + k)%nat.
Proof.
  induction k as [|k IH]; intros pre rest fuel Hk Hfuel.
  - assert (Hd : Ascii.eqb (deref rest) "/" = false).
    { destruct rest as [|d r]; [reflexivity|]. simpl in Hk. simpl.
      unfold is_slash in Hk. destruct (Ascii.eqb d "/"); [discriminate|reflexivity]. }
    destruct fuel; cbn [skip_slashes]; rewrite read_app; cbn [bind deref negb];
      rewrite Ascii.eqb_refl; cbn [negb]; rewrite read_next; cbn [bind];
      rewrite Hd; cbn [negb]; rewrite Nat.add_0_r; reflexivity.
  - destruct rest as [|d r]; [discriminate Hk|].
    simpl in Hk. unfold is_slash in Hk at 1.
    destruct (Ascii.eqb_spec d "/") as [-> | Hd]; [|discriminate].
    injection Hk as Hk.
    destruct fuel as [|fuel]; [lia|].
    cbn [skip_slashes]. rewrite read_app. cbn [bind deref negb].
    rewrite Ascii.eqb_refl. cbn [negb]. rewrite read_next. cbn [bind deref].
    rewrite Ascii.eqb_refl. cbn [negb].
    replace (pre ++ "/"%char :: "/"%char :: r)
      with ((pre ++ ["/"%char]) ++ "/"%char :: r)
      by (rewrite <- app_assoc; reflexivity).
    replace (S (length pre)) with (length (pre ++ ["/"%char]))
      by (rewrite length_app; simpl; lia).
    rewrite (IH _ r fuel Hk) by lia.
    rewrite length_app. simpl. f_equal. lia.
Qed.

Lemma skip_slashes_none (pre suf : str) (fuel : nat) :
  Ascii.eqb (deref suf) "/" = false ->
  skip_slashes fuel (pre ++ suf) (length pre) = Ok (length pre).
Proof.
  intros H. destruct fuel; cbn [skip_slashes]; rewrite read_app;
    cbn [bind]; rewrite H; reflexivity.
Qed.

(** After a slash the scanner skips the slashes that follow. *)
Lemma scan_skip_run (rest out : str) :
  Spec.scan Spec.AfterSlash rest out
  = Spec.scan Spec.AfterSlash (skipn (Conf.span is_slash rest) rest) out.
Proof.
  induction rest as [|d r IH]; [reflexivity|].
  cbn [Conf.span]. unfold is_slash at 1.
  destruct (Ascii.eqb d "/") eqn:E.
  - cbn [skipn Spec.scan]. rewrite E. exact IH.
  - reflexivity.
Qed.

Lemma span_stop_deref (r : str) :
  Ascii.eqb (deref (skipn (Conf.span is_slash r) r)) "/" = false.
Proof.
  induction r as [|d r IH]; [reflexivity|].
  cbn [Conf.span]. unfold is_slash at 1.
  destruct (Ascii.eqb d "/") eqn:E; [exact IH|].
  simpl. exact E.
Qed.

Lemma span_run_repeat (r : str) :
  firstn (Conf.span is_slash r) r = repeat "/"%char (Conf.span is_slash r).
Proof.
  induction r as [|d r IH]; [reflexivity|].
  cbn [Conf.span]. unfold is_slash at 1 3.
  destruct (Ascii.eqb_spec d "/") as [-> | Hd]; [|reflexivity].
  cbn [firstn repeat]. f_equal. exact IH.
Qed.

Lemma last_slash_run (pre : str) (k : nat) :
  last (pre ++ "/"%char :: repeat "/"%char k) NUL = "/"%char.
Proof.
  replace ("/"%char :: repeat "/"%char k) with (repeat "/"%char k ++ ["/"%char]).
  - rewrite app_assoc. apply last_last.
  - induction k as [|k IH]; [reflexivity|].
    cbn [repeat app]. f_equal. exact IH.
Qed.

Lemma no_nul_app_r (a b : str) : no_nul (a ++ b) -> no_nul b.
Proof. unfold no_nul. rewrite Forall_app. tauto. Qed.

Lemma snoc_app (a : str) (c : ascii) (b : str) :
  a ++ c :: b = (a ++ [c]) ++ b.
Proof. rewrite <- app_assoc. reflexivity. Qed.

Lemma length_snoc (a : str) (c : ascii) : length (a ++ [c]) = S (length a).
Proof. rewrite length_app. simpl. lia. Qed.

(** The loop of [check_filename] is the scanner, as long as the buffer
    is large enough for the bytes that remain. *)
Lemma copy_loop_scan (n : nat) :
  forall pre suf out st fuel,
    (length suf <= n)%nat ->
    no_nul (pre ++ suf) ->
    state_ok st pre suf ->
    (length out + length suf < BUFSZ)%nat ->
    (length suf < fuel)%nat ->
    copy_loop fuel (pre ++ suf) (length pre) out = Spec.scan st suf out.
Proof.
  induction n as [|n IH]; intros pre suf out st fuel Hn Hnul Hst Hbuf Hfuel.
  { destruct suf; [|simpl in Hn; lia].
    destruct fuel; [simpl in Hfuel; lia|].
    cbn [copy_loop]. rewrite read_app. reflexivity. }
  destruct suf as [|c rest].
  { destruct fuel; [simpl in Hfuel; lia|].
    cbn [copy_loop]. rewrite read_app. reflexivity. }
  destruct fuel as [|fuel]; [lia|].
  cbn [length] in Hn, Hbuf, Hfuel.
  pose proof (no_nul_app_r _ _ Hnul) as Hnul'.
  assert (Hc : Ascii.eqb c NUL = false).
  { inversion Hnul'; subst. apply Ascii.eqb_neq. assumption. }
  assert (Hrest : no_nul rest) by (inversion Hnul'; assumption).
  cbn [copy_loop]. rewrite read_app. cbn [bind deref]. rewrite Hc.
  replace (Nat.leb BUFSZ (length out)) with false
    by (symmetry; apply Nat.leb_gt; lia).
  rewrite dot_component_spec, dotdot_component_spec. cbn [bind].
  rewrite (deref_no_nul rest Hrest).
  destruct (Ascii.eqb_spec c "/") as [-> | Hslash].
  - (* a slash: copied, and the run after it skipped *)
    cbn [andb Ascii.eqb].
    change (Ascii.eqb "/" ".") with false. cbn [andb].
    set (k := Conf.span is_slash rest).
    assert (Hk : (k <= length rest)%nat) by apply PolicyFacts.span_le.
    rewrite (skip_slashes_run k pre rest) by (try reflexivity; rewrite length_app; simpl; lia).
    cbn [bind].
    assert (Hname : pre ++ "/"%char :: rest
                    = (pre ++ "/"%char :: firstn k rest) ++ skipn k rest).
    { rewrite <- app_assoc. cbn [app]. rewrite firstn_skipn. reflexivity. }
    assert (Hlen : S (length pre + k)
                   = length (pre ++ "/"%char :: firstn k rest)).
    { rewrite length_app. cbn [length]. rewrite firstn_length_le by lia. lia. }
    rewrite Hname, Hlen.
    rewrite (IH _ (skipn k rest) (out ++ ["/"%char]) Spec.AfterSlash fuel).
    + destruct st.
      * cbn [Spec.scan]. rewrite Ascii.eqb_refl. symmetry. apply scan_skip_run.
      * destruct Hst as (_ & _ & C). simpl in C. discriminate C.
      * cbn [Spec.scan]. rewrite Ascii.eqb_refl. symmetry. apply scan_skip_run.
    + rewrite length_skipn. lia.
    + rewrite <- Hname. exact Hnul.
    + refine (conj _ (conj _ _)).
      * intros C. apply (f_equal (@length _)) in C.
        rewrite length_app in C. simpl in C. lia.
      * subst k. rewrite span_run_repeat. apply last_slash_run.
      * apply span_stop_deref.
    + rewrite length_snoc, length_skipn. lia.
    + rewrite length_skipn. lia.
  - apply Ascii.eqb_neq in Hslash.
    destruct (Ascii.eqb_spec c ".") as [-> | Hdot].
    + (* a period *)
      cbn [andb].
      destruct st.
      * (* at the start of the name *)
        simpl in Hst. subst pre. cbn [length Nat.eqb negb andb orb app].
        rewrite andb_false_r. cbn [Spec.scan]. rewrite Hslash, Ascii.eqb_refl.
        destruct rest as [|d r].
        -- cbn [deref]. change (Ascii.eqb NUL ".") with false. cbn [andb].
           rewrite (skip_slashes_none [] ["."%char]) by reflexivity.
           cbn [bind].
           apply (IH ["."%char] [] (out ++ ["."%char]) Spec.Mid fuel);
             [simpl; lia | exact Hnul | | rewrite length_snoc; simpl; lia
             | simpl in *; lia].
           split; [discriminate|reflexivity].
        -- cbn [deref tl].
           assert (Hr : no_nul r) by (inversion Hrest; assumption).
           rewrite (deref_no_nul r Hr).
           assert (Hend : (Ascii.eqb (deref r) "/"
                           || match r with [] => true | _ => false end)
                          = Spec.at_end_or_slash r).
           { destruct r; simpl; [reflexivity|apply orb_false_r]. }
           rewrite Hend, andb_true_r.
           destruct (Ascii.eqb d "." && Spec.at_end_or_slash r); [reflexivity|].
           rewrite (skip_slashes_none [] ("."%char :: d :: r)) by reflexivity.
           cbn [bind].
           apply (IH ["."%char] (d :: r) (out ++ ["."%char]) Spec.Mid fuel);
             [simpl in *; lia | exact Hnul | | rewrite length_snoc; simpl in *; lia
             | simpl in *; lia].
           split; [discriminate|reflexivity].
      * (* just after a slash *)
        destruct Hst as (Hpre & Hlast & _).
        assert (Hlen0 : Nat.eqb (length pre) 0 = false).
        { destruct pre; [contradiction Hpre; reflexivity|reflexivity]. }
        rewrite Hlen0, Hlast, Ascii.eqb_refl. cbn [negb andb orb].
        rewrite !andb_true_r.
        cbn [Spec.scan]. rewrite Hslash, Ascii.eqb_refl.
        destruct rest as [|d r].
        -- (* the name ends here: the next read is past the terminator *)
           cbn [deref orb]. rewrite orb_true_r.
           rewrite snoc_app, <- length_snoc with (c := "."%char).
           rewrite skip_slashes_none by reflexivity. cbn [bind].
           destruct fuel as [|fuel]; [simpl in Hfuel; lia|].
           cbn [copy_loop]. rewrite app_nil_r.
           rewrite read_past. reflexivity.
        -- cbn [deref tl orb]. rewrite orb_false_r.
           assert (Hr : no_nul r) by (inversion Hrest; assumption).
           destruct (Ascii.eqb_spec d "/") as [-> | Hd].
           ++ (* a [.] component: dropped with the slashes after it *)
              set (k := Conf.span is_slash r).
              assert (Hk : (k <= length r)%nat) by apply PolicyFacts.span_le.
              rewrite snoc_app, <- length_snoc with (c := "."%char).
              rewrite (skip_slashes_run k (pre ++ ["."%char]) r)
                by (try reflexivity; rewrite !length_app; simpl; lia).
              cbn [bind].
              assert (Hname : (pre ++ ["."%char]) ++ "/"%char :: r
                              = (pre ++ "."%char :: "/"%char :: firstn k r)
                                  ++ skipn k r).
              { rewrite <- !app_assoc. cbn [app]. rewrite firstn_skipn.
                reflexivity. }
              assert (Hlen : S (length (pre ++ ["."%char]) + k)
                             = length (pre ++ "."%char :: "/"%char :: firstn k r)).
              { rewrite !length_app. cbn [length].
                rewrite firstn_length_le by lia. lia. }
              rewrite Hname, Hlen.
              rewrite (IH _ (skipn k r) out Spec.AfterSlash fuel).
              ** symmetry. apply scan_skip_run.
              ** rewrite length_skipn. simpl in Hn. lia.
              ** rewrite <- Hname, <- snoc_app. exact Hnul.
              ** refine (conj _ (conj _ _)).
                 --- intros C. apply (f_equal (@length _)) in C.
                     rewrite length_app in C. simpl in C. lia.
                 --- subst k. rewrite span_run_repeat.
                     rewrite (snoc_app pre "."%char). apply last_slash_run.
                 --- apply span_stop_deref.
              ** rewrite length_skipn. simpl in Hbuf. lia.
              ** rewrite length_skipn. simpl in Hfuel. lia.
           ++ apply Ascii.eqb_neq in Hd. cbn [orb andb].
              rewrite (deref_no_nul r Hr).
              assert (Hend : (Ascii.eqb (deref r) "/"
                              || match r with [] => true | _ => false end)
                             = Spec.at_end_or_slash r).
              { destruct r; simpl; [reflexivity|apply orb_false_r]. }
              rewrite Hend.
              destruct (Ascii.eqb d "." && Spec.at_end_or_slash r);
                [reflexivity|].
              rewrite skip_slashes_none by reflexivity. cbn [bind].
              rewrite snoc_app, <- length_snoc with (c := "."%char).
              apply (IH _ (d :: r) (out ++ ["."%char]) Spec.Mid fuel).
              ** simpl in *; lia.
              ** rewrite <- snoc_app. exact Hnul.
              ** split.
                 --- intros C. apply (f_equal (@length _)) in C.
                     rewrite length_snoc in C. discriminate C.
                 --- rewrite last_last. reflexivity.
              ** rewrite length_snoc. simpl in *. lia.
              ** simpl in *. lia.
      * (* inside a component *)
        destruct Hst as (Hpre & Hlast).
        assert (Hlen0 : Nat.eqb (length pre) 0 = false).
        { destruct pre; [contradiction Hpre; reflexivity|reflexivity]. }
        rewrite Hlen0, Hlast. cbn [negb andb orb].
        rewrite !andb_false_r.
        cbn [Spec.scan]. rewrite Hslash, Ascii.eqb_refl.
        rewrite skip_slashes_none by reflexivity. cbn [bind].
        rewrite snoc_app, <- length_snoc with (c := "."%char).
        replace (match rest with
                 | [] | _ => Spec.scan Spec.Mid rest (out ++ ["."%char])
                 end) with (Spec.scan Spec.Mid rest (out ++ ["."%char]))
          by (destruct rest; reflexivity).
        apply (IH _ rest (out ++ ["."%char]) Spec.Mid fuel).
        -- lia.
        -- rewrite <- snoc_app. exact Hnul.
        -- split.
           ++ intros C. apply (f_equal (@length _)) in C.
              rewrite length_snoc in C. discriminate C.
           ++ rewrite last_last. reflexivity.
        -- rewrite length_snoc. lia.
        -- lia.
    + (* any other byte: copied *)
      apply Ascii.eqb_neq in Hdot. cbn [andb].
      cbn [Spec.scan]. rewrite Hslash, Hdot.
      rewrite skip_slashes_none by (simpl; exact Hslash). cbn [bind].
      rewrite snoc_app, <- length_snoc with (c := c).
      apply (IH _ rest (out ++ [c]) Spec.Mid fuel).
      * lia.
      * rewrite <- snoc_app. exact Hnul.
      * split.
        -- intros C. apply (f_equal (@length _)) in C.
           rewrite length_snoc in C. discriminate C.
        -- rewrite last_last. exact Hslash.
      * rewrite length_snoc. lia.
      * lia.
Qed.

(** *** Components *)

Lemma split_slash_nonempty (s : str) : Spec.split_slash s <> [].
Proof.
  induction s as [|c s IH]; simpl; [discriminate|].
  destruct (Ascii.eqb c "/"); [discriminate|].
  destruct (Spec.split_slash s); discriminate.
Qed.

Lemma split_slash_slash (s : str) :
  Spec.split_slash ("/"%char :: s) = [] :: Spec.split_slash s.
Proof. reflexivity. Qed.

Lemma split_slash_other (c : ascii) (s : str) :
  Ascii.eqb c "/" = false ->
  exists w ws,
    Spec.split_slash s = w :: ws
    /\ Spec.split_slash (c :: s) = (c :: w) :: ws.
Proof.
  intros Hc. cbn [Spec.split_slash]. rewrite Hc.
  destruct (Spec.split_slash s) as [|w ws] eqn:E.
  - exfalso. exact (split_slash_nonempty s E).
  - eauto.
Qed.

Lemma later_kept (w : str) (ws : list str) (out : str) :
  str_eqb w (lit "..") = false -> str_eqb w (lit ".") = false ->
  str_eqb w [] = false ->
  Spec.later (w :: ws) out = emit_then w ws out.
Proof.
  intros H1 H2 H3. cbn [Spec.later]. rewrite H1, H2, H3. reflexivity.
Qed.

Lemma scan_components (n : nat) :
  forall suf,
    (length suf <= n)%nat ->
    (forall out,
        Spec.scan Spec.Mid suf out
        = emit_then (hd [] (Spec.split_slash suf))
                    (tl (Spec.split_slash suf)) out)
    /\ (forall out,
           Spec.scan Spec.AfterSlash suf out
           = Spec.later (Spec.split_slash suf) out).
Proof.
  induction n as [|n IH]; intros suf Hn.
  { destruct suf; [|simpl in Hn; lia].
    split; intros out; cbn; rewrite ?app_nil_r; reflexivity. }
  destruct suf as [|c rest].
  { split; intros out; cbn; rewrite ?app_nil_r; reflexivity. }
  cbn [length] in Hn.
  destruct (IH rest ltac:(lia)) as [IHmid IHafter].
  destruct (Ascii.eqb_spec c "/") as [-> | Hslash].
  - (* a slash ends the component *)
    rewrite split_slash_slash. cbn [hd tl]. split; intros out.
    + cbn [Spec.scan]. rewrite Ascii.eqb_refl. rewrite IHafter.
      unfold emit_then.
      destruct (Spec.split_slash rest) eqn:E;
        [exfalso; exact (split_slash_nonempty rest E)|].
      rewrite app_nil_l. reflexivity.
    + cbn [Spec.scan Spec.later]. rewrite Ascii.eqb_refl.
      rewrite IHafter. reflexivity.
  - apply Ascii.eqb_neq in Hslash.
    destruct (split_slash_other c rest Hslash) as (w & ws & Hrest & Hsplit).
    rewrite Hsplit. cbn [hd tl].
    assert (Hmid : forall out,
               Spec.scan Spec.Mid rest (out ++ [c]) = emit_then (c :: w) ws out).
    { intros out. rewrite IHmid, Hrest. cbn [hd tl]. unfold emit_then.
      destruct ws; rewrite <- !app_assoc; reflexivity. }
    split; intros out.
    + (* inside a component every byte is copied *)
      cbn [Spec.scan]. rewrite Hslash.
      destruct (Ascii.eqb c ".").
      * replace (match rest with
                 | [] | _ => Spec.scan Spec.Mid rest (out ++ [c])
                 end) with (Spec.scan Spec.Mid rest (out ++ [c]))
          by (destruct rest; reflexivity).
        apply Hmid.
      * apply Hmid.
    + (* the first byte of a component after a slash *)
      cbn [Spec.scan]. rewrite Hslash.
      destruct (Ascii.eqb_spec c ".") as [-> | Hdot].
      * destruct rest as [|d r].
        -- (* the component [.] ends the name *)
           cbn in Hrest. injection Hrest as <- <-. reflexivity.
        -- destruct (Ascii.eqb_spec d "/") as [-> | Hd].
           ++ (* the component [.] *)
              rewrite split_slash_slash in Hrest.
              injection Hrest as <- <-.
              cbn [Spec.later]. change (str_eqb (lit ".") (lit "..")) with false.
              change (str_eqb (lit ".") (lit ".")) with true. cbv iota.
              destruct (IH r ltac:(simpl in Hn; lia)) as [_ IHr].
              rewrite IHr.
              destruct (Spec.split_slash r) eqn:E;
                [exfalso; exact (split_slash_nonempty r E)|reflexivity].
           ++ apply Ascii.eqb_neq in Hd.
              destruct (split_slash_other d r Hd) as (w' & ws' & Hr & Hdr).
              rewrite Hdr in Hrest. injection Hrest as <- <-.
              destruct (Ascii.eqb_spec d ".") as [-> | Hd2].
              ** (* two periods: a [..] component if the component ends *)
                 destruct r as [|e r'].
                 --- cbn in Hr. injection Hr as <- <-. reflexivity.
                 --- cbn [Spec.at_end_or_slash andb].
                     destruct (Ascii.eqb_spec e "/") as [-> | He].
                     +++ rewrite split_slash_slash in Hr.
                         injection Hr as <- <-. reflexivity.
                     +++ apply Ascii.eqb_neq in He.
                         destruct (split_slash_other e r' He)
                           as (w2 & ws2 & Hr2 & Her).
                         rewrite Her in Hr. injection Hr as <- <-.
                         rewrite Hmid. symmetry. apply later_kept.
                         *** reflexivity.
                         *** reflexivity.
                         *** reflexivity.
              ** apply Ascii.eqb_neq in Hd2. cbn [andb].
                 rewrite Hmid. symmetry. apply later_kept.
                 --- cbn. rewrite Hd2. reflexivity.
                 --- reflexivity.
                 --- reflexivity.
      * apply Ascii.eqb_neq in Hdot.
        rewrite Hmid. symmetry. apply later_kept.
        -- cbn. rewrite Hdot. reflexivity.
        -- cbn. rewrite Hdot. reflexivity.
        -- reflexivity.
Qed.

(** From the start of the name: the first component is copied as it is,
    unless it is [..]. *)
Lemma scan_start (name out : str) :
  Spec.scan Spec.Start name out
  = if str_eqb (hd [] (Spec.split_slash name)) (lit "..") then Ok None
    else emit_then (hd [] (Spec.split_slash name))
                   (tl (Spec.split_slash name)) out.
Proof.
  destruct name as [|c rest].
  { cbn. rewrite app_nil_r. reflexivity. }
  destruct (scan_components (length rest) rest (le_n _)) as [Hmid Hafter].
  destruct (Ascii.eqb_spec c "/") as [-> | Hslash].
  - rewrite split_slash_slash. cbn [hd tl str_eqb lit list_ascii_of_string].
    cbn [Spec.scan]. rewrite Ascii.eqb_refl. rewrite Hafter.
    unfold emit_then.
    destruct (Spec.split_slash rest) eqn:E;
      [exfalso; exact (split_slash_nonempty rest E)|].
    rewrite app_nil_l. reflexivity.
  - apply Ascii.eqb_neq in Hslash.
    destruct (split_slash_other c rest Hslash) as (w & ws & Hrest & Hsplit).
    rewrite Hsplit. cbn [hd tl].
    assert (Hm : Spec.scan Spec.Mid rest (out ++ [c]) = emit_then (c :: w) ws out).
    { rewrite Hmid, Hrest. cbn [hd tl]. unfold emit_then.
      destruct ws; rewrite <- !app_assoc; reflexivity. }
    cbn [Spec.scan]. rewrite Hslash.
    destruct (Ascii.eqb_spec c ".") as [-> | Hdot].
    + destruct rest as [|d r].
      * cbn in Hrest. injection Hrest as <- <-. cbn. reflexivity.
      * destruct (Ascii.eqb_spec d ".") as [-> | Hd].
        -- destruct r as [|e r'].
           ++ cbn in Hrest. injection Hrest as <- <-. reflexivity.
           ++ cbn [Spec.at_end_or_slash andb].
              destruct (Ascii.eqb_spec e "/") as [-> | He].
              ** cbn in Hrest. injection Hrest as <- <-. reflexivity.
              ** apply Ascii.eqb_neq in He.
                 destruct (split_slash_other e r' He) as (w2 & ws2 & Hr2 & Her).
                 assert (Hw : w = "."%char :: e :: w2 /\ ws = ws2).
                 { cbn [Spec.split_slash] in Hrest.
                   change (Ascii.eqb "." "/") with false in Hrest.
                   cbv iota in Hrest. rewrite He, Hr2 in Hrest.
                   injection Hrest as <- <-. split; reflexivity. }
                 destruct Hw as [-> ->].
                 rewrite Hm. reflexivity.
        -- apply Ascii.eqb_neq in Hd. cbn [andb].
           rewrite Hm.
           assert (Hw2 : str_eqb ("."%char :: w) (lit "..") = false).
           { destruct (Ascii.eqb_spec d "/") as [-> | Hd2].
             - rewrite split_slash_slash in Hrest. injection Hrest as <- <-.
               reflexivity.
             - apply Ascii.eqb_neq in Hd2.
               destruct (split_slash_other d r Hd2) as (w' & ws' & Hr & Hdr).
               rewrite Hdr in Hrest. injection Hrest as <- <-.
               cbn. rewrite Hd. reflexivity. }
           rewrite Hw2. reflexivity.
    + apply Ascii.eqb_neq in Hdot. rewrite Hm.
      assert (Hw2 : str_eqb (c :: w) (lit "..") = false).
      { cbn. rewrite Hdot. reflexivity. }
      rewrite Hw2. reflexivity.
Qed.

(** *** The checks before the loop *)

Lemma allowed_byte_mem (c : ascii) :
  Spec.allowed_byte c = negb (Ascii.eqb c NUL) && mem_char c allowed_chars.
Proof.
  destruct c as [[] [] [] [] [] [] [] []]; vm_compute; reflexivity.
Qed.

Lemma strspn_all (name : str) :
  Nat.eqb (strspn name allowed_chars) (length name)
  = forallb Spec.allowed_byte name.
Proof.
  induction name as [|c name IH]; [reflexivity|].
  cbn [strspn forallb length]. rewrite allowed_byte_mem.
  destruct (negb (Ascii.eqb c NUL) && mem_char c allowed_chars);
    [exact IH|reflexivity].
Qed.

Lemma allowed_no_nul (name : str) :
  forallb Spec.allowed_byte name = true -> no_nul name.
Proof.
  unfold no_nul. rewrite forallb_forall, Forall_forall.
  intros H c Hc. specialize (H c Hc). rewrite allowed_byte_mem in H.
  apply andb_true_iff in H. destruct H as [H _].
  apply negb_true_iff, Ascii.eqb_neq in H. exact H.
Qed.

Lemma nth0_deref (name : str) : nth 0 name NUL = deref name.
Proof. destruct name; reflexivity. Qed.

(** *** The components after the first *)

Lemma str_eqb_sym (a b : str) : str_eqb a b = str_eqb b a.
Proof.
  revert b; induction a as [|x a IH]; intros [|y b]; simpl; try reflexivity.
  rewrite Ascii.eqb_sym, IH. reflexivity.
Qed.

Lemma later_dotdot (ws : list str) :
  forall out,
    existsb (str_eqb (lit "..")) ws = true -> Spec.later ws out = Ok None.
Proof.
  induction ws as [|w ws IH]; intros out H; [discriminate H|].
  cbn [existsb] in H. cbn [Spec.later].
  rewrite (str_eqb_sym w). destruct (str_eqb (lit "..") w); [reflexivity|].
  cbn [orb] in H.
  destruct ws as [|w' ws']; [discriminate H|].
  destruct (str_eqb w (lit ".")); [apply IH; exact H|].
  destruct (str_eqb w []); apply IH; exact H.
Qed.

Lemma later_spec (ws : list str) :
  forall out,
    ws <> [] ->
    existsb (str_eqb (lit "..")) ws = false ->
    str_eqb (last ws []) (lit ".") = false ->
    exists t,
      Spec.later ws out = Ok (Some (out ++ t))
      /\ "/"%char :: t
         = slashed ws ++ (if Spec.keep (last ws []) then [] else lit "/").
Proof.
  induction ws as [|w ws IH]; intros out Hne Hdd Hlast;
    [contradiction Hne; reflexivity|].
  cbn [existsb] in Hdd. apply orb_false_iff in Hdd. destruct Hdd as [Hw Hdd].
  cbn [Spec.later]. rewrite (str_eqb_sym w), Hw.
  unfold slashed. cbn [filter]. unfold Spec.keep at 1.
  destruct ws as [|w' ws'].
  - (* the last component *)
    cbn [last] in Hlast |- *. rewrite Hlast.
    unfold Spec.keep. rewrite Hlast.
    destruct (str_eqb w []) eqn:E; cbn [orb negb flat_map app].
    + apply str_eqb_eq in E. subst w.
      exists []. rewrite app_nil_r. split; reflexivity.
    + exists w. split; [reflexivity|]. rewrite !app_nil_r. reflexivity.
  - (* a component followed by a slash *)
    assert (Hl : last (w :: w' :: ws') [] = last (w' :: ws') [])
      by reflexivity.
    rewrite Hl in *.
    assert (Hne' : w' :: ws' <> []) by discriminate.
    destruct (str_eqb w (lit ".")) eqn:Edot; cbn [orb negb].
    + rewrite orb_true_r. cbn [negb].
      destruct (IH out Hne' Hdd Hlast) as (t & Ht & Hs).
      exists t. split; [exact Ht|exact Hs].
    + rewrite orb_false_r.
      destruct (str_eqb w []) eqn:E; cbn [negb].
      * destruct (IH out Hne' Hdd Hlast) as (t & Ht & Hs).
        exists t. split; [exact Ht|exact Hs].
      * destruct (IH (out ++ w ++ lit "/") Hne' Hdd Hlast) as (t & Ht & Hs).
        exists (w ++ "/"%char :: t). split.
        -- rewrite Ht. rewrite <- !app_assoc. reflexivity.
        -- cbn [flat_map]. fold (slashed (w' :: ws')).
           rewrite Hs. cbn [app]. rewrite <- !app_assoc. reflexivity.
Qed.

(** *** Names that end in a [.] component *)

Lemma ends_with_dot_cons (c : ascii) (s : str) :
  Spec.ends_with_dot s = true -> Spec.ends_with_dot (c :: s) = true.
Proof.
  unfold Spec.ends_with_dot. cbn [rev].
  destruct (rev s) as [|d [|e t]]; intros H; try discriminate H.
  exact H.
Qed.

Lemma split_slash_single_nil (s : str) : Spec.split_slash s = [[]] -> s = [].
Proof.
  destruct s as [|c s]; [reflexivity|].
  cbn [Spec.split_slash].
  destruct (Ascii.eqb c "/").
  - intros H. injection H as H. exfalso. exact (split_slash_nonempty s H).
  - destruct (Spec.split_slash s); discriminate.
Qed.

Lemma last_component_dot (s : str) :
  last (Spec.split_slash s) [] = lit "." ->
  s = lit "." \/ Spec.ends_with_dot s = true.
Proof.
  induction s as [|c s IH]; [discriminate|].
  destruct (Ascii.eqb_spec c "/") as [-> | Hc].
  - rewrite split_slash_slash.
    destruct (Spec.split_slash s) as [|w ws] eqn:E;
      [exfalso; exact (split_slash_nonempty s E)|].
    change (last ([] :: w :: ws) []) with (last (w :: ws) (@nil ascii)).
    intros H. destruct (IH H) as [-> | Hd].
    + right. reflexivity.
    + right. apply ends_with_dot_cons. exact Hd.
  - apply Ascii.eqb_neq in Hc.
    destruct (split_slash_other c s Hc) as (w & ws & Hs & Hcs).
    rewrite Hcs. rewrite Hs in IH.
    destruct ws as [|w' ws'].
    + cbn [last]. intros H. injection H as -> ->.
      left. rewrite (split_slash_single_nil s Hs). reflexivity.
    + change (last ((c :: w) :: w' :: ws') []) with (last (w' :: ws') (@nil ascii)).
      change (last (w :: w' :: ws') []) with (last (w' :: ws') (@nil ascii)) in IH.
      intros H. destruct (IH H) as [-> | Hd].
      * discriminate Hs.
      * right. apply ends_with_dot_cons. exact Hd.
Qed.

(** *** Trailing slashes *)

Lemma split_slash_free (s : str) : Forall slash_free (Spec.split_slash s).
Proof.
  induction s as [|c s IH]; [repeat constructor|].
  destruct (Ascii.eqb_spec c "/") as [-> | Hc].
  - rewrite split_slash_slash. constructor; [constructor|exact IH].
  - assert (Hc' := Hc). apply Ascii.eqb_neq in Hc'.
    destruct (split_slash_other c s Hc') as (w & ws & Hs & Hcs).
    rewrite Hcs. rewrite Hs in IH. inversion IH; subst.
    constructor; [constructor; assumption|assumption].
Qed.

Lemma trim_rev_keep (x : ascii) (r : str) :
  x <> "/"%char -> trim_rev (x :: r) = x :: r.
Proof.
  intros Hx. apply Ascii.eqb_neq in Hx.
  destruct r; cbn [trim_rev]; [reflexivity|]. rewrite Hx. reflexivity.
Qed.

Lemma trim_slashes_keep (o : str) (x : ascii) :
  x <> "/"%char -> trim_slashes (o ++ [x]) = o ++ [x].
Proof.
  intros Hx. unfold trim_slashes. rewrite rev_app_distr.
  change (rev [x] ++ rev o) with (x :: rev o).
  rewrite trim_rev_keep by exact Hx.
  change (x :: rev o) with (rev [x] ++ rev o).
  rewrite <- rev_app_distr, rev_involutive. reflexivity.
Qed.

Lemma trim_slashes_slash (o : str) (x : ascii) :
  x <> "/"%char -> trim_slashes ((o ++ [x]) ++ lit "/") = o ++ [x].
Proof.
  intros Hx. unfold trim_slashes. rewrite !rev_app_distr.
  change (rev (lit "/") ++ rev [x] ++ rev o) with ("/"%char :: x :: rev o).
  change (trim_rev ("/"%char :: x :: rev o)) with (trim_rev (x :: rev o)).
  rewrite trim_rev_keep by exact Hx.
  change (x :: rev o) with (rev [x] ++ rev o).
  rewrite <- rev_app_distr, rev_involutive. reflexivity.
Qed.

(** What is kept never ends in a slash. *)
Lemma kept_ends (w0 : str) (ws : list str) :
  slash_free w0 -> Forall slash_free ws ->
  w0 ++ slashed ws <> [] ->
  exists o x, w0 ++ slashed ws = o ++ [x] /\ x <> "/"%char.
Proof.
  intros H0 Hws. unfold slashed.
  assert (Hk : Forall (fun w => slash_free w /\ w <> [])
                      (filter Spec.keep ws)).
  { apply Forall_forall. intros w Hw. apply filter_In in Hw.
    destruct Hw as [Hin Hkeep]. split.
    - rewrite Forall_forall in Hws. apply Hws. exact Hin.
    - intros ->. discriminate Hkeep. }
  clear Hws. revert Hk.
  induction (filter Spec.keep ws) as [|w K IH] using rev_ind; intros Hk Hne.
  - cbn [flat_map] in *. rewrite app_nil_r in *.
    destruct (exists_last Hne) as (o & x & ->).
    exists o, x. split; [reflexivity|].
    unfold slash_free in H0. rewrite Forall_app in H0.
    destruct H0 as [_ H0]. inversion H0; assumption.
  - rewrite Forall_app in Hk. destruct Hk as [_ Hw].
    inversion Hw as [|? ? [Hfree Hnw] _]; subst.
    destruct (exists_last Hnw) as (w' & x & ->).
    rewrite flat_map_app. cbn [flat_map]. rewrite app_nil_r.
    exists (w0 ++ flat_map (fun w => "/"%char :: w) K ++ "/"%char :: w'), x.
    split.
    + rewrite <- !app_assoc. reflexivity.
    + unfold slash_free in Hfree. rewrite Forall_app in Hfree.
      destruct Hfree as [_ Hx]. inversion Hx; assumption.
Qed.

Lemma collapse_nonempty (name : str) : Spec.collapse name <> [].
Proof.
  unfold Spec.collapse.
  destruct (Spec.split_slash name) as [|w0 ws] eqn:Hs;
    [exfalso; exact (split_slash_nonempty name Hs)|].
  cbv zeta.
  destruct (Nat.eqb_spec (length (w0 ++ flat_map (fun w => "/"%char :: w)
                                                (filter Spec.keep ws))) 0)
    as [E | N]; [discriminate|].
  intros C. rewrite C in N. contradiction N. reflexivity.
Qed.

(** C5, as stated, does not hold: [a b] has a space, which is not in the
    allowlist of the code, and is refused. *)
Lemma rejects_exactly_fails : ~ Spec.rejects_exactly.
Proof.
  intros H. destruct (H (lit "a b")) as [H1 _].
  specialize (H1 eq_refl). discriminate H1.
Qed.

(** C5, amended.  For a name that does not end in a [.] component after
    a slash, [check_filename] returns the empty string exactly when the
    name is empty, is 1024 bytes long or more, has a byte outside [/],
    digits, ASCII letters, [-], [.], [_] and [~], begins with [~] or has
    a [..] component; otherwise it returns the name with doubled slashes,
    trailing slashes and [.] components after the first component
    removed, which is not empty. *)
Theorem check_filename_collapses (name : str) :
  Spec.ends_with_dot name = false ->
  check_filename name
  = Ok (if Spec.rejected name then [] else Spec.collapse name)
  /\ Spec.collapse name <> [].
Proof.
  intros Hend. split; [|apply collapse_nonempty].
  unfold check_filename, Spec.rejected.
  rewrite strspn_all, nth0_deref.
  destruct (forallb Spec.allowed_byte name) eqn:Hall; cbn [negb orb];
    [|reflexivity].
  destruct (Nat.eqb (length name) 0) eqn:Hlen; cbn [orb]; [reflexivity|].
  destruct (Ascii.eqb (deref name) "~"); cbn [orb]; [reflexivity|].
  change (Nat.leb 1024 (length name)) with (Nat.leb BUFSZ (length name)).
  destruct (Nat.leb_spec BUFSZ (length name)) as [Hbig | Hsmall];
    cbn [orb]; [reflexivity|].
  pose proof (copy_loop_scan (length name) [] name [] Spec.Start
                             (S (length name)) (le_n _)
                             (allowed_no_nul name Hall) eq_refl) as Hloop.
  cbn [app length] in Hloop. rewrite Hloop by lia. clear Hloop.
  rewrite scan_start. unfold Spec.has_dotdot, Spec.collapse.
  pose proof (split_slash_free name) as Hfree.
  pose proof (last_component_dot name) as Hlastdot.
  destruct (Spec.split_slash name) as [|w0 ws] eqn:Hs;
    [exfalso; exact (split_slash_nonempty name Hs)|].
  cbn [hd tl existsb]. rewrite (str_eqb_sym (lit "..") w0).
  destruct (str_eqb w0 (lit "..")); cbn [orb bind]; [reflexivity|].
  inversion Hfree as [|? ? Hfree0 Hfreews]; subst.
  fold (slashed ws).
  destruct ws as [|w' ws'].
  - (* a name without a slash *)
    cbn [emit_then existsb bind app]. unfold slashed. cbn [filter flat_map].
    rewrite app_nil_r.
    assert (Hne : w0 <> []).
    { intros ->. rewrite (split_slash_single_nil name Hs) in Hlen.
      discriminate Hlen. }
    destruct (kept_ends w0 [] Hfree0 (Forall_nil _)) as (o & x & Ho & Hx).
    { unfold slashed. cbn. rewrite app_nil_r. exact Hne. }
    unfold slashed in Ho. cbn [filter flat_map] in Ho.
    rewrite app_nil_r in Ho. rewrite Ho.
    rewrite trim_slashes_keep by exact Hx.
    replace (Nat.eqb (length (o ++ [x])) 0) with false
      by (rewrite length_app; simpl; symmetry; apply Nat.eqb_neq; lia).
    reflexivity.
  - unfold emit_then.
    destruct (existsb (str_eqb (lit "..")) (w' :: ws')) eqn:Hdd.
    + rewrite later_dotdot by exact Hdd. reflexivity.
    + assert (Hlast : str_eqb (last (w' :: ws') []) (lit ".") = false).
      { destruct (str_eqb (last (w' :: ws') []) (lit ".")) eqn:E;
          [|reflexivity].
        apply str_eqb_eq in E.
        destruct (Hlastdot E) as [-> | Hd].
        - discriminate Hs.
        - rewrite Hd in Hend. discriminate Hend. }
      destruct (later_spec (w' :: ws') ([] ++ w0 ++ lit "/")
                           ltac:(discriminate) Hdd Hlast) as (t & Ht & Hsl).
      rewrite Ht. cbn [bind app].
      assert (Hraw : (w0 ++ lit "/") ++ t
                     = (w0 ++ slashed (w' :: ws'))
                         ++ (if Spec.keep (last (w' :: ws') []) then []
                             else lit "/")).
      { rewrite <- !app_assoc. f_equal. exact Hsl. }
      rewrite Hraw.
      destruct (Spec.keep (last (w' :: ws') [])).
      * rewrite app_nil_r.
        destruct (kept_ends w0 (w' :: ws') Hfree0 Hfreews) as (o & x & Ho & Hx).
        { rewrite app_nil_r in Hraw. rewrite <- Hraw.
          intros C. apply (f_equal (@length _)) in C.
          rewrite !length_app in C. simpl in C. lia. }
        rewrite Ho. rewrite trim_slashes_keep by exact Hx.
        replace (Nat.eqb (length (o ++ [x])) 0) with false
          by (rewrite length_app; simpl; symmetry; apply Nat.eqb_neq; lia).
        reflexivity.
      * destruct (w0 ++ slashed (w' :: ws')) as [|y l] eqn:Eo.
        -- reflexivity.
        -- destruct (kept_ends w0 (w' :: ws') Hfree0 Hfreews)
             as (o & x & Ho & Hx).
           { rewrite Eo. discriminate. }
           rewrite Eo in Ho. rewrite Ho.
           rewrite trim_slashes_slash by exact Hx.
           replace (Nat.eqb (length (o ++ [x])) 0) with false
             by (rewrite length_app; simpl; symmetry; apply Nat.eqb_neq; lia).
           reflexivity.
Qed.

Lemma check_filename_collapses_witness :
  check_filename (lit "/jails//run1/./home/")
  = Ok (if Spec.rejected (lit "/jails//run1/./home/") then []
        else Spec.collapse (lit "/jails//run1/./home/"))
  /\ Spec.collapse (lit "/jails//run1/./home/") <> [].
Proof.
  apply (check_filename_collapses (lit "/jails//run1/./home/")).
  reflexivity.
Defined.

(** A name that passes the checks and ends in a [.] component after a
    slash makes the loop read past the terminator of the name. *)
Lemma check_filename_trailing_dot :
  check_filename (lit "/jails/run1/.") = Undefined.
Proof. reflexivity. Qed.

End FilenameFacts.

(** ** The byte buffer *)

Module BufferFacts.
Import JBuffer BufferInv.

Ltac pows :=
  change (2 ^ 64) with 18446744073709551616 in *;
  change (2 ^ 62) with 4611686018427387904 in *.

Lemma wrap64_small (x : Z) : 0 <= x < 2 ^ 64 -> wrap64 x = x.
Proof. intros H. unfold wrap64. apply Z.mod_small. exact H. Qed.

Lemma length_fresh (n : Z) : length (fresh n) = Z.to_nat n.
Proof. unfold fresh. apply repeat_length. Qed.

Lemma length_splice (buf : str) (pos : Z) (data : str) :
  0 <= pos -> pos + Z.of_nat (length data) <= Z.of_nat (length buf) ->
  length (splice buf pos data) = length buf.
Proof.
  intros Hpos Hfit. unfold splice.
  rewrite !length_app, length_firstn, length_skipn. lia.
Qed.

Lemma firstn_splice (buf : str) (pos : Z) (data : str) :
  0 <= pos -> pos + Z.of_nat (length data) <= Z.of_nat (length buf) ->
  firstn (Z.to_nat (pos + Z.of_nat (length data))) (splice buf pos data)
  = firstn (Z.to_nat pos) buf ++ data.
Proof.
  intros Hpos Hfit. unfold splice.
  rewrite app_assoc.
  rewrite firstn_app.
  replace (Z.to_nat (pos + Z.of_nat (length data))
           - length (firstn (Z.to_nat pos) buf ++ data))%nat with O
    by (rewrite length_app, length_firstn; lia).
  rewrite firstn_O, app_nil_r.
  apply firstn_all2. rewrite length_app, length_firstn. lia.
Qed.

(** The loop of [reserve] ends with a capacity that is large enough. *)
Lemma grow_ok (fuel : nat) :
  forall need ncap,
    0 < ncap < 2 ^ 64 ->
    need <= 2 ^ 62 + 131072 ->
    need - ncap <= Z.of_nat fuel ->
    exists n',
      grow fuel need ncap = Ok n'
      /\ ncap <= n' /\ need <= n' /\ n' < 2 ^ 64.
Proof.
  pows.
  induction fuel as [|fuel IH]; intros need ncap Hcap Hneed Hfuel.
  - simpl. destruct (Z.gtb_spec need ncap); [lia|].
    exists ncap. repeat split; lia.
  - simpl. destruct (Z.gtb_spec need ncap) as [Hgt | Hle].
    + assert (H2 : wrap64 (ncap * 2) = ncap * 2)
        by (apply wrap64_small; pows; lia).
      assert (H3 : wrap64 (ncap + 131072) = ncap + 131072)
        by (apply wrap64_small; pows; lia).
      rewrite H2, H3.
      destruct (IH need (Z.min (ncap * 2) (ncap + 131072)))
        as (n' & Hn & H4 & H5 & H6); try lia.
      exists n'. repeat split; try assumption; lia.
    + exists ncap. repeat split; lia.
Qed.

Lemma written_length (b : jbuffer) :
  Spec.buf_wf b -> length (written b) = Z.to_nat (tail_ b).
Proof.
  intros ((Hht & Htc) & Hh & Hcap & Hlen & Hpos).
  unfold written. rewrite length_firstn. lia.
Qed.

Lemma reserve_ok (b : jbuffer) (n : Z) :
  Spec.buf_wf b ->
  0 <= n ->
  tail_ b + (if n =? 0 then Z.min (cap_ b) 131072 else n) <= 2 ^ 62 + 131072 ->
  exists b',
    reserve b n = Ok b'
    /\ extends b b' []
    /\ tail_ b + (if n =? 0 then Z.min (cap_ b) 131072 else n) <= cap_ b'.
Proof.
  intros Hwf Hn Hfit.
  pose proof Hwf as ((Hht & Htc) & Hh & Hcap & Hlen & Hpos).
  unfold reserve.
  set (n' := if n =? 0 then Z.min (cap_ b) 131072 else n) in *.
  assert (Hn' : 0 <= n') by (subst n'; destruct (n =? 0); lia).
  assert (Hw : wrap64 (tail_ b + n') = tail_ b + n')
    by (apply wrap64_small; pows; lia).
  rewrite Hw.
  destruct (grow_ok (Z.to_nat (tail_ b + n')) (tail_ b + n') (cap_ b))
    as (ncap & Hg & H1 & H2 & H3); try lia.
  rewrite Hg. cbn [bind].
  replace (cap_ b <? tail_ b) with false by (symmetry; apply Z.ltb_ge; lia).
  replace (ncap <? tail_ b) with false by (symmetry; apply Z.ltb_ge; lia).
  cbn [orb].
  eexists. split; [reflexivity|]. split; [|cbn [cap_]; lia].
  unfold extends, Spec.buf_wf, Spec.buf_inv, written.
  cbn [buf_ head_ tail_ cap_ bufpos_ length].
  repeat split; try lia.
  - rewrite length_app, length_firstn, length_fresh. lia.
  - rewrite app_nil_r. rewrite firstn_app.
    rewrite length_firstn.
    replace (Z.to_nat (tail_ b)
             - Nat.min (Z.to_nat (tail_ b)) (length (buf_ b)))%nat with O by lia.
    rewrite firstn_O, app_nil_r. rewrite firstn_firstn.
    f_equal. lia.
Qed.

Lemma extends_trans (b b1 b2 : jbuffer) (d1 d2 : str) :
  extends b b1 d1 -> extends b1 b2 d2 -> extends b b2 (d1 ++ d2).
Proof.
  intros (W1 & T1 & H1 & P1 & R1 & C1) (W2 & T2 & H2 & P2 & R2 & C2).
  unfold extends. rewrite length_app.
  split; [exact W2|].
  repeat split; try lia; try congruence.
  rewrite R2, R1, app_assoc. reflexivity.
Qed.

(** Storing [data] at [tail] when there is room for it. *)
Lemma store_ok (b : jbuffer) (data : str) :
  Spec.buf_wf b ->
  tail_ b + Z.of_nat (length data) <= cap_ b ->
  extends b (set_tail b (splice (buf_ b) (tail_ b) data)
                      (wrap64 (tail_ b + Z.of_nat (length data)))) data.
Proof.
  intros Hwf Hroom.
  pose proof Hwf as ((Hht & Htc) & Hh & Hcap & Hlen & Hpos).
  assert (Hw : wrap64 (tail_ b + Z.of_nat (length data))
               = tail_ b + Z.of_nat (length data))
    by (apply wrap64_small; lia).
  rewrite Hw.
  unfold extends, Spec.buf_wf, Spec.buf_inv, written, set_tail.
  cbn [buf_ head_ tail_ cap_ bufpos_].
  repeat split; try lia.
  - rewrite length_splice; lia.
  - apply firstn_splice; lia.
Qed.

Lemma append_ok (b : jbuffer) (data : str) :
  Spec.buf_wf b ->
  tail_ b + Z.of_nat (length data) <= 2 ^ 62 ->
  exists b', append b data = Ok b' /\ extends b b' data.
Proof.
  intros Hwf Hfit.
  pose proof Hwf as ((Hht & Htc) & Hh & Hcap & Hlen & Hpos).
  unfold append.
  assert (Hw : wrap64 (cap_ b - tail_ b) = cap_ b - tail_ b)
    by (apply wrap64_small; lia).
  rewrite Hw.
  destruct (Z.ltb_spec (cap_ b - tail_ b) (Z.of_nat (length data)))
    as [Hsmall | Hroom].
  - destruct (reserve_ok b (Z.of_nat (length data)) Hwf) as (b1 & Hr & He & Hc).
    + lia.
    + replace (Z.of_nat (length data) =? 0) with false
        by (symmetry; apply Z.eqb_neq; lia).
      pows. lia.
    + replace (Z.of_nat (length data) =? 0) with false in Hc
        by (symmetry; apply Z.eqb_neq; lia).
      rewrite Hr. cbn [bind].
      pose proof He as (W1 & T1 & H1 & P1 & R1 & C1).
      simpl in T1. rewrite Z.add_0_r in T1.
      replace (tail_ b1 <? 0) with false by (symmetry; apply Z.ltb_ge; lia).
      replace (cap_ b1 <? tail_ b1 + Z.of_nat (length data)) with false
        by (symmetry; apply Z.ltb_ge; lia).
      cbn [orb]. eexists. split; [reflexivity|].
      change data with ([] ++ data) at 3.
      apply (extends_trans b b1 _ [] data He).
      apply store_ok; [exact W1|lia].
  - cbn [bind].
    replace (tail_ b <? 0) with false by (symmetry; apply Z.ltb_ge; lia).
    replace (cap_ b <? tail_ b + Z.of_nat (length data)) with false
      by (symmetry; apply Z.ltb_ge; lia).
    cbn [orb]. eexists. split; [reflexivity|].
    apply store_ok; [exact Hwf|lia].
Qed.

Lemma append_ch_ok (b : jbuffer) (ch : ascii) :
  Spec.buf_wf b ->
  tail_ b + 1 <= 2 ^ 62 ->
  exists b', append_ch b ch = Ok b' /\ extends b b' [ch].
Proof.
  intros Hwf Hfit.
  pose proof Hwf as ((Hht & Htc) & Hh & Hcap & Hlen & Hpos).
  unfold append_ch.
  destruct (Z.eqb_spec (tail_ b) (cap_ b)) as [Hfull | Hroom].
  - destruct (reserve_ok b 0 Hwf) as (b1 & Hr & He & Hc).
    + lia.
    + cbn [Z.eqb]. pows. lia.
    + cbn [Z.eqb] in Hc. rewrite Hr. cbn [bind].
      pose proof He as (W1 & T1 & H1 & P1 & R1 & C1).
      simpl in T1. rewrite Z.add_0_r in T1.
      replace (tail_ b1 <? 0) with false by (symmetry; apply Z.ltb_ge; lia).
      replace (cap_ b1 <=? tail_ b1) with false
        by (symmetry; apply Z.leb_gt; lia).
      cbn [orb]. eexists. split; [reflexivity|].
      change [ch] with ([] ++ [ch]) at 2.
      apply (extends_trans b b1 _ [] [ch] He).
      apply (store_ok b1 [ch]); [exact W1|simpl; lia].
  - cbn [bind].
    replace (tail_ b <? 0) with false by (symmetry; apply Z.ltb_ge; lia).
    replace (cap_ b <=? tail_ b) with false
      by (symmetry; apply Z.leb_gt; lia).
    cbn [orb]. eexists. split; [reflexivity|].
    apply (store_ok b [ch]); [exact Hwf|simpl; lia].
Qed.

Lemma read_ok (b : jbuffer) (from : Z) (r : read_answer) :
  Spec.buf_wf b -> Spec.op_ok b (Spec.Read from r) ->
  exists any b', read b from r = Ok (any, b') /\ Spec.buf_wf b'.
Proof.
  intros Hwf Hok.
  pose proof Hwf as ((Hht & Htc) & Hh & Hcap & Hlen & Hpos).
  unfold read.
  destruct ((from >=? 0) && negb (rclosed_ b) && negb (tail_ b =? cap_ b));
    [|eauto].
  destruct r as [[|x data]| |errno].
  - do 2 eexists. split; [reflexivity|exact Hwf].
  - cbn [Spec.op_ok] in Hok.
    assert (Hw : wrap64 (cap_ b - tail_ b) = cap_ b - tail_ b)
      by (apply wrap64_small; lia).
    rewrite Hw.
    replace (cap_ b - tail_ b <? Z.of_nat (length (x :: data))) with false
      by (symmetry; apply Z.ltb_ge; lia).
    do 2 eexists. split; [reflexivity|].
    apply (store_ok b (x :: data)); [exact Hwf|lia].
  - do 2 eexists. split; [reflexivity|exact Hwf].
  - destruct (negb (errno =? EINTR) && negb (errno =? EAGAIN));
      do 2 eexists; (split; [reflexivity|exact Hwf]).
Qed.

Lemma off_in_range_ok (b : jbuffer) (off : Z) :
  Spec.buf_wf b -> Spec.offset_ok b off ->
  bufpos_ b + tail_ b < 2 ^ 64 ->
  off_in_range b off = true.
Proof.
  intros ((Hht & Htc) & Hh & Hcap & Hlen & Hpos) (Hlo & Hhi) Hfit.
  unfold off_in_range.
  rewrite !wrap64_small by lia.
  apply andb_true_iff. split; [apply Z.geb_le|apply Z.leb_le]; lia.
Qed.

Lemma write_ok (b : jbuffer) (to off nw errno : Z) :
  Spec.buf_wf b -> Spec.op_ok b (Spec.Write to off nw errno) ->
  exists any off' b',
    write b to off nw errno = Ok (any, off', b') /\ Spec.buf_wf b'.
Proof.
  intros Hwf (Hoff & Hfit). unfold write.
  rewrite (off_in_range_ok b off Hwf Hoff Hfit). cbn [negb].
  destruct ((to >=? 0) && negb (wclosed_ b)
            && negb (off =? wrap64 (bufpos_ b + tail_ b))).
  - destruct (negb (nw =? 0) && negb (nw =? -1)).
    + do 3 eexists. split; [reflexivity|exact Hwf].
    + destruct (negb (errno =? EINTR) && negb (errno =? EAGAIN));
        do 3 eexists; (split; [reflexivity|exact Hwf]).
  - do 3 eexists. split; [reflexivity|exact Hwf].
Qed.

Lemma length_substr (s : str) (pos n : nat) :
  (pos + n <= length s)%nat -> length (substr s pos n) = n.
Proof.
  intros H. unfold substr. rewrite length_firstn, length_skipn. lia.
Qed.

(** [consume_to]: with [tail >= 3 * cap / 4] the bytes are shifted left,
    otherwise only [head] moves; either way the absolute positions of
    [head] and [tail] are [off] and the old [bufpos + tail], and the
    bytes between them are the old ones. *)
Lemma consume_to_ok (b : jbuffer) (off : Z) :
  Spec.buf_wf b -> Spec.op_ok b (Spec.ConsumeTo off) ->
  let b' := if 3 * cap_ b / 4 <=? tail_ b then Spec.compact b off
            else Spec.advance b off in
  consume_to b off = Ok b'
  /\ Spec.buf_wf b'
  /\ bufpos_ b' + head_ b' = off
  /\ bufpos_ b' + tail_ b' = bufpos_ b + tail_ b
  /\ contents b' = Spec.bytes_between b off (bufpos_ b + tail_ b).
Proof.
  intros Hwf (Hoff & Hfit & Hcap3).
  pose proof Hwf as ((Hht & Htc) & Hh & Hcap & Hlen & Hpos).
  pose proof Hoff as (Hlo & Hhi).
  unfold consume_to.
  rewrite (off_in_range_ok b off Hwf Hoff Hfit). cbn [negb].
  rewrite (wrap64_small (off - bufpos_ b)) by lia.
  rewrite (wrap64_small (3 * cap_ b)) by lia.
  replace (tail_ b >=? 3 * cap_ b / 4) with (3 * cap_ b / 4 <=? tail_ b)
    by (rewrite Z.geb_leb; reflexivity).
  destruct (3 * cap_ b / 4 <=? tail_ b).
  - (* compaction *)
    replace ((0 <=? off - bufpos_ b) && (off - bufpos_ b <=? tail_ b)
             && (tail_ b <=? cap_ b)) with true
      by (symmetry; rewrite !andb_true_iff; repeat split; apply Z.leb_le; lia).
    rewrite (wrap64_small (tail_ b - (off - bufpos_ b))) by lia.
    rewrite (wrap64_small (bufpos_ b + (off - bufpos_ b))) by lia.
    assert (Hkept : Z.to_nat (tail_ b - (off - bufpos_ b))
                    = Z.to_nat (bufpos_ b + tail_ b - off)) by (f_equal; lia).
    assert (Hsub : length (substr (buf_ b) (Z.to_nat (off - bufpos_ b))
                                  (Z.to_nat (bufpos_ b + tail_ b - off)))
                   = Z.to_nat (bufpos_ b + tail_ b - off))
      by (apply length_substr; lia).
    assert (Hbuf : splice (buf_ b) 0
                     (substr (buf_ b) (Z.to_nat (off - bufpos_ b))
                             (Z.to_nat (tail_ b - (off - bufpos_ b))))
                   = substr (buf_ b) (Z.to_nat (off - bufpos_ b))
                            (Z.to_nat (bufpos_ b + tail_ b - off))
                       ++ skipn (Z.to_nat (bufpos_ b + tail_ b - off)) (buf_ b)).
    { unfold splice. rewrite Hkept, Hsub. reflexivity. }
    rewrite Hbuf.
    split; [|split; [|split; [|split]]].
    + unfold Spec.compact. f_equal. f_equal; lia.
    + unfold Spec.buf_wf, Spec.buf_inv, Spec.compact.
      cbn [buf_ head_ tail_ cap_ bufpos_].
      repeat split; try lia.
      rewrite length_app, Hsub, length_skipn. lia.
    + cbn. lia.
    + cbn. lia.
    + unfold contents, Spec.bytes_between, Spec.compact.
      cbn [buf_ head_ tail_].
      rewrite Z.sub_0_r. unfold substr at 1. cbn [Z.to_nat skipn].
      rewrite firstn_app, Hsub, Nat.sub_diag, firstn_O, app_nil_r.
      rewrite firstn_all2 by (rewrite Hsub; lia).
      reflexivity.
  - (* no compaction *)
    split; [|split; [|split; [|split]]].
    + reflexivity.
    + unfold Spec.buf_wf, Spec.buf_inv, Spec.advance.
      cbn [buf_ head_ tail_ cap_ bufpos_]. repeat split; lia.
    + cbn. lia.
    + cbn. lia.
    + unfold contents, Spec.bytes_between, Spec.advance.
      cbn [buf_ head_ tail_]. f_equal. f_equal. lia.
Qed.

Lemma run_op_ok (b : jbuffer) (o : Spec.op) :
  Spec.buf_wf b -> Spec.op_ok b o ->
  exists b', Spec.run_op b o = Ok b' /\ Spec.buf_wf b'.
Proof.
  intros Hwf Hok. destruct o as [data|ch|from r|to off nw errno|off];
    cbn [Spec.run_op].
  - destruct (append_ok b data Hwf Hok) as (b' & H & W & _). eauto.
  - destruct (append_ch_ok b ch Hwf Hok) as (b' & H & W & _). eauto.
  - destruct (read_ok b from r Hwf Hok) as (any & b' & H & W).
    rewrite H. cbn [bind]. eauto.
  - destruct (write_ok b to off nw errno Hwf Hok) as (any & off' & b' & H & W).
    rewrite H. cbn [bind]. eauto.
  - destruct (consume_to_ok b off Hwf Hok) as (H & W & _). eauto.
Qed.

Lemma run_trace_ok (ops : list Spec.op) :
  forall b,
    Spec.buf_wf b -> Spec.ops_ok b ops ->
    exists states,
      Spec.run_trace b ops = Ok states /\ Forall Spec.buf_wf states.
Proof.
  induction ops as [|o ops IH]; intros b Hwf Hok.
  - exists []. split; [reflexivity|constructor].
  - destruct Hok as [Ho Hrest].
    destruct (run_op_ok b o Hwf Ho) as (b' & Hb' & Hwf').
    destruct (IH b' Hwf' (Hrest b' Hb')) as (states & Hs & Hall).
    exists (b' :: states). cbn [Spec.run_trace]. rewrite Hb'. cbn [bind].
    rewrite Hs. cbn [bind]. split; [reflexivity|].
    constructor; assumption.
Qed.

(** C9.  Along every sequence of operations whose offsets lie between
    [bufpos + head] and [bufpos + tail], [head <= tail <= cap] holds after
    every operation; [consume_to] compacts exactly when
    [tail >= 3 * cap / 4] (integer division), and whether it compacts or
    not the absolute positions [bufpos + head] (now [off]) and
    [bufpos + tail] and the bytes between them are the old ones. *)
Theorem jbuffer_invariant (b : jbuffer) :
  Spec.buf_wf b ->
  (forall ops,
      Spec.ops_ok b ops ->
      exists states,
        Spec.run_trace b ops = Ok states /\ Forall Spec.buf_inv states)
  /\ (forall off,
         Spec.op_ok b (Spec.ConsumeTo off) ->
         let b' := if 3 * cap_ b / 4 <=? tail_ b then Spec.compact b off
                   else Spec.advance b off in
         consume_to b off = Ok b'
         /\ bufpos_ b' + head_ b' = off
         /\ bufpos_ b' + tail_ b' = bufpos_ b + tail_ b
         /\ contents b' = Spec.bytes_between b off (bufpos_ b + tail_ b)).
Proof.
  intros Hwf. split.
  - intros ops Hok.
    destruct (run_trace_ok ops b Hwf Hok) as (states & Hs & Hall).
    exists states. split; [exact Hs|].
    eapply Forall_impl; [|exact Hall]. intros x Hx. apply Hx.
  - intros off Hok.
    destruct (consume_to_ok b off Hwf Hok) as (H1 & _ & H2 & H3 & H4).
    repeat split; assumption.
Qed.

Lemma jbuffer_new_wf (cap : Z) : 0 < cap < 2 ^ 64 -> Spec.buf_wf (jbuffer_new cap).
Proof.
  intros Hcap. unfold Spec.buf_wf, Spec.buf_inv, jbuffer_new.
  cbn [buf_ head_ tail_ cap_ bufpos_]. rewrite length_fresh.
  repeat split; try lia.
Qed.

Lemma jbuffer_invariant_witness :
  (forall ops,
      Spec.ops_ok (jbuffer_new 8192) ops ->
      exists states,
        Spec.run_trace (jbuffer_new 8192) ops = Ok states
        /\ Forall Spec.buf_inv states)
  /\ (forall off,
         Spec.op_ok (jbuffer_new 8192) (Spec.ConsumeTo off) ->
         let b' := if 3 * cap_ (jbuffer_new 8192) / 4
                        <=? tail_ (jbuffer_new 8192)
                   then Spec.compact (jbuffer_new 8192) off
                   else Spec.advance (jbuffer_new 8192) off in
         consume_to (jbuffer_new 8192) off = Ok b'
         /\ bufpos_ b' + head_ b' = off
         /\ bufpos_ b' + tail_ b' = bufpos_ (jbuffer_new 8192)
                                    + tail_ (jbuffer_new 8192)
         /\ contents b' = Spec.bytes_between (jbuffer_new 8192) off
                            (bufpos_ (jbuffer_new 8192)
                             + tail_ (jbuffer_new 8192))).
Proof.
  apply (jbuffer_invariant (jbuffer_new 8192)).
  apply jbuffer_new_wf. split; [lia|reflexivity].
Defined.

End BufferFacts.

(** ** JSON escaping *)

Module JsonDecide.
Import JBuffer JsonInv.

Lemma uc_range (c : ascii) : 0 <= uc c < 256.
Proof.
  unfold uc. pose proof (N_ascii_bounded c) as H. lia.
Qed.

Lemma uc_inj (a b : ascii) : uc a = uc b -> a = b.
Proof.
  unfold uc. intros H. apply N2Z.inj in H.
  rewrite <- (ascii_N_embedding a), <- (ascii_N_embedding b), H. reflexivity.
Qed.

Lemma ascii_eqb_uc (a b : ascii) : Ascii.eqb a b = (uc a =? uc b).
Proof.
  destruct (Ascii.eqb_spec a b) as [-> | Hne].
  - symmetry. apply Z.eqb_refl.
  - symmetry. apply Z.eqb_neq. intros H. apply Hne, uc_inj, H.
Qed.

Lemma nth_app_at (pre suf : str) (i : nat) :
  nth (length pre + i) (pre ++ suf) NUL = nth i suf NUL.
Proof.
  rewrite app_nth2 by lia. f_equal. lia.
Qed.

(** One turn of the loop. *)
Lemma json_loop_step (fuel : nat) (pre suf : str) (stop : nat) (b : jbuffer) :
  suf <> [] ->
  json_loop (S fuel) (pre ++ suf) (length pre) stop b
  = match decide suf with
    | Skip =>
        let* b1 := append_range b (pre ++ suf) stop (length pre) in
        let* b2 := append_ch b1 DEL in
        json_loop fuel (pre ++ suf) (S (length pre)) (S (length pre)) b2
    | Escape =>
        let* b1 := append_range b (pre ++ suf) stop (length pre) in
        let* b2 := append_ch b1 "\" in
        let* b3 := append_escape b2 (nth 0 suf NUL) (uc (nth 0 suf NUL)) in
        json_loop fuel (pre ++ suf) (S (length pre)) (S (length pre)) b3
    | Plain k => json_loop fuel (pre ++ suf) (length pre + k) stop b
    | Break => Ok (b, length pre, stop)
    end.
Proof.
  intros Hne. cbn [json_loop].
  replace (Nat.eqb (length pre) (length (pre ++ suf))) with false
    by (symmetry; apply Nat.eqb_neq; rewrite length_app;
        destruct suf; [contradiction Hne; reflexivity|simpl; lia]).
  replace (length (pre ++ suf) - length pre)%nat with (length suf)
    by (rewrite length_app; lia).
  rewrite !nth_app_at.
  replace (nth (length pre) (pre ++ suf) NUL) with (nth 0 suf NUL)
    by (rewrite <- (nth_app_at pre suf 0), Nat.add_0_r; reflexivity).
  unfold decide.
  repeat match goal with
         | |- (if ?c then _ else _) = match (if ?c then _ else _) with _ => _ end =>
             destruct c; [try reflexivity|]
         end.
  - rewrite Nat.add_1_r. reflexivity.
  - reflexivity.
Qed.

Ltac decide_cmp :=
  match goal with
  | |- context [?a <? ?b] =>
      first [ replace (a <? b) with true by (symmetry; apply Z.ltb_lt; lia)
            | replace (a <? b) with false by (symmetry; apply Z.ltb_ge; lia) ]
  | |- context [?a <=? ?b] =>
      first [ replace (a <=? b) with true by (symmetry; apply Z.leb_le; lia)
            | replace (a <=? b) with false by (symmetry; apply Z.leb_gt; lia) ]
  | |- context [?a >? ?b] =>
      first [ replace (a >? b) with true by (symmetry; apply Z.gtb_lt; lia)
            | replace (a >? b) with false
                by (symmetry; rewrite Z.gtb_ltb; apply Z.ltb_ge; lia) ]
  | |- context [?a =? ?b] =>
      first [ replace (a =? b) with true by (symmetry; apply Z.eqb_eq; lia)
            | replace (a =? b) with false by (symmetry; apply Z.eqb_neq; lia) ]
  end.

Ltac split_cmp :=
  match goal with
  | |- context [?a <? ?b] => destruct (Z.ltb_spec a b)
  | |- context [?a <=? ?b] => destruct (Z.leb_spec a b)
  | |- context [?a >? ?b] => rewrite (Z.gtb_ltb a b)
  | |- context [?a =? ?b] => destruct (Z.eqb_spec a b)
  end.

Ltac crush :=
  repeat first [ progress cbn [andb orb negb Nat.eqb]
               | reflexivity
               | decide_cmp
               | split_cmp ].

(** The tests of the loop choose as the specification does. *)
Lemma decide_classify (suf : str) : suf <> [] -> decide suf = classify suf.
Proof.
  intros Hne. destruct suf as [|a rest]; [contradiction Hne; reflexivity|].
  unfold decide, classify, Spec.wf_len, Spec.needs_escape.
  rewrite !ascii_eqb_uc.
  change (uc "\") with 92. change (uc DQUOTE) with 34.
  pose proof (uc_range a) as Ha.
  destruct rest as [|b rest].
  { cbn [nth firstn length Spec.well_formed Spec.truncated].
    unfold Spec.in_range. set (x := uc a) in *. clearbody x. crush. }
  pose proof (uc_range b) as Hb.
  destruct rest as [|c rest].
  { cbn [nth firstn length Spec.well_formed Spec.truncated].
    unfold Spec.lead3, Spec.lead4, Spec.cont, Spec.in_range.
    set (x := uc a) in *. set (y := uc b) in *. clearbody x y. crush. }
  pose proof (uc_range c) as Hc.
  destruct rest as [|d rest].
  { cbn [nth firstn length Spec.well_formed Spec.truncated].
    unfold Spec.lead3, Spec.lead4, Spec.cont, Spec.in_range.
    set (x := uc a) in *. set (y := uc b) in *. set (z := uc c) in *.
    clearbody x y z. crush. }
  pose proof (uc_range d) as Hd.
  cbn [nth firstn length Spec.well_formed Spec.truncated].
  unfold Spec.lead3, Spec.lead4, Spec.cont, Spec.in_range.
  set (x := uc a) in *. set (y := uc b) in *. set (z := uc c) in *.
  set (t := uc d) in *. clearbody x y z t. crush.
Qed.

Ltac to_arith :=
  unfold Spec.lead3, Spec.lead4, Spec.cont, Spec.in_range in *;
  repeat rewrite ?andb_true_iff, ?orb_true_iff, ?Z.leb_le, ?Z.eqb_eq in *.

(** A proper prefix of a well-formed sequence is cut short, *)
Lemma truncated_prefix (s t : str) :
  s <> [] -> t <> [] ->
  Spec.well_formed (s ++ t) = true -> Spec.truncated s = true.
Proof.
  intros Hs Ht.
  destruct s as [|a [|b [|c [|d s]]]]; [contradiction Hs; reflexivity| | | |];
    destruct t as [|e [|f [|g [|h t]]]];
    try (contradiction Ht; reflexivity);
    cbn [app Spec.well_formed Spec.truncated]; try discriminate;
    try (destruct s; discriminate);
    intros H; to_arith; lia.
Qed.

(** and a sequence cut short can be completed to a well-formed one. *)
Lemma truncated_completes (s : str) :
  Spec.truncated s = true ->
  exists t, t <> [] /\ Spec.well_formed (s ++ t) = true.
Proof.
  pose (k := ascii_of_N 128).
  assert (Hk : uc k = 128) by reflexivity.
  destruct s as [|a [|b [|c [|d s]]]]; cbn [Spec.truncated];
    try discriminate; intros H.
  - destruct (uc a <=? 223) eqn:E2;
      [exists [k]; split; [discriminate|];
       cbn [app Spec.well_formed]; to_arith; rewrite Hk; lia|].
    destruct (uc a =? 224) eqn:E3;
      [exists [ascii_of_N 160; k]; split; [discriminate|];
       cbn [app Spec.well_formed]; to_arith; rewrite Hk;
       change (uc (ascii_of_N 160)) with 160; lia|].
    destruct (uc a <=? 239) eqn:E4;
      [exists [k; k]; split; [discriminate|];
       cbn [app Spec.well_formed]; to_arith; rewrite Hk;
       apply Z.leb_gt in E2; apply Z.eqb_neq in E3; lia|].
    destruct (uc a =? 240) eqn:E5;
      [exists [ascii_of_N 144; k; k]; split; [discriminate|];
       cbn [app Spec.well_formed]; to_arith; rewrite Hk;
       change (uc (ascii_of_N 144)) with 144; lia|].
    exists [k; k; k]. split; [discriminate|].
    cbn [app Spec.well_formed]. to_arith. rewrite Hk.
    apply Z.leb_gt in E2, E4. apply Z.eqb_neq in E3, E5. lia.
  - apply orb_true_iff in H. destruct H as [H | H].
    + exists [k]. split; [discriminate|].
      cbn [app Spec.well_formed]. rewrite H. reflexivity.
    + exists [k; k]. split; [discriminate|].
      cbn [app Spec.well_formed]. rewrite H. reflexivity.
  - exists [k]. split; [discriminate|].
    cbn [app Spec.well_formed]. rewrite H. reflexivity.
Qed.

End JsonDecide.

Module JsonFacts.
Import JBuffer BufferInv JsonInv JsonDecide.
Import BufferFacts.

Lemma extends_refl (b : jbuffer) : Spec.buf_wf b -> extends b b [].
Proof.
  intros Hwf. unfold extends. rewrite app_nil_r. simpl.
  split; [exact Hwf|]. repeat split; lia.
Qed.

Lemma extends_tail (b b' : jbuffer) (data : str) :
  extends b b' data -> tail_ b' = tail_ b + Z.of_nat (length data).
Proof. intros (_ & T & _). exact T. Qed.

Lemma extends_wf (b b' : jbuffer) (data : str) :
  extends b b' data -> Spec.buf_wf b'.
Proof. intros (W & _). exact W. Qed.

(** The escape written by the loop is the escape of the
    specification. *)
Lemma append_escape_ok (b : jbuffer) (ch : ascii) :
  Spec.buf_wf b ->
  tail_ b + 6 <= 2 ^ 62 ->
  exists b1 b2,
    append_ch b "\" = Ok b1
    /\ append_escape b1 ch (uc ch) = Ok b2
    /\ extends b b2 (Spec.escape_of ch)
    /\ (length (Spec.escape_of ch) <= 6)%nat.
Proof.
  intros Hwf Hfit.
  destruct (append_ch_ok b "\" Hwf ltac:(pows; lia)) as (b1 & H1 & E1).
  exists b1. rewrite H1.
  pose proof (extends_wf _ _ _ E1) as W1.
  pose proof (extends_tail _ _ _ E1) as T1. simpl in T1.
  assert (Hone : forall x,
             exists b2, append_ch b1 x = Ok b2 /\ extends b b2 ["\"%char; x]).
  { intros x. destruct (append_ch_ok b1 x W1 ltac:(pows; lia)) as (b2 & H2 & E2).
    exists b2. split; [exact H2|].
    apply (extends_trans b b1 b2 ["\"%char] [x] E1 E2). }
  unfold append_escape, Spec.escape_of.
  destruct (uc ch =? 8).
  { destruct (Hone "b"%char) as (b2 & H2 & E2). exists b2.
    split; [reflexivity|]. split; [exact H2|]. split; [exact E2|simpl; lia]. }
  destruct (uc ch =? 12).
  { destruct (Hone "f"%char) as (b2 & H2 & E2). exists b2.
    split; [reflexivity|]. split; [exact H2|]. split; [exact E2|simpl; lia]. }
  destruct (uc ch =? 10).
  { destruct (Hone "n"%char) as (b2 & H2 & E2). exists b2.
    split; [reflexivity|]. split; [exact H2|]. split; [exact E2|simpl; lia]. }
  destruct (uc ch =? 13).
  { destruct (Hone "r"%char) as (b2 & H2 & E2). exists b2.
    split; [reflexivity|]. split; [exact H2|]. split; [exact E2|simpl; lia]. }
  destruct (uc ch =? 9).
  { destruct (Hone "t"%char) as (b2 & H2 & E2). exists b2.
    split; [reflexivity|]. split; [exact H2|]. split; [exact E2|simpl; lia]. }
  rewrite Z.geb_leb.
  destruct (32 <=? uc ch).
  { destruct (Hone ch) as (b2 & H2 & E2). exists b2.
    split; [reflexivity|]. split; [exact H2|]. split; [exact E2|simpl; lia]. }
  destruct (Hone "u"%char) as (b2 & H2 & E2).
  pose proof (extends_wf _ _ _ E2) as W2.
  pose proof (extends_tail _ _ _ E2) as T2. simpl in T2.
  rewrite H2. cbn [bind].
  destruct (append_ch_ok b2 "0" W2 ltac:(pows; lia)) as (b3 & H3 & E3).
  pose proof (extends_wf _ _ _ E3) as W3.
  pose proof (extends_tail _ _ _ E3) as T3. simpl in T3.
  rewrite H3. cbn [bind].
  destruct (append_ch_ok b3 "0" W3 ltac:(pows; lia)) as (b4 & H4 & E4).
  pose proof (extends_wf _ _ _ E4) as W4.
  pose proof (extends_tail _ _ _ E4) as T4. simpl in T4.
  rewrite H4. cbn [bind].
  destruct (append_ch_ok b4 (nth (Z.to_nat (uc ch / 16)) hex NUL) W4
                         ltac:(pows; lia)) as (b5 & H5 & E5).
  pose proof (extends_wf _ _ _ E5) as W5.
  pose proof (extends_tail _ _ _ E5) as T5. simpl in T5.
  rewrite H5. cbn [bind].
  destruct (append_ch_ok b5 (nth (Z.to_nat (uc ch mod 16)) hex NUL) W5
                         ltac:(pows; lia)) as (b6 & H6 & E6).
  exists b6. split; [reflexivity|]. split; [exact H6|]. split; [|simpl; lia].
  pose proof (extends_trans _ _ _ _ _ E2 E3) as X3.
  pose proof (extends_trans _ _ _ _ _ X3 E4) as X4.
  pose proof (extends_trans _ _ _ _ _ X4 E5) as X5.
  pose proof (extends_trans _ _ _ _ _ X5 E6) as X6.
  exact X6.
Qed.

Lemma wf_len_bounds (l : str) (k : nat) :
  Spec.wf_len l = Some k ->
  (1 <= k <= 4)%nat /\ (k <= length l)%nat
  /\ Spec.well_formed (firstn k l) = true.
Proof.
  unfold Spec.wf_len.
  destruct l as [|a [|b [|c [|d l]]]]; cbn [firstn length];
    repeat match goal with
           | |- context [if ?w then _ else _] => destruct w eqn:?
           end;
    intros H; inversion H; subst; cbn [firstn];
    repeat split; try lia; try assumption;
    match goal with
    | E : Spec.well_formed [] = true |- _ => discriminate E
    end.
Qed.

Lemma pieces_left_le (m : nat) :
  forall l, (length (snd (Spec.pieces m l)) <= length l)%nat.
Proof.
  induction m as [|m IH]; intros l; [simpl; lia|].
  cbn [Spec.pieces]. destruct l as [|a rest]; [simpl; lia|].
  destruct (Spec.wf_len (a :: rest)) as [k|] eqn:Hk.
  - specialize (IH (skipn k (a :: rest))).
    destruct (Spec.pieces m (skipn k (a :: rest))) as [ps left].
    cbn [snd] in *. rewrite length_skipn in IH. lia.
  - destruct (Spec.truncated (a :: rest)); [simpl; lia|].
    specialize (IH rest). destruct (Spec.pieces m rest) as [ps left].
    cbn [snd length] in *. lia.
Qed.

Lemma render_long (w : str) :
  (2 <= length w)%nat -> Spec.render (Spec.Good w) = w.
Proof.
  destruct w as [|a [|b w]]; simpl; try lia. reflexivity.
Qed.

(** After a flush and the bytes [x] written for the first byte of
    [a :: rest], the run over [rest] gives the run over [a :: rest]. *)
Lemma loop_result_flush (pre rest : str) (a : ascii) (stop : nat)
    (b b2 : jbuffer) (x : str) (m : nat) (p : Spec.piece)
    (r : result (jbuffer * nat * nat)) :
  (stop <= length pre)%nat ->
  (1 <= length x <= 6)%nat ->
  extends b b2 (skipn stop pre ++ x) ->
  Spec.pieces (S m) (a :: rest)
  = (p :: fst (Spec.pieces m rest), snd (Spec.pieces m rest)) ->
  Spec.render p = x ->
  loop_result (pre ++ [a]) rest (S (length pre)) b2 m r ->
  loop_result pre (a :: rest) stop b (S m) r.
Proof.
  intros Hstop Hx Hext Hp Hr (b3 & stop' & emitted & Hres & Hle & He & Heq & Hb).
  unfold loop_result in *. rewrite Hp. cbn [fst snd].
  rewrite length_app in *. cbn [length] in *.
  pose proof (pieces_left_le m rest) as Hleft.
  replace (length pre + S (length rest)
           - length (snd (Spec.pieces m rest)))%nat
    with (length pre + 1 + length rest
          - length (snd (Spec.pieces m rest)))%nat by lia.
  exists b3, stop', ((skipn stop pre ++ x) ++ emitted).
  split; [exact Hres|]. split; [exact Hle|].
  split; [exact (extends_trans _ _ _ _ _ Hext He)|].
  split.
  - rewrite <- (app_assoc pre [a] rest) in Heq. cbn [app] in Heq.
    rewrite <- !app_assoc. rewrite Heq.
    replace (skipn (S (length pre)) (pre ++ [a])) with (@nil ascii)
      by (symmetry; apply skipn_all2; rewrite length_app; simpl; lia).
    cbn [app flat_map]. rewrite Hr. reflexivity.
  - rewrite !length_app. rewrite length_skipn.
    replace (length pre + 1 - S (length pre))%nat with O in Hb by lia.
    lia.
Qed.

(** The same when the first [k] bytes of [suf] are left pending. *)
Lemma loop_result_plain (pre suf : str) (k : nat) (stop : nat)
    (b : jbuffer) (m : nat) (r : result (jbuffer * nat * nat)) :
  (stop <= length pre)%nat ->
  (1 <= k <= length suf)%nat ->
  Spec.pieces (S m) suf
  = (Spec.Good (firstn k suf) :: fst (Spec.pieces m (skipn k suf)),
     snd (Spec.pieces m (skipn k suf))) ->
  Spec.render (Spec.Good (firstn k suf)) = firstn k suf ->
  loop_result (pre ++ firstn k suf) (skipn k suf) stop b m r ->
  loop_result pre suf stop b (S m) r.
Proof.
  intros Hstop Hk Hp Hr (b3 & stop' & emitted & Hres & Hle & He & Heq & Hb).
  unfold loop_result in *. rewrite Hp. cbn [fst snd].
  rewrite length_app, length_firstn, length_skipn in *.
  rewrite <- app_assoc, firstn_skipn in Heq.
  pose proof (pieces_left_le m (skipn k suf)) as Hleft.
  rewrite length_skipn in Hleft.
  replace (length pre + Nat.min k (length suf) + (length suf - k)
           - length (snd (Spec.pieces m (skipn k suf))))%nat
    with (length pre + length suf
          - length (snd (Spec.pieces m (skipn k suf))))%nat in * by lia.
  exists b3, stop', emitted.
  split; [exact Hres|]. split; [exact Hle|]. split; [exact He|].
  split.
  - rewrite Heq. rewrite skipn_app.
    replace (stop - length pre)%nat with O by lia.
    rewrite skipn_O. cbn [flat_map]. rewrite Hr.
    rewrite <- !app_assoc. reflexivity.
  - lia.
Qed.

Lemma escape_of_length (c : ascii) :
  (1 <= length (Spec.escape_of c) <= 6)%nat.
Proof.
  unfold Spec.escape_of.
  repeat match goal with
         | |- context [if ?t then _ else _] => destruct t
         end; simpl; lia.
Qed.

(** [append(stop, first)] appends the pending bytes. *)
Lemma flush_ok (b : jbuffer) (pre suf : str) (stop : nat) :
  Spec.buf_wf b -> (stop <= length pre)%nat ->
  tail_ b + Z.of_nat (length pre - stop) <= 2 ^ 62 ->
  exists b1,
    append_range b (pre ++ suf) stop (length pre) = Ok b1
    /\ extends b b1 (skipn stop pre).
Proof.
  intros Hwf Hstop Hfit. unfold append_range.
  rewrite QuoteFacts.substr_prefix by exact Hstop.
  apply append_ok; [exact Hwf|]. rewrite length_skipn. exact Hfit.
Qed.

(** The loop of [append_json_chars] appends what the specification says
    for the pieces of the input, up to the pending bytes. *)
Lemma json_loop_spec (n : nat) :
  forall suf pre stop b fuel m,
    (length suf <= n)%nat -> (length suf <= fuel)%nat ->
    (length suf <= m)%nat ->
    (stop <= length pre)%nat ->
    Spec.buf_wf b ->
    tail_ b + Z.of_nat (length pre - stop) + 6 * Z.of_nat (length suf)
      <= 2 ^ 62 ->
    loop_result pre suf stop b m
                (json_loop fuel (pre ++ suf) (length pre) stop b).
Proof.
  induction n as [|n IH]; intros suf pre stop b fuel m Hn Hfuel Hm Hstop Hwf Hfit.
  { destruct suf; [|simpl in Hn; lia].
    assert (Hr : json_loop fuel (pre ++ []) (length pre) stop b
                 = Ok (b, length pre, stop)).
    { destruct fuel; cbn [json_loop]; rewrite app_nil_r, Nat.eqb_refl;
        reflexivity. }
    rewrite Hr. unfold loop_result.
    assert (Hp : Spec.pieces m [] = ([], [])) by (destruct m; reflexivity).
    rewrite Hp. cbn [fst snd length flat_map].
    rewrite Nat.add_0_r, Nat.sub_0_r.
    exists b, stop, []. split; [reflexivity|]. split; [exact Hstop|].
    split; [apply extends_refl; exact Hwf|]. split.
    - cbn [app]. rewrite QuoteFacts.substr_prefix by exact Hstop.
      rewrite app_nil_r. reflexivity.
    - simpl. lia. }
  destruct suf as [|a rest].
  { apply (IH [] pre stop b fuel m); simpl; try lia; assumption. }
  cbn [length] in Hn, Hfuel, Hm, Hfit.
  destruct fuel as [|fuel]; [lia|]. destruct m as [|m]; [lia|].
  rewrite json_loop_step by discriminate.
  rewrite decide_classify by discriminate.
  unfold classify. cbn [nth].
  (* the run over the rest, after the first byte has been dealt with *)
  assert (Hnext : forall b2,
             Spec.buf_wf b2 ->
             tail_ b2 + 6 * Z.of_nat (length rest) <= 2 ^ 62 ->
             loop_result (pre ++ [a]) rest (S (length pre)) b2 m
               (json_loop fuel (pre ++ a :: rest) (S (length pre))
                          (S (length pre)) b2)).
  { intros b2 W2 F2.
    pose proof (IH rest (pre ++ [a]) (S (length pre)) b2 fuel m) as H.
    rewrite <- app_assoc, length_app in H. cbn [app length] in H.
    rewrite Nat.add_1_r in H. apply H; try lia; try assumption. }
  (* a flush followed by the bytes [x] *)
  assert (Hflush : forall x p b1 b2,
             extends b b1 (skipn stop pre) -> extends b1 b2 x ->
             (1 <= length x <= 6)%nat ->
             Spec.pieces (S m) (a :: rest)
             = (p :: fst (Spec.pieces m rest), snd (Spec.pieces m rest)) ->
             Spec.render p = x ->
             loop_result pre (a :: rest) stop b (S m)
               (json_loop fuel (pre ++ a :: rest) (S (length pre))
                          (S (length pre)) b2)).
  { intros x p b1 b2 E1 E2 Hx Hp Hr.
    pose proof (extends_trans _ _ _ _ _ E1 E2) as E.
    apply (loop_result_flush pre rest a stop b b2 x m p); try assumption.
    apply Hnext; [exact (extends_wf _ _ _ E)|].
    rewrite (extends_tail _ _ _ E), length_app, length_skipn. lia. }
  destruct (flush_ok b pre (a :: rest) stop Hwf Hstop ltac:(pows; lia))
    as (b1 & Hb1 & E1).
  pose proof (extends_wf _ _ _ E1) as W1.
  pose proof (extends_tail _ _ _ E1) as T1. rewrite length_skipn in T1.
  destruct (append_ch_ok b1 DEL W1 ltac:(pows; lia)) as (bd & Hbd & Ed).
  destruct (Spec.wf_len (a :: rest)) as [k|] eqn:Hk.
  - destruct (wf_len_bounds _ _ Hk) as (Hk14 & Hkl & Hwfk).
    assert (Hp : Spec.pieces (S m) (a :: rest)
                 = (Spec.Good (firstn k (a :: rest))
                      :: fst (Spec.pieces m (skipn k (a :: rest))),
                    snd (Spec.pieces m (skipn k (a :: rest))))).
    { cbn [Spec.pieces]. rewrite Hk.
      destruct (Spec.pieces m (skipn k (a :: rest))); reflexivity. }
    assert (Hplain : Spec.render (Spec.Good (firstn k (a :: rest)))
                     = firstn k (a :: rest) ->
                     loop_result pre (a :: rest) stop b (S m)
                       (json_loop fuel (pre ++ a :: rest) (length pre + k)
                                  stop b)).
    { intros Hr.
      apply (loop_result_plain pre (a :: rest) k stop b m); try assumption;
        [cbn [length] in *; lia|].
      pose proof (IH (skipn k (a :: rest)) (pre ++ firstn k (a :: rest))
                     stop b fuel m) as H.
      rewrite <- app_assoc, firstn_skipn, length_app, length_firstn in H.
      replace (Nat.min k (length (a :: rest))) with k in H by lia.
      apply H; try assumption; rewrite ?length_skipn; cbn [length] in *;
        pows; lia. }
    destruct k as [|[|k]]; [lia| |].
    + cbn [firstn skipn] in Hp.
      destruct (uc a =? 0) eqn:E0.
      * (* a NUL *)
        rewrite Hb1. cbn [bind]. rewrite Hbd. cbn [bind].
        apply (Hflush [DEL] (Spec.Good [a]) b1 bd E1 Ed);
          [simpl; lia|exact Hp|].
        cbn [Spec.render]. rewrite E0. reflexivity.
      * destruct (Spec.needs_escape a) eqn:Eesc.
        -- (* a byte to escape *)
           destruct (append_escape_ok b1 a W1 ltac:(pows; lia))
             as (b2 & b3 & H2 & H3 & E3 & _).
           rewrite Hb1. cbn [bind]. rewrite H2. cbn [bind].
           rewrite H3. cbn [bind].
           apply (Hflush (Spec.escape_of a) (Spec.Good [a]) b1 b3 E1 E3);
             [apply escape_of_length|exact Hp|].
           cbn [Spec.render]. rewrite E0, Eesc. reflexivity.
        -- (* a plain byte *)
           apply Hplain. cbn [firstn Spec.render]. rewrite E0, Eesc.
           reflexivity.
    + (* a longer sequence *)
      apply Hplain. apply render_long. rewrite length_firstn. cbn [length] in *. lia.
  - destruct (Spec.truncated (a :: rest)) eqn:Etr.
    + (* a sequence cut short: the loop stops *)
      unfold loop_result. cbn [Spec.pieces]. rewrite Hk, Etr.
      cbn [fst snd flat_map].
      replace (length pre + length (a :: rest) - length (a :: rest))%nat
        with (length pre) by lia.
      exists b, stop, []. split; [reflexivity|]. split; [exact Hstop|].
      split; [apply extends_refl; exact Hwf|]. split.
      * cbn [app]. rewrite QuoteFacts.substr_prefix by exact Hstop.
        rewrite app_nil_r. reflexivity.
      * simpl. lia.
    + (* an offending byte *)
      rewrite Hb1. cbn [bind]. rewrite Hbd. cbn [bind].
      apply (Hflush [DEL] (Spec.Bad a) b1 bd E1 Ed); [simpl; lia| |reflexivity].
      cbn [Spec.pieces]. rewrite Hk, Etr.
      destruct (Spec.pieces m rest); reflexivity.
Qed.

(** *** The pieces of the specification *)

Lemma pieces_sound (m : nat) :
  forall l,
    (length l <= m)%nat ->
    concat (map Spec.piece_bytes (fst (Spec.pieces m l)))
      ++ snd (Spec.pieces m l) = l
    /\ forallb Spec.piece_ok (fst (Spec.pieces m l)) = true
    /\ (snd (Spec.pieces m l) = []
        \/ Spec.truncated (snd (Spec.pieces m l)) = true).
Proof.
  induction m as [|m IH]; intros l Hl.
  { destruct l; [|simpl in Hl; lia]. simpl. auto. }
  cbn [Spec.pieces]. destruct l as [|a rest]; [simpl; auto|].
  destruct (Spec.wf_len (a :: rest)) as [k|] eqn:Hk.
  - destruct (wf_len_bounds _ _ Hk) as (Hk14 & Hkl & Hwfk).
    destruct (IH (skipn k (a :: rest))) as (H1 & H2 & H3).
    { rewrite length_skipn. cbn [length] in *. lia. }
    destruct (Spec.pieces m (skipn k (a :: rest))) as [ps left].
    cbn [fst snd map concat forallb Spec.piece_bytes Spec.piece_ok] in *.
    rewrite Hwfk, H2. split; [|split; [reflexivity|exact H3]].
    rewrite <- app_assoc, H1. apply firstn_skipn.
  - destruct (Spec.truncated (a :: rest)) eqn:Etr.
    + cbn [fst snd map concat forallb app]. auto.
    + destruct (IH rest) as (H1 & H2 & H3); [simpl in Hl; lia|].
      destruct (Spec.pieces m rest) as [ps left].
      cbn [fst snd map concat forallb Spec.piece_bytes Spec.piece_ok app] in *.
      rewrite H1, H2. auto.
Qed.

(** *** No byte below [0x20] *)

Lemma hex_printable (n : nat) :
  (n < 16)%nat -> printable (nth n hex NUL).
Proof.
  intros Hn. unfold printable.
  do 16 (destruct n as [|n]; [vm_compute; discriminate|]).
  lia.
Qed.

Lemma escape_printable (c : ascii) : Forall printable (Spec.escape_of c).
Proof.
  pose proof (uc_range c) as Hc.
  unfold Spec.escape_of.
  repeat match goal with
         | |- context [if ?t then _ else _] => destruct t eqn:?
         end;
    try (repeat constructor; vm_compute; discriminate).
  - repeat constructor; [vm_compute; discriminate|].
    unfold printable. apply Z.leb_le. assumption.
  - assert (H1 : (Z.to_nat (uc c / 16) < 16)%nat).
    { assert (uc c / 16 < 16) by (apply Z.div_lt_upper_bound; lia).
      assert (0 <= uc c / 16) by (apply Z.div_pos; lia). lia. }
    assert (H2 : (Z.to_nat (uc c mod 16) < 16)%nat).
    { pose proof (Z.mod_pos_bound (uc c) 16 ltac:(pows; lia)). lia. }
    cbn [lit list_ascii_of_string app].
    repeat constructor; try (vm_compute; discriminate);
      apply hex_printable; assumption.
Qed.

Lemma render_printable (p : Spec.piece) :
  Spec.piece_ok p = true -> Forall printable (Spec.render p).
Proof.
  destruct p as [w|c]; cbn [Spec.piece_ok Spec.render].
  - destruct w as [|a [|b [|c [|d [|e w]]]]]; cbn [Spec.well_formed];
      try discriminate.
    + intros _.
      destruct (uc a =? 0); [repeat constructor; vm_compute; discriminate|].
      destruct (Spec.needs_escape a) eqn:E; [apply escape_printable|].
      unfold Spec.needs_escape in E.
      apply orb_false_iff in E. destruct E as [E _].
      apply orb_false_iff in E. destruct E as [E _].
      apply Z.ltb_ge in E. repeat constructor. exact E.
    + unfold Spec.cont, Spec.in_range. intros H.
      repeat (apply andb_true_iff in H; destruct H as [H ?]).
      repeat match goal with
             | E : (_ <=? _) = true |- _ => apply Z.leb_le in E
             end.
      repeat constructor; unfold printable; lia.
    + unfold Spec.lead3, Spec.cont, Spec.in_range. intros H.
      pose proof (uc_range a). pose proof (uc_range b). pose proof (uc_range c).
      apply andb_true_iff in H. destruct H as [H Hc].
      apply andb_true_iff in Hc. destruct Hc as [Hc _].
      apply Z.leb_le in Hc.
      assert (128 <= uc a /\ 128 <= uc b); [|repeat constructor; unfold printable; lia].
      revert H. generalize (uc a) (uc b). intros x y.
      repeat match goal with
             | |- context [?u <=? ?v] => destruct (Z.leb_spec u v)
             | |- context [?u =? ?v] => destruct (Z.eqb_spec u v)
             end; cbn [andb orb]; intros Hf; try discriminate Hf; lia.
    + unfold Spec.lead4, Spec.cont, Spec.in_range. intros H.
      apply andb_true_iff in H. destruct H as [H Hd].
      apply andb_true_iff in H. destruct H as [H Hc].
      apply andb_true_iff in Hc. destruct Hc as [Hc _].
      apply andb_true_iff in Hd. destruct Hd as [Hd _].
      apply Z.leb_le in Hc. apply Z.leb_le in Hd.
      assert (128 <= uc a /\ 128 <= uc b); [|repeat constructor; unfold printable; lia].
      revert H. generalize (uc a) (uc b). intros x y.
      repeat match goal with
             | |- context [?u <=? ?v] => destruct (Z.leb_spec u v)
             | |- context [?u =? ?v] => destruct (Z.eqb_spec u v)
             end; cbn [andb orb]; intros Hf; try discriminate Hf; lia.
  - intros _. repeat constructor. vm_compute. discriminate.
Qed.

Lemma json_output_printable (input : str) :
  Forall printable (Spec.json_output input).
Proof.
  unfold Spec.json_output.
  destruct (pieces_sound (length input) input (le_n _)) as (_ & Hok & _).
  induction (fst (Spec.pieces (length input) input)) as [|p ps IH];
    [constructor|].
  cbn [forallb] in Hok. apply andb_true_iff in Hok. destruct Hok as [Hp Hps].
  cbn [flat_map]. apply Forall_app. split.
  - apply render_printable. exact Hp.
  - apply IH. exact Hps.
Qed.

(** C8.  [append_json_chars] appends, for the well-formed UTF-8
    sequences and the offending bytes the input is made of, in order:
    the byte [0x7F] for every NUL and for every byte that is not part of
    a well-formed sequence, the JSON escape for every other control
    character, backslash and double quote, and every other well-formed
    sequence unchanged.  No byte appended is less than [0x20].  The
    position returned is that of the first byte of a trailing sequence
    cut short, or the end of the input. *)
Theorem append_json_chars_spec (b : jbuffer) (input : str) :
  Spec.buf_wf b ->
  tail_ b + 6 * Z.of_nat (length input) <= 2 ^ 62 ->
  exists b',
    append_json_chars b input = Ok (b', Spec.json_consumed input)
    /\ written b' = written b ++ Spec.json_output input
    /\ head_ b' = head_ b /\ bufpos_ b' = bufpos_ b
    /\ Forall (fun c => 32 <= uc c) (Spec.json_output input)
    /\ (let ps := fst (Spec.pieces (length input) input) in
        let left := skipn (Spec.json_consumed input) input in
        concat (map Spec.piece_bytes ps) ++ left = input
        /\ forallb Spec.piece_ok ps = true
        /\ (left = [] \/ Spec.truncated left = true)).
Proof.
  intros Hwf Hfit.
  pose proof (json_loop_spec (length input) input [] 0 b (length input)
                             (length input) (le_n _) (le_n _) (le_n _)
                             (le_n _) Hwf) as H.
  cbn [app length] in H.
  destruct H as (b1 & stop' & emitted & Hres & Hle & He & Heq & Hb).
  { rewrite Nat.sub_0_r. change (Z.of_nat 0) with 0. rewrite Z.add_0_r.
    exact Hfit. }
  cbn [skipn app] in Heq. fold (Spec.json_output input) in Heq.
  cbn [length Nat.add] in Hres, Hle, Heq, Hb.
  fold (Spec.json_consumed input) in Hres, Hle, Heq, Hb.
  unfold append_json_chars. rewrite Hres. cbn [bind].
  unfold append_range.
  destruct (append_ok b1 (substr input stop'
                                 (Spec.json_consumed input - stop'))
                      (extends_wf _ _ _ He)) as (b2 & H2 & E2).
  { rewrite (extends_tail _ _ _ He).
    assert (length (substr input stop' (Spec.json_consumed input - stop'))
            <= Spec.json_consumed input - stop')%nat.
    { unfold substr. rewrite length_firstn. lia. }
    change (Z.of_nat 0) with 0 in Hb. pows. lia. }
  rewrite H2. cbn [bind].
  pose proof (extends_trans _ _ _ _ _ He E2) as E. rewrite Heq in E.
  destruct E as (W & T & Hh & Hp & Hw & Hc).
  exists b2. split; [reflexivity|]. split; [exact Hw|].
  split; [exact Hh|]. split; [exact Hp|].
  split; [apply json_output_printable|].
  destruct (pieces_sound (length input) input (le_n _)) as (P1 & P2 & P3).
  pose proof (pieces_left_le (length input) input) as Hleft.
  assert (Hskip : skipn (Spec.json_consumed input) input
                  = snd (Spec.pieces (length input) input)).
  { unfold Spec.json_consumed.
    remember (Spec.pieces (length input) input) as pr eqn:Hpr.
    set (C := concat (map Spec.piece_bytes (fst pr))) in *.
    assert (Hlen : length C = (length input - length (snd pr))%nat).
    { apply (f_equal (@length _)) in P1. rewrite length_app in P1. lia. }
    rewrite <- Hlen.
    transitivity (skipn (length C) (C ++ snd pr)).
    - f_equal. symmetry. exact P1.
    - rewrite skipn_app, skipn_all, Nat.sub_diag. reflexivity. }
  cbv zeta. rewrite Hskip. auto.
Qed.

Lemma append_json_chars_spec_witness :
  let b := jbuffer_new 4096 in
  let input := lit "a\b" in
  exists b',
    append_json_chars b input = Ok (b', Spec.json_consumed input)
    /\ written b' = written b ++ Spec.json_output input
    /\ head_ b' = head_ b /\ bufpos_ b' = bufpos_ b
    /\ Forall (fun c => 32 <= uc c) (Spec.json_output input)
    /\ (let ps := fst (Spec.pieces (length input) input) in
        let left := skipn (Spec.json_consumed input) input in
        concat (map Spec.piece_bytes ps) ++ left = input
        /\ forallb Spec.piece_ok ps = true
        /\ (left = [] \/ Spec.truncated left = true)).
Proof.
  intros b input.
  apply (append_json_chars_spec b input).
  - apply jbuffer_new_wf. split; [lia|reflexivity].
  - simpl. pows. lia.
Defined.

End JsonFacts.

(** * Theorems on the further parts *)

(** ** Pathname helpers *)

Module PathnameFacts.
Import Path Pathname.

Lemma back_snoc (q : str) (c : ascii) : back (q ++ [c]) = c.
Proof. unfold back. apply last_last. Qed.

Lemma snoc_cases (s : str) : s = [] \/ exists q c, s = q ++ [c].
Proof.
  destruct s as [|x s]; [left; reflexivity|right].
  exists (removelast (x :: s)), (last (x :: s) NUL).
  apply app_removelast_last. discriminate.
Qed.

Lemma noendslash_loop_spec (fuel : nat) :
  forall path,
    (length path <= fuel)%nat ->
    exists r k,
      noendslash_loop fuel path = Ok r
      /\ path = r ++ repeat "/"%char k
      /\ ((length r <= 1)%nat \/ back r <> "/"%char)
      /\ (path <> [] -> r <> []).
Proof.
  induction fuel as [|fuel IH]; intros path Hlen.
  - destruct path; [|simpl in Hlen; lia].
    exists [], 0%nat. cbn. repeat split; auto.
  - cbn [noendslash_loop].
    destruct (Nat.ltb_spec 1 (length path)) as [Hlong | Hshort]; cbn [andb].
    + destruct (Ascii.eqb_spec (back path) "/") as [Hb | Hb].
      * destruct (snoc_cases path) as [-> | (q & c & ->)];
          [simpl in Hlong; lia|].
        rewrite back_snoc in Hb. subst c.
        rewrite length_app in Hlong |- *. cbn [length] in Hlong |- *.
        unfold substr. cbn [skipn].
        replace (length q + 1 - 1)%nat with (length q) by lia.
        rewrite firstn_app, firstn_all, Nat.sub_diag. cbn [firstn].
        rewrite app_nil_r.
        destruct (IH q) as (r & k & Hr & Hq & Hend & Hne);
          [rewrite length_app in Hlen; cbn [length] in Hlen; lia|].
        exists r, (S k). split; [exact Hr|]. split.
        { rewrite Hq at 1. rewrite <- app_assoc. f_equal.
          clear. induction k as [|k IHk]; [reflexivity|].
          cbn [repeat app]. f_equal. exact IHk. }
        split; [exact Hend|]. intros _. apply Hne.
        destruct q; [simpl in Hlong; lia|discriminate].
      * exists path, 0%nat. cbn [repeat]. rewrite app_nil_r.
        repeat split; auto.
    + exists path, 0%nat. cbn [repeat]. rewrite app_nil_r.
      split; [reflexivity|]. split; [reflexivity|]. split; [left; lia|auto].
Qed.

(** X1.  [path_noendslash] removes the slashes at the end of its argument,
    all of them unless the argument consists of slashes only, of which the
    first is kept: the answer is not empty when the argument is not, and it
    ends in a slash only when it is a single slash. *)
Theorem path_noendslash_spec (path : str) :
  exists r k,
    path_noendslash path = Ok r
    /\ path = r ++ repeat "/"%char k
    /\ ((length r <= 1)%nat \/ back r <> "/"%char)
    /\ (path <> [] -> r <> []).
Proof. apply noendslash_loop_spec. apply le_n. Qed.

Lemma skip_back_spec (p : ascii -> bool) (path : str) (fuel : nat) :
  forall npos,
    (npos <= fuel)%nat ->
    exists n,
      skip_back fuel p path npos = Ok n
      /\ (n <= npos)%nat
      /\ ((1 <= npos)%nat -> (1 <= n)%nat)
      /\ ((n <= 1)%nat \/ p (nth (n - 1) path NUL) = false)
      /\ (forall i, (n <= i < npos)%nat -> p (nth i path NUL) = true).
Proof.
  induction fuel as [|fuel IH]; intros npos Hle.
  - assert (npos = 0%nat) by lia. subst npos. exists 0%nat. cbn.
    split; [reflexivity|]. split; [lia|]. split; [lia|].
    split; [left; lia|]. intros i Hi. lia.
  - cbn [skip_back].
    destruct (Nat.ltb_spec 1 npos) as [Hlong | Hshort]; cbn [andb].
    + destruct (p (nth (npos - 1) path NUL)) eqn:Hp.
      * destruct (IH (npos - 1)%nat) as (n & Hn & Hle' & Hone & Hstop & Hall);
          [lia|].
        exists n. split; [exact Hn|]. split; [lia|]. split; [intros _; lia|].
        split; [exact Hstop|].
        intros i Hi. destruct (Nat.eq_dec i (npos - 1)) as [-> | Hne];
          [exact Hp|apply Hall; lia].
      * exists npos. split; [reflexivity|]. split; [lia|]. split; [auto|].
        split; [right; exact Hp|]. intros i Hi. lia.
    + exists npos. split; [reflexivity|]. split; [lia|]. split; [auto|].
      split; [left; lia|]. intros i Hi. lia.
Qed.

Lemma skip_back_stop (fuel : nat) (p : ascii -> bool) (path : str)
    (npos : nat) :
  Nat.ltb 1 npos && p (nth (npos - 1) path NUL) = false ->
  skip_back fuel p path npos = Ok npos.
Proof. intros H. destruct fuel; cbn [skip_back]; rewrite H; reflexivity. Qed.



Lemma last_nth_pred (l : str) : last l NUL = nth (length l - 1) l NUL.
Proof.
  induction l as [|x l IH]; [reflexivity|].
  destruct l as [|y l]; [reflexivity|].
  change (last (x :: y :: l) NUL) with (last (y :: l) NUL). rewrite IH.
  cbn [length]. replace (S (S (length l)) - 1)%nat with (S (length l)) by lia.
  replace (S (length l) - 1)%nat with (length l) by lia. reflexivity.
Qed.

Lemma last_firstn_nth (l : str) (n : nat) :
  (1 <= n <= length l)%nat -> back (firstn n l) = nth (n - 1) l NUL.
Proof.
  intros Hn. unfold back. rewrite last_nth_pred, length_firstn.
  replace (Nat.min n (length l)) with n by lia.
  apply PolicyFacts.nth_firstn_lt. lia.
Qed.


(** X3.  For a path without any slash [path_parentdir] answers the first
    byte of the path (nothing for the empty path), which does not end in a
    slash. *)
Theorem path_parentdir_relative (path : str) :
  Forall (fun c => c <> "/"%char) path ->
  path_parentdir path = Ok (firstn 1 path).
Proof.
  intros Hfree. unfold path_parentdir.
  assert (Hnth : forall i, (i < length path)%nat ->
                           Ascii.eqb (nth i path NUL) "/" = false).
  { intros i Hi. apply Ascii.eqb_neq.
    rewrite Forall_forall in Hfree. apply Hfree. apply nth_In. exact Hi. }
  rewrite skip_back_stop.
  2:{ destruct (Nat.ltb_spec 1 (length path)) as [Hl | Hs]; [|reflexivity].
      cbn [andb]. apply Hnth. lia. }
  cbn [bind].
  destruct (skip_back_spec (fun c => negb (Ascii.eqb c "/")) path
                           (length path) (length path) (le_n _))
    as (n2 & -> & Hle2 & Hone2 & Hstop2 & _).
  cbn [bind]. unfold substr. cbn [skipn]. f_equal.
  destruct path as [|x path]; [assert (n2 = 0%nat) by (simpl in Hle2; lia);
                               subst; reflexivity|].
  assert (Hn2 : n2 = 1%nat).
  { specialize (Hone2 ltac:(simpl; lia)).
    destruct Hstop2 as [Hs | Hs]; [lia|].
    rewrite Hnth in Hs by lia. discriminate Hs. }
  subst n2. reflexivity.
Qed.


Lemma path_parentdir_relative_witness :
  path_parentdir (lit "home") = Ok (lit "h").
Proof.
  apply (path_parentdir_relative (lit "home")).
  repeat constructor; discriminate.
Defined.

End PathnameFacts.

(** ** Command-line numbers *)

Module OptionsFacts.
Import Printf Options.

Lemma uc_chr (n : Z) : 0 <= n < 256 -> uc (chr n) = n.
Proof.
  intros H. unfold uc, chr. rewrite N_ascii_embedding.
  - apply Z2N.id. lia.
  - change 256%N with (Z.to_N 256). apply Z2N.inj_lt; lia.
Qed.

Lemma isdigit_digit_char (d : Z) : 0 <= d <= 9 -> isdigit (digit_char d) = true.
Proof.
  intros H. unfold isdigit, digit_char. rewrite uc_chr by lia.
  apply andb_true_iff. split; apply Z.leb_le; lia.
Qed.

Lemma isdigit_not_sign (c : ascii) :
  isdigit c = true -> Ascii.eqb c "-" || Ascii.eqb c "+" = false.
Proof.
  unfold isdigit. intros H. apply andb_true_iff in H.
  destruct H as [H1 H2]. apply Z.leb_le in H1, H2.
  apply orb_false_iff.
  split; apply Ascii.eqb_neq; intros ->.
  - change (uc "-") with 45 in H1. lia.
  - change (uc "+") with 43 in H1. lia.
Qed.

Lemma dec_loop_digits (fuel : nat) :
  forall n acc,
    0 <= n -> Forall (fun c => isdigit c = true) acc ->
    Forall (fun c => isdigit c = true) (dec_loop fuel n acc).
Proof.
  induction fuel as [|fuel IH]; intros n acc Hn Hacc; [exact Hacc|].
  cbn [dec_loop].
  assert (Hd : isdigit (digit_char (n mod 10)) = true).
  { apply isdigit_digit_char. pose proof (Z.mod_pos_bound n 10). lia. }
  destruct (n <? 10).
  - constructor; assumption.
  - apply IH; [apply Z.div_pos; lia|constructor; assumption].
Qed.

Lemma dec_loop_nonempty (fuel : nat) (n : Z) (acc : str) :
  dec_loop (S fuel) n acc <> [].
Proof.
  revert n acc; induction fuel as [|fuel IH]; intros n acc.
  - cbn. destruct (n <? 10); discriminate.
  - cbn [dec_loop]. destruct (n <? 10); [discriminate|]. apply IH.
Qed.

Lemma wrap64_step (a b : Z) :
  wrap64 (10 * wrap64 a + b) = wrap64 (10 * a + b).
Proof.
  unfold wrap64. rewrite Z.add_mod by lia.
  rewrite Z.mul_mod_idemp_r by lia. rewrite <- Z.add_mod by lia.
  reflexivity.
Qed.

(** Reading back the digits that [dec_loop] writes. *)
Lemma digits_loop_dec (fuel : nat) :
  forall n acc v,
    0 <= n < 10 ^ Z.of_nat (S fuel) ->
    exists k,
      0 <= k
      /\ digits_loop v (dec_loop (S fuel) n acc)
         = digits_loop (wrap64 (v * 10 ^ (k + 1) + n)) acc.
Proof.
  induction fuel as [|fuel IH]; intros n acc v Hn.
  - change (10 ^ Z.of_nat 1) with 10 in Hn.
    cbn [dec_loop]. replace (n <? 10) with true by (symmetry; apply Z.ltb_lt; lia).
    exists 0. split; [lia|]. cbn [digits_loop].
    rewrite Z.mod_small by lia. rewrite isdigit_digit_char by lia.
    unfold digit_char. rewrite uc_chr by lia.
    change (10 ^ (0 + 1)) with 10. f_equal. f_equal. lia.
  - remember (S fuel) as f eqn:Ef. cbn [dec_loop].
    destruct (Z.ltb_spec n 10) as [Hs | Hl].
    + exists 0. split; [lia|]. cbn [digits_loop].
      rewrite Z.mod_small by lia. rewrite isdigit_digit_char by lia.
      unfold digit_char. rewrite uc_chr by lia.
      change (10 ^ (0 + 1)) with 10. f_equal. f_equal. lia.
    + assert (Hq : 0 <= n / 10 < 10 ^ Z.of_nat f).
      { split; [apply Z.div_pos; lia|].
        apply Z.div_lt_upper_bound; [lia|].
        replace (Z.of_nat (S f)) with (Z.of_nat f + 1) in Hn by lia.
        rewrite Z.pow_add_r in Hn by lia. change (10 ^ 1) with 10 in Hn. lia. }
      subst f.
      destruct (IH (n / 10) (digit_char (n mod 10) :: acc) v Hq)
        as (k & Hk & ->).
      exists (k + 1). split; [lia|]. cbn [digits_loop].
      pose proof (Z.mod_pos_bound n 10 ltac:(lia)) as Hm.
      rewrite isdigit_digit_char by lia.
      unfold digit_char. rewrite uc_chr by lia. f_equal.
      replace (10 * wrap64 (v * 10 ^ (k + 1) + n / 10) + (48 + n mod 10) - 48)
        with (10 * wrap64 (v * 10 ^ (k + 1) + n / 10) + n mod 10) by lia.
      rewrite wrap64_step. f_equal.
      rewrite (Z.pow_add_r 10 (k + 1) 1) by lia. change (10 ^ 1) with 10.
      pose proof (Z.div_mod n 10 ltac:(lia)). lia.
Qed.

Lemma digits_loop_nil (v : Z) : digits_loop v [] = (v, []).
Proof. reflexivity. Qed.

Lemma digits_dec (n : Z) :
  0 <= n < 2 ^ 64 -> digits_loop 0 (dec n) = (n, []).
Proof.
  intros Hn. unfold dec.
  destruct (digits_loop_dec 19 n [] 0) as (k & Hk & ->).
  - change (10 ^ Z.of_nat 20) with 100000000000000000000.
    change (2 ^ 64) with 18446744073709551616 in Hn. lia.
  - cbn [digits_loop]. f_equal. unfold wrap64.
    rewrite Z.mul_0_l, Z.add_0_l. apply Z.mod_small. exact Hn.
Qed.

Lemma range_strtol_digits (v : Z) (s : str) (val : Z) :
  s <> [] -> Forall (fun c => isdigit c = true) s ->
  digits_loop 0 s = (val, []) ->
  range_strtol v s = (true, to_long val).
Proof.
  intros Hne Hall Hval. destruct s as [|c s]; [contradiction Hne; reflexivity|].
  inversion Hall as [|? ? Hc _]; subst.
  unfold range_strtol. rewrite (isdigit_not_sign c Hc). cbn [andb].
  rewrite Hc. cbn [negb]. rewrite Hval. reflexivity.
Qed.

Lemma range_strtol_signed (v : Z) (sg : ascii) (s : str) (val : Z) :
  sg = "-"%char \/ sg = "+"%char ->
  s <> [] -> Forall (fun c => isdigit c = true) s ->
  digits_loop 0 s = (val, []) ->
  range_strtol v (sg :: s)
  = (true, to_long (if Ascii.eqb sg "-" then - val else val)).
Proof.
  intros Hsg Hne Hall Hval.
  destruct s as [|c s]; [contradiction Hne; reflexivity|].
  inversion Hall as [|? ? Hc _]; subst.
  unfold range_strtol.
  replace (Ascii.eqb sg "-" || Ascii.eqb sg "+") with true
    by (destruct Hsg as [-> | ->]; reflexivity).
  cbn [andb skipn deref]. rewrite Hc. cbn [negb]. rewrite Hval. reflexivity.
Qed.

Lemma to_long_small (x : Z) : - 2 ^ 63 <= x < 2 ^ 63 -> to_long x = x.
Proof.
  intros H. unfold to_long, wrap64.
  change (2 ^ 63) with 9223372036854775808 in *.
  change (2 ^ 64) with 18446744073709551616 in *.
  destruct (Z_lt_le_dec x 0) as [Hneg | Hpos].
  - replace (x mod 18446744073709551616) with (x + 18446744073709551616).
    + destruct (Z.ltb_spec (x + 18446744073709551616) 9223372036854775808);
        lia.
    + apply Z.mod_unique with (q := -1); lia.
  - rewrite Z.mod_small by lia.
    destruct (Z.ltb_spec x 9223372036854775808); lia.
Qed.

Lemma range_strtol_dec (v n : Z) :
  0 <= n < 2 ^ 63 -> range_strtol v (dec n) = (true, n).
Proof.
  intros Hn. change (2 ^ 63) with 9223372036854775808 in Hn.
  rewrite (range_strtol_digits v (dec n) n).
  - rewrite to_long_small; [reflexivity|].
    change (2 ^ 63) with 9223372036854775808. lia.
  - apply dec_loop_nonempty.
  - apply dec_loop_digits; [lia|constructor].
  - apply digits_dec. change (2 ^ 64) with 18446744073709551616. lia.
Qed.

Lemma range_strtol_dec_neg (v n : Z) :
  0 < n <= 2 ^ 63 -> range_strtol v ("-"%char :: dec n) = (true, - n).
Proof.
  intros Hn. change (2 ^ 63) with 9223372036854775808 in Hn.
  rewrite (range_strtol_signed v "-" (dec n) n).
  - rewrite Ascii.eqb_refl.
    rewrite to_long_small; [reflexivity|].
    change (2 ^ 63) with 9223372036854775808. lia.
  - left; reflexivity.
  - apply dec_loop_nonempty.
  - apply dec_loop_digits; [lia|constructor].
  - apply digits_dec. change (2 ^ 64) with 18446744073709551616. lia.
Qed.

(** X4.  [range_strtol] reads back what [printf] writes for a [long]: the
    answer is true and the value is the number printed. *)
Theorem range_strtol_dec_int (v n : Z) :
  - 2 ^ 63 <= n < 2 ^ 63 ->
  range_strtol v (dec_int n) = (true, n).
Proof.
  intros Hn. unfold dec_int.
  destruct (Z.ltb_spec n 0) as [Hneg | Hpos].
  - rewrite range_strtol_dec_neg by lia. rewrite Z.opp_involutive.
    reflexivity.
  - apply range_strtol_dec. lia.
Qed.

Lemma digits_loop_all (s : str) :
  forall v, forallb isdigit s = true -> exists val, digits_loop v s = (val, []).
Proof.
  induction s as [|c s IH]; intros v H; [exists v; reflexivity|].
  cbn [forallb] in H. apply andb_true_iff in H. destruct H as [Hc Hs].
  cbn [digits_loop]. rewrite Hc. apply IH. exact Hs.
Qed.

Lemma digits_loop_done (s : str) :
  forall v val, digits_loop v s = (val, []) -> forallb isdigit s = true.
Proof.
  induction s as [|c s IH]; intros v val H; [reflexivity|].
  cbn [digits_loop] in H. cbn [forallb].
  destruct (isdigit c); [|discriminate H]. exact (IH _ _ H).
Qed.

(** X5.  [range_strtol] answers true exactly for an optional sign followed
    by one decimal digit or more, and nothing else. *)
Theorem range_strtol_accepts (v : Z) (s : str) :
  fst (range_strtol v s) = true
  <-> exists sg ds,
        s = sg ++ ds
        /\ (sg = [] \/ sg = lit "-" \/ sg = lit "+")
        /\ ds <> []
        /\ forallb isdigit ds = true.
Proof.
  split.
  - unfold range_strtol. intros H.
    set (signed := match s with
                   | c :: _ => Ascii.eqb c "-" || Ascii.eqb c "+"
                   | [] => false
                   end) in *.
    assert (Hsplit : exists sg, s = sg ++ (if signed then skipn 1 s else s)
                                /\ (sg = [] \/ sg = lit "-" \/ sg = lit "+")).
    { destruct s as [|c s]; [exists []; split; [reflexivity|auto]|].
      subst signed. cbv beta iota.
      destruct (Ascii.eqb_spec c "-") as [-> | Hm]; cbn [orb].
      - exists (lit "-"). split; [reflexivity|auto].
      - destruct (Ascii.eqb_spec c "+") as [-> | Hp].
        + exists (lit "+"). split; [reflexivity|auto].
        + exists []. split; [reflexivity|auto]. }
    destruct Hsplit as (sg & Hs & Hsg).
    destruct (if signed then skipn 1 s else s) as [|c a] eqn:Ea;
      [discriminate H|].
    exists sg, (c :: a). split; [exact Hs|]. split; [exact Hsg|].
    split; [discriminate|].
    destruct (isdigit c) eqn:Hc; [|discriminate H]. cbn [negb] in H.
    destruct (digits_loop 0 (c :: a)) as [val rest] eqn:Ed.
    cbn [fst] in H. destruct rest; [|discriminate H].
    exact (digits_loop_done _ _ _ Ed).
  - intros (sg & ds & -> & Hsg & Hne & Hall).
    destruct (digits_loop_all ds 0 Hall) as (val & Hval).
    assert (Hf : Forall (fun c => isdigit c = true) ds).
    { apply Forall_forall. rewrite forallb_forall in Hall. exact Hall. }
    destruct Hsg as [-> | [-> | ->]].
    + cbn [app]. rewrite (range_strtol_digits v ds val Hne Hf Hval).
      reflexivity.
    + change (lit "-" ++ ds) with ("-"%char :: ds).
      rewrite (range_strtol_signed v "-" ds val); auto.
    + change (lit "+" ++ ds) with ("+"%char :: ds).
      rewrite (range_strtol_signed v "+" ds val); auto.
Qed.





Lemma range_strtol_dec_int_witness :
  range_strtol 0 (lit "-9223372036854775808") = (true, - 2 ^ 63).
Proof. apply (range_strtol_dec_int 0 (- 2 ^ 63)). lia. Defined.


End OptionsFacts.

(** ** Timers *)

Module TimerFacts.
Import Owner Timer TimerInv.

Lemma timersub_usecs (a b : timeval) :
  normal a -> normal b ->
  normal (timersub a b) /\ usecs (timersub a b) = usecs a - usecs b.
Proof.
  unfold normal, usecs, timersub. intros Ha Hb.
  destruct (Z.ltb_spec (tv_usec a - tv_usec b) 0); cbn [tv_sec tv_usec]; lia.
Qed.

Lemma to_int_small (x : Z) : - 2 ^ 31 <= x < 2 ^ 31 -> to_int x = x.
Proof.
  intros H. unfold to_int.
  change (2 ^ 31) with 2147483648 in *. change (2 ^ 32) with 4294967296.
  rewrite Z.mod_small by lia. lia.
Qed.

Lemma ms_floor (a b : timeval) :
  normal a -> normal b ->
  tv_sec (timersub a b) * 1000 + Z.quot (tv_usec (timersub a b)) 1000
  = (usecs a - usecs b) / 1000.
Proof.
  intros Ha Hb. destruct (timersub_usecs a b Ha Hb) as [Hn Hu].
  rewrite <- Hu. unfold usecs. unfold normal in Hn.
  rewrite Z.quot_div_nonneg by lia.
  replace (tv_sec (timersub a b) * 1000000 + tv_usec (timersub a b))
    with (tv_usec (timersub a b) + tv_sec (timersub a b) * 1000 * 1000)
    by lia.
  rewrite Z.div_add by lia. lia.
Qed.

(** X7.  [timer_difference_ms] answers the difference of its arguments in
    milliseconds, rounded down, when that fits an [int]. *)
Theorem timer_difference_ms_floor (lhs rhs : timeval) :
  normal lhs -> normal rhs ->
  - 2 ^ 31 <= (usecs lhs - usecs rhs) / 1000 < 2 ^ 31 ->
  timer_difference_ms lhs rhs = (usecs lhs - usecs rhs) / 1000.
Proof.
  intros Hl Hr Hfit. unfold timer_difference_ms.
  rewrite (ms_floor lhs rhs Hl Hr). apply to_int_small. exact Hfit.
Qed.

Lemma timercmp_lt_usecs (a b : timeval) :
  normal a -> normal b -> timercmp_lt a b = true -> usecs a < usecs b.
Proof.
  unfold normal, usecs, timercmp_lt. intros Ha Hb.
  destruct (Z.eqb_spec (tv_sec a) (tv_sec b)) as [E | N]; intros H.
  - apply Z.ltb_lt in H. lia.
  - apply Z.ltb_lt in H. lia.
Qed.

Lemma difference_bounds (e now : timeval) :
  normal e -> normal now ->
  (usecs e - usecs now) / 1000 < 2 ^ 31 ->
  timercmp_lt now e = true ->
  0 <= timer_difference_ms e now.
Proof.
  intros He Hn Hfit Hlt. unfold timer_difference_ms.
  rewrite (ms_floor e now He Hn).
  pose proof (timercmp_lt_usecs now e Hn He Hlt) as Hpos.
  assert (0 <= (usecs e - usecs now) / 1000) by (apply Z.div_pos; lia).
  rewrite to_int_small; [assumption|].
  change (2 ^ 31) with 2147483648 in *. lia.
Qed.

(** X8.  The time for which [block] lets [poll] wait is never negative (a
    negative time makes [poll] wait without a limit) and never more than an
    hour, or half a minute when an event source is connected, provided that
    a timer that is set lies less than [2^31] milliseconds ahead. *)
Theorem block_timeout_bounds (esfds : bool) (expiry idle_expiry now : timeval) :
  normal expiry -> normal idle_expiry -> normal now ->
  (usecs expiry - usecs now) / 1000 < 2 ^ 31 ->
  (usecs idle_expiry - usecs now) / 1000 < 2 ^ 31 ->
  0 <= block_timeout esfds expiry idle_expiry now
    <= (if esfds then 30000 else 3600000).
Proof.
  intros He Hi Hn Fe Fi. unfold block_timeout.
  set (t0 := if esfds then 30000 else 3600000).
  assert (H0 : 0 <= t0) by (subst t0; destruct esfds; lia).
  set (t1 := if timerisset expiry then _ else t0).
  assert (H1 : 0 <= t1 <= t0).
  { subst t1. destruct (timerisset expiry); [|lia].
    destruct (timercmp_lt now expiry) eqn:Hlt; [|lia].
    pose proof (difference_bounds expiry now He Hn Fe Hlt). lia. }
  destruct (timerisset idle_expiry); [|lia].
  destruct (timercmp_lt now idle_expiry) eqn:Hlt; [|lia].
  pose proof (difference_bounds idle_expiry now Hi Hn Fi Hlt). lia.
Qed.

Lemma timer_difference_ms_floor_witness :
  timer_difference_ms {| tv_sec := 10; tv_usec := 200 |}
                      {| tv_sec := 8; tv_usec := 999900 |} = 1000.
Proof.
  apply (timer_difference_ms_floor {| tv_sec := 10; tv_usec := 200 |}
                                   {| tv_sec := 8; tv_usec := 999900 |});
    vm_compute; intuition discriminate.
Defined.

Lemma block_timeout_bounds_witness :
  0 <= block_timeout true {| tv_sec := 100; tv_usec := 0 |}
                     {| tv_sec := 50; tv_usec := 500000 |}
                     {| tv_sec := 40; tv_usec := 250000 |}
    <= 30000.
Proof.
  apply (block_timeout_bounds true {| tv_sec := 100; tv_usec := 0 |}
                              {| tv_sec := 50; tv_usec := 500000 |}
                              {| tv_sec := 40; tv_usec := 250000 |});
    vm_compute; intuition discriminate.
Defined.

End TimerFacts.

(** ** More on policy evaluation *)

Module PolicyMoreFacts.
Import Conf PolicyFacts PolicyInv.

Lemma bit_of_one (type : str) (l : str * str) :
  (0 <? Spec.bit_of type l) = true -> Spec.rule_bit type l = Some 1.
Proof.
  unfold Spec.bit_of, Spec.rule_bit.
  destruct (check_action (fst l) (lit "disable") type
            || check_action (fst l) (lit "no") type); [discriminate|].
  destruct (check_action (fst l) (lit "enable") type
            || check_action (fst l) (lit "allow") type);
    [reflexivity|discriminate].
Qed.

Lemma last_such_in (p : str * str -> bool) (lines : list (str * str))
    (l : str * str) :
  Spec.last_such p lines = Some l -> In l lines /\ p l = true.
Proof.
  unfold Spec.last_such. intros H. apply find_some in H.
  destruct H as [Hin Hp]. split; [apply in_rev; exact Hin|exact Hp].
Qed.

(** The state in which [allows_type] starts. *)
Lemma allows_type_lines (fnmatch : str -> str -> bool) (c : pajailconf)
    (type dir : str) (superdir : bool) (lines : list (str * str)) :
  Spec.rules_of c = Ok lines ->
  allows_type fnmatch c type dir superdir
  = let* st := Spec.apply_lines fnmatch type (Path.path_endslash dir) superdir
                 lines {| allowed_globally := -1; allowed_locally := -1;
                          allowance_pattern_ := []; treedir_ := [] |} in
    Ok (negb (allowed_globally st =? 0) && (0 <? allowed_locally st), st).
Proof.
  intros Hlines. unfold allows_type.
  rewrite (allows_loop_lines fnmatch type (Path.path_endslash dir) superdir
                             c (len_ c) 0 _ lines Hlines).
  reflexivity.
Qed.

(** X9.  A directory is allowed only when a rule [enable<type>] or
    [allow<type>] with a subdirectory pattern matches it: global rules alone
    allow nothing, and neither does an empty policy. *)
Theorem allowed_needs_matching_rule (fnmatch : str -> str -> bool)
    (c : pajailconf) (type dir : str) (superdir : bool) (st : eval_state) :
  Spec.conf_wf c ->
  allows_type fnmatch c type dir superdir = Ok (true, st) ->
  exists lines line,
    Spec.rules_of c = Ok lines
    /\ In line lines
    /\ Spec.rule_bit type line = Some 1
    /\ Spec.matches_dir fnmatch type (Path.path_endslash dir) superdir line
       = true.
Proof.
  intros Hwf Hallow.
  destruct (conf_lines_ok c Hwf (len_ c) 0) as (lines & Hlines); [lia|].
  rewrite (allows_type_lines fnmatch c type dir superdir lines Hlines)
    in Hallow.
  destruct (apply_lines_bits fnmatch type (Path.path_endslash dir) superdir
              lines {| allowed_globally := -1; allowed_locally := -1;
                       allowance_pattern_ := []; treedir_ := [] |})
    as (st' & Hst & _ & Hl).
  rewrite Hst in Hallow. cbn [bind] in Hallow.
  injection Hallow as Hans Hsame. subst st'.
  apply andb_true_iff in Hans. destruct Hans as [_ Hloc].
  rewrite Hl in Hloc. cbn [allowed_locally] in Hloc.
  destruct (Spec.last_such _ lines) as [l|] eqn:Elast; [|discriminate Hloc].
  destruct (last_such_in _ _ _ Elast) as [Hin Hp].
  pose proof (bit_of_one type l Hloc) as Hone.
  exists lines, l. split; [exact Hlines|]. split; [exact Hin|].
  split; [exact Hone|].
  apply orb_true_iff in Hp. destruct Hp as [Hm | Hg]; [exact Hm|].
  apply andb_true_iff in Hg. destruct Hg as [_ Hz].
  unfold Spec.bit_of in Hz, Hloc. rewrite Hone in Hz. discriminate Hz.
Qed.

Lemma last_such_app_none (p : str * str -> bool) (l1 l2 : list (str * str))
    (g : str * str) :
  p g = true -> forallb (fun l => negb (p l)) l2 = true ->
  Spec.last_such p (l1 ++ g :: l2) = Some g.
Proof.
  intros Hg Hnone. unfold Spec.last_such.
  rewrite rev_app_distr. cbn [rev]. rewrite <- app_assoc. cbn [app].
  assert (Hrev : forall x, In x (rev l2) -> p x = false).
  { intros x Hx. apply in_rev in Hx. rewrite forallb_forall in Hnone.
    apply negb_true_iff. apply Hnone. exact Hx. }
  induction (rev l2) as [|x r IH]; cbn [app find].
  - rewrite Hg. reflexivity.
  - rewrite (Hrev x (or_introl eq_refl)). apply IH.
    intros y Hy. apply Hrev. right. exact Hy.
Qed.

(** X10.  A global rule [disable<type>] or [no<type>] that no later global
    rule follows forbids every directory, whatever pattern rules come after
    it. *)
Theorem global_disable_forbids (fnmatch : str -> str -> bool)
    (c : pajailconf) (type dir : str) (superdir : bool)
    (before after : list (str * str)) (g : str * str) :
  Spec.rules_of c = Ok (before ++ g :: after) ->
  Spec.rule_bit type g = Some 0 ->
  snd g = [] ->
  forallb (fun l => negb (Spec.is_global type l)) after = true ->
  exists st, allows_type fnmatch c type dir superdir = Ok (false, st).
Proof.
  intros Hlines Hbit Harg Hafter.
  rewrite (allows_type_lines fnmatch c type dir superdir _ Hlines).
  destruct (apply_lines_bits fnmatch type (Path.path_endslash dir) superdir
              (before ++ g :: after)
              {| allowed_globally := -1; allowed_locally := -1;
                 allowance_pattern_ := []; treedir_ := [] |})
    as (st & Hst & Hg & _).
  rewrite Hst. cbn [bind]. exists st.
  assert (Hglob : Spec.is_global type g = true).
  { unfold Spec.is_global. rewrite Hbit, Harg. reflexivity. }
  rewrite (last_such_app_none _ before after g Hglob Hafter) in Hg.
  unfold Spec.bit_of in Hg. rewrite Hbit in Hg. rewrite Hg. reflexivity.
Qed.

Lemma find_from_hit (ch : ascii) (s : str) (pos k : nat) :
  find_from ch s pos = Some k -> nth k s NUL = ch.
Proof.
  unfold find_from.
  destruct (Nat.ltb_spec (span (fun x => negb (Ascii.eqb x ch)) (skipn pos s))
                         (length (skipn pos s))) as [Hlt | Hge];
    [|discriminate].
  intros H. injection H as <-.
  pose proof (span_stop _ _ NUL Hlt) as Hstop. cbv beta in Hstop.
  rewrite nth_skipn in Hstop. apply negb_false_iff in Hstop.
  apply Ascii.eqb_eq. exact Hstop.
Qed.

(** What [check_dirmatch] stores through [store_superdir] is a prefix of
    the directory, cut after one of its slashes. *)
Lemma superdir_loop_prefix (pattern s : str) (fuel : nat) :
  forall pp sp r,
    sp = 0%nat \/ ((1 <= sp <= length s)%nat /\ nth (sp - 1) s NUL = "/"%char) ->
    superdir_loop fuel pattern s pp sp = Ok (Some r) ->
    dir_prefix s r.
Proof.
  assert (Hend : forall sp,
             sp = 0%nat
             \/ ((1 <= sp <= length s)%nat /\ nth (sp - 1) s NUL = "/"%char) ->
             dir_prefix s (substr s 0 sp)).
  { intros sp [-> | [Hsp Hsl]]; [left; reflexivity|right].
    unfold substr. cbn [skipn]. split.
    - exists (skipn sp s). symmetry. apply firstn_skipn.
    - rewrite PathnameFacts.last_firstn_nth by lia. exact Hsl. }
  induction fuel as [|fuel IH]; intros pp sp r Hsp; cbn [superdir_loop].
  - destruct (find_from "/" pattern pp).
    + destruct (find_from "/" s sp); discriminate.
    + intros H. injection H as <-. apply Hend. exact Hsp.
  - destruct (find_from "/" pattern pp) as [k|].
    + destruct (find_from "/" s sp) as [j|] eqn:Ej; [|discriminate].
      apply IH. right.
      pose proof (find_from_bounds _ _ _ _ Ej).
      pose proof (find_from_hit _ _ _ _ Ej) as Hj.
      replace (S j - 1)%nat with j by lia. split; [lia|exact Hj].
    + intros H. injection H as <-. apply Hend. exact Hsp.
Qed.

Section Treedir.

Variable fnmatch : str -> str -> bool.
Variables (type dir : str) (superdir : bool).

Lemma set_treedir_prefix (st st' : eval_state) (pattern : str) (e : bool) :
  dir_prefix dir (treedir_ st) ->
  set_treedir fnmatch st pattern dir e = Ok st' ->
  dir_prefix dir (treedir_ st').
Proof.
  intros Hinv. unfold set_treedir, check_dirmatch.
  match goal with
  | |- context [superdir_loop ?f ?p dir 0 0] =>
      destruct (superdir_loop f p dir 0 0) as [[r|]| | |] eqn:Eloop
  end; cbn [bind]; try discriminate.
  - pose proof (superdir_loop_prefix _ _ _ _ _ _ (or_introl eq_refl) Eloop)
      as Hr.
    match goal with
    | |- context [if ?b then _ else _] => destruct b
    end; intros H; injection H as <-; [exact Hr|exact Hinv].
  - cbn [andb]. intros H; injection H as <-. exact Hinv.
Qed.

Lemma apply_line_prefix (action arg : str) (st st' : eval_state) :
  dir_prefix dir (treedir_ st) ->
  apply_line fnmatch type dir superdir action arg st = Ok st' ->
  dir_prefix dir (treedir_ st').
Proof.
  intros Hinv. unfold apply_line.
  assert (Hdecide : forall a st1,
    (if Nat.eqb (length arg) 0
     then Ok {| allowed_globally := a;
                allowed_locally := if a =? 0 then a else allowed_locally st;
                allowance_pattern_ := [];
                treedir_ := treedir_ st |}
     else if Ascii.eqb (nth 0 arg NUL) "/"
     then let* (m, _) := check_dirmatch fnmatch (Path.path_endslash arg) dir
                           (superdir || (a <=? 0)) in
          if m
          then if 0 <? a
               then set_treedir fnmatch
                      {| allowed_globally := allowed_globally st;
                         allowed_locally := a;
                         allowance_pattern_ := Path.path_endslash arg;
                         treedir_ := treedir_ st |}
                      (Path.path_endslash arg) dir false
               else Ok {| allowed_globally := allowed_globally st;
                          allowed_locally := a;
                          allowance_pattern_ := Path.path_endslash arg;
                          treedir_ := treedir_ st |}
          else Ok st
     else Ok st) = Ok st1 ->
    dir_prefix dir (treedir_ st1)).
  { intros a st1.
    destruct (Nat.eqb (length arg) 0).
    { intros H; injection H as <-. exact Hinv. }
    destruct (Ascii.eqb (nth 0 arg NUL) "/");
      [|intros H; injection H as <-; exact Hinv].
    destruct (check_dirmatch fnmatch (Path.path_endslash arg) dir
                             (superdir || (a <=? 0))) as [[m s]| | |];
      cbn [bind]; try discriminate.
    destruct m; [|intros H; injection H as <-; exact Hinv].
    destruct (0 <? a); [|intros H; injection H as <-; exact Hinv].
    apply set_treedir_prefix. exact Hinv. }
  destruct (check_action action (lit "disable") type
            || check_action action (lit "no") type); [apply Hdecide|].
  destruct (check_action action (lit "enable") type
            || check_action action (lit "allow") type); [apply Hdecide|].
  destruct (check_action action (lit "treedir") []);
    [|intros H; injection H as <-; exact Hinv].
  destruct (negb (Nat.eqb (length arg) 0) && Ascii.eqb (nth 0 arg NUL) "/");
    [|intros H; injection H as <-; exact Hinv].
  apply set_treedir_prefix. exact Hinv.
Qed.

Lemma apply_lines_prefix (lines : list (str * str)) :
  forall st st',
    dir_prefix dir (treedir_ st) ->
    Spec.apply_lines fnmatch type dir superdir lines st = Ok st' ->
    dir_prefix dir (treedir_ st').
Proof.
  induction lines as [|l lines IH]; intros st st' Hinv; cbn [Spec.apply_lines].
  - intros H; injection H as <-. exact Hinv.
  - destruct (apply_line fnmatch type dir superdir (fst l) (snd l) st)
      as [st1| | |] eqn:E; cbn [bind]; try discriminate.
    apply IH. exact (apply_line_prefix _ _ _ _ Hinv E).
Qed.

End Treedir.

(** X11.  The directory that [allows_type] leaves in [treedir_] (the
    permission directory of the jail) is empty or a prefix of the directory
    asked about, with a slash added at its end if it has none, that ends in
    a slash. *)
Theorem treedir_is_prefix (fnmatch : str -> str -> bool) (c : pajailconf)
    (type dir : str) (superdir answer : bool) (st : eval_state) :
  Spec.conf_wf c ->
  allows_type fnmatch c type dir superdir = Ok (answer, st) ->
  dir_prefix (Path.path_endslash dir) (treedir_ st).
Proof.
  intros Hwf Hallow.
  destruct (conf_lines_ok c Hwf (len_ c) 0) as (lines & Hlines); [lia|].
  rewrite (allows_type_lines fnmatch c type dir superdir lines Hlines)
    in Hallow.
  match type of Hallow with
  | context [Spec.apply_lines ?f ?t ?d ?s ?l ?st0] =>
      destruct (Spec.apply_lines f t d s l st0) as [st1| | |] eqn:E
  end; cbn [bind] in Hallow; try discriminate.
  injection Hallow as _ <-.
  refine (apply_lines_prefix fnmatch type (Path.path_endslash dir) superdir
                             lines _ _ _ E).
  left. reflexivity.
Qed.

Lemma allowed_needs_matching_rule_witness :
  let c := pajailconf_of (lit "disablejail /jails/run1" ++ [NL]
                            ++ lit "enablejail /jails/*" ++ [NL]) in
  exists lines line,
    Spec.rules_of c = Ok lines
    /\ In line lines
    /\ Spec.rule_bit (lit "jail") line = Some 1
    /\ Spec.matches_dir fnmatch_glob (lit "jail")
         (Path.path_endslash (lit "/jails/run1")) false line = true.
Proof.
  intros c.
  eapply (allowed_needs_matching_rule fnmatch_glob c (lit "jail")
                                      (lit "/jails/run1") false).
  - unfold Spec.conf_wf. simpl. lia.
  - vm_compute. reflexivity.
Defined.

Lemma global_disable_forbids_witness :
  let c := pajailconf_of (lit "enablejail /jails/*" ++ [NL]
                            ++ lit "disablejail" ++ [NL]
                            ++ lit "enableskeleton /skel" ++ [NL]) in
  exists st,
    allows_type fnmatch_glob c (lit "jail") (lit "/jails/run1") false
    = Ok (false, st).
Proof.
  intros c.
  apply (global_disable_forbids fnmatch_glob c (lit "jail")
           (lit "/jails/run1") false
           [(lit "enablejail", lit "/jails/*")]
           [(lit "enableskeleton", lit "/skel")]
           (lit "disablejail", [])).
  - vm_compute. reflexivity.
  - vm_compute. reflexivity.
  - reflexivity.
  - vm_compute. reflexivity.
Defined.

Lemma treedir_is_prefix_witness :
  let c := pajailconf_of (lit "enablejail /jails/*" ++ [NL]
                            ++ lit "treedir /jails" ++ [NL]) in
  exists st,
    allows_type fnmatch_glob c (lit "jail") (lit "/jails/run1") false
    = Ok (true, st)
    /\ dir_prefix (Path.path_endslash (lit "/jails/run1")) (treedir_ st).
Proof.
  intros c. eexists. split.
  - vm_compute. reflexivity.
  - eapply (treedir_is_prefix fnmatch_glob c (lit "jail")
                              (lit "/jails/run1") false true).
    + unfold Spec.conf_wf. simpl. lia.
    + vm_compute. reflexivity.
Defined.

End PolicyMoreFacts.

(** ** More on [check_filename] *)

Module FilenameMoreFacts.
Import Filename FilenameInv FilenameFacts NameInv.

(** The answer for a name that does not end in a [.] component. *)
Lemma check_filename_value (name : str) :
  Spec.ends_with_dot name = false ->
  check_filename name
  = Ok (if Spec.rejected name then [] else Spec.collapse name).
Proof.
  intros Hend.
  unfold check_filename, Spec.rejected.
  rewrite strspn_all, nth0_deref.
  destruct (forallb Spec.allowed_byte name) eqn:Hall; cbn [negb orb];
    [|reflexivity].
  destruct (Nat.eqb (length name) 0) eqn:Hlen; cbn [orb]; [reflexivity|].
  destruct (Ascii.eqb (deref name) "~"); cbn [orb]; [reflexivity|].
  change (Nat.leb 1024 (length name)) with (Nat.leb BUFSZ (length name)).
  destruct (Nat.leb_spec BUFSZ (length name)) as [Hbig | Hsmall];
    cbn [orb]; [reflexivity|].
  pose proof (copy_loop_scan (length name) [] name [] Spec.Start
                             (S (length name)) (le_n _)
                             (allowed_no_nul name Hall) eq_refl) as Hloop.
  cbn [app length] in Hloop. rewrite Hloop by lia. clear Hloop.
  rewrite scan_start. unfold Spec.has_dotdot, Spec.collapse.
  pose proof (split_slash_free name) as Hfree.
  pose proof (last_component_dot name) as Hlastdot.
  destruct (Spec.split_slash name) as [|w0 ws] eqn:Hs;
    [exfalso; exact (split_slash_nonempty name Hs)|].
  cbn [hd tl existsb]. rewrite (str_eqb_sym (lit "..") w0).
  destruct (str_eqb w0 (lit "..")); cbn [orb bind]; [reflexivity|].
  inversion Hfree as [|? ? Hfree0 Hfreews]; subst.
  fold (slashed ws).
  destruct ws as [|w' ws'].
  - (* a name without a slash *)
    cbn [emit_then existsb bind app]. unfold slashed. cbn [filter flat_map].
    rewrite app_nil_r.
    assert (Hne : w0 <> []).
    { intros ->. rewrite (split_slash_single_nil name Hs) in Hlen.
      discriminate Hlen. }
    destruct (kept_ends w0 [] Hfree0 (Forall_nil _)) as (o & x & Ho & Hx).
    { unfold slashed. cbn. rewrite app_nil_r. exact Hne. }
    unfold slashed in Ho. cbn [filter flat_map] in Ho.
    rewrite app_nil_r in Ho. rewrite Ho.
    rewrite trim_slashes_keep by exact Hx.
    replace (Nat.eqb (length (o ++ [x])) 0) with false
      by (rewrite length_app; simpl; symmetry; apply Nat.eqb_neq; lia).
    reflexivity.
  - unfold emit_then.
    destruct (existsb (str_eqb (lit "..")) (w' :: ws')) eqn:Hdd.
    + rewrite later_dotdot by exact Hdd. reflexivity.
    + assert (Hlast : str_eqb (last (w' :: ws') []) (lit ".") = false).
      { destruct (str_eqb (last (w' :: ws') []) (lit ".")) eqn:E;
          [|reflexivity].
        apply str_eqb_eq in E.
        destruct (Hlastdot E) as [-> | Hd].
        - discriminate Hs.
        - rewrite Hd in Hend. discriminate Hend. }
      destruct (later_spec (w' :: ws') ([] ++ w0 ++ lit "/")
                           ltac:(discriminate) Hdd Hlast) as (t & Ht & Hsl).
      rewrite Ht. cbn [bind app].
      assert (Hraw : (w0 ++ lit "/") ++ t
                     = (w0 ++ slashed (w' :: ws'))
                         ++ (if Spec.keep (last (w' :: ws') []) then []
                             else lit "/")).
      { rewrite <- !app_assoc. f_equal. exact Hsl. }
      rewrite Hraw.
      destruct (Spec.keep (last (w' :: ws') [])).
      * rewrite app_nil_r.
        destruct (kept_ends w0 (w' :: ws') Hfree0 Hfreews) as (o & x & Ho & Hx).
        { rewrite app_nil_r in Hraw. rewrite <- Hraw.
          intros C. apply (f_equal (@length _)) in C.
          rewrite !length_app in C. simpl in C. lia. }
        rewrite Ho. rewrite trim_slashes_keep by exact Hx.
        replace (Nat.eqb (length (o ++ [x])) 0) with false
          by (rewrite length_app; simpl; symmetry; apply Nat.eqb_neq; lia).
        reflexivity.
      * destruct (w0 ++ slashed (w' :: ws')) as [|y l] eqn:Eo.
        -- reflexivity.
        -- destruct (kept_ends w0 (w' :: ws') Hfree0 Hfreews)
             as (o & x & Ho & Hx).
           { rewrite Eo. discriminate. }
           rewrite Eo in Ho. rewrite Ho.
           rewrite trim_slashes_slash by exact Hx.
           replace (Nat.eqb (length (o ++ [x])) 0) with false
             by (rewrite length_app; simpl; symmetry; apply Nat.eqb_neq; lia).
           reflexivity.
Qed.

Lemma split_slash_app_slash (a b : str) :
  Spec.split_slash (a ++ "/"%char :: b)
  = Spec.split_slash a ++ Spec.split_slash b.
Proof.
  induction a as [|c a IH]; [reflexivity|].
  cbn [app Spec.split_slash]. rewrite IH.
  destruct (Ascii.eqb c "/"); [reflexivity|].
  destruct (Spec.split_slash a) as [|w ws] eqn:E;
    [exfalso; exact (split_slash_nonempty a E)|reflexivity].
Qed.

Lemma ends_with_dot_split (name : str) :
  Spec.ends_with_dot name = true ->
  exists w0 ws, Spec.split_slash name = w0 :: ws ++ [lit "."].
Proof.
  unfold Spec.ends_with_dot. intros H.
  destruct (rev name) as [|d [|s t]] eqn:E; try discriminate H.
  apply andb_true_iff in H. destruct H as [Hd Hs].
  apply Ascii.eqb_eq in Hd, Hs. subst d s.
  assert (Hname : name = rev t ++ "/"%char :: lit ".").
  { rewrite <- (rev_involutive name), E. cbn [rev].
    rewrite <- app_assoc. reflexivity. }
  rewrite Hname, split_slash_app_slash.
  destruct (Spec.split_slash (rev t)) as [|w0 ws] eqn:Et;
    [exfalso; exact (split_slash_nonempty _ Et)|].
  exists w0, ws. reflexivity.
Qed.

Lemma later_last_dot (ws : list str) :
  forall out,
    ws <> [] -> last ws [] = lit "." ->
    Spec.later ws out = Ok None \/ Spec.later ws out = Undefined.
Proof.
  induction ws as [|w ws IH]; intros out Hne Hlast;
    [contradiction Hne; reflexivity|].
  cbn [Spec.later].
  destruct (str_eqb w (lit "..")); [left; reflexivity|].
  destruct ws as [|w' ws'].
  - cbn [last] in Hlast. subst w. cbn. right. reflexivity.
  - change (last (w :: w' :: ws') []) with (last (w' :: ws') (@nil ascii))
      in Hlast.
    destruct (str_eqb w (lit ".")); [apply IH; [discriminate|exact Hlast]|].
    destruct (str_eqb w []); apply IH; try discriminate; exact Hlast.
Qed.

Lemma check_filename_trailing_dot_general (name : str) :
  Spec.ends_with_dot name = true ->
  check_filename name = Ok [] \/ check_filename name = Undefined.
Proof.
  intros Hend. unfold check_filename.
  rewrite strspn_all, nth0_deref.
  destruct (forallb Spec.allowed_byte name) eqn:Hall; cbn [negb orb];
    [|left; reflexivity].
  destruct (Nat.eqb (length name) 0) eqn:Hlen; cbn [orb]; [left; reflexivity|].
  destruct (Ascii.eqb (deref name) "~"); cbn [orb]; [left; reflexivity|].
  destruct (Nat.leb_spec BUFSZ (length name)) as [Hbig | Hsmall];
    [left; reflexivity|].
  pose proof (copy_loop_scan (length name) [] name [] Spec.Start
                             (S (length name)) (le_n _)
                             (allowed_no_nul name Hall) eq_refl) as Hloop.
  cbn [app length] in Hloop. rewrite Hloop by lia. clear Hloop.
  rewrite scan_start.
  destruct (ends_with_dot_split name Hend) as (w0 & ws & ->).
  cbn [hd tl].
  destruct (str_eqb w0 (lit "..")); [left; reflexivity|].
  unfold emit_then.
  destruct (later_last_dot (ws ++ [lit "."]) ([] ++ w0 ++ lit "/")) as [H | H].
  - destruct ws; discriminate.
  - apply last_last.
  - destruct (ws ++ [lit "."]) eqn:E; [destruct ws; discriminate E|].
    rewrite H. left. reflexivity.
  - destruct (ws ++ [lit "."]) eqn:E; [destruct ws; discriminate E|].
    rewrite H. right. reflexivity.
Qed.

(** *** The form of an accepted name *)

Lemma unsplit (s : str) :
  forall w0 ws,
    Spec.split_slash s = w0 :: ws ->
    s = w0 ++ flat_map (fun w => "/"%char :: w) ws.
Proof.
  induction s as [|c s IH]; intros w0 ws H.
  - injection H as <- <-. reflexivity.
  - destruct (Ascii.eqb_spec c "/") as [-> | Hc].
    + rewrite split_slash_slash in H. injection H as <- <-.
      destruct (Spec.split_slash s) as [|w ws'] eqn:E;
        [exfalso; exact (split_slash_nonempty s E)|].
      cbn [app flat_map]. f_equal. apply IH. reflexivity.
    + apply Ascii.eqb_neq in Hc.
      destruct (split_slash_other c s Hc) as (w & ws' & Hs & Hcs).
      rewrite Hcs in H. injection H as <- <-.
      cbn [app]. f_equal. apply IH. exact Hs.
Qed.

Lemma split_join (ws : list str) :
  Forall slash_free ws ->
  forall w0,
    slash_free w0 ->
    Spec.split_slash (w0 ++ flat_map (fun w => "/"%char :: w) ws) = w0 :: ws.
Proof.
  induction ws as [|w ws IH]; intros Hws w0 H0.
  - cbn [flat_map]. rewrite app_nil_r.
    induction H0 as [|c w0 Hc _ IH0]; [reflexivity|].
    cbn [Spec.split_slash]. apply Ascii.eqb_neq in Hc. rewrite Hc, IH0.
    reflexivity.
  - inversion Hws as [|? ? Hw Hws']; subst.
    induction H0 as [|c w0 Hc _ IH0].
    + cbn [app flat_map].
      rewrite split_slash_slash. f_equal. apply IH; assumption.
    + cbn [app Spec.split_slash]. apply Ascii.eqb_neq in Hc.
      rewrite Hc, IH0. reflexivity.
Qed.

Lemma length_flat_map_filter (p : str -> bool) (ws : list str) :
  (length (flat_map (fun w => "/"%char :: w) (filter p ws))
   <= length (flat_map (fun w => "/"%char :: w) ws))%nat.
Proof.
  induction ws as [|w ws IH]; [reflexivity|].
  cbn [filter flat_map]. destruct (p w).
  - cbn [flat_map]. rewrite !length_app. lia.
  - rewrite !length_app. lia.
Qed.

Lemma forallb_flat_map_filter (P : ascii -> bool) (p : str -> bool)
    (ws : list str) :
  forallb P (flat_map (fun w => "/"%char :: w) ws) = true ->
  forallb P (flat_map (fun w => "/"%char :: w) (filter p ws)) = true.
Proof.
  induction ws as [|w ws IH]; [reflexivity|].
  cbn [filter flat_map]. rewrite forallb_app. intros H.
  apply andb_true_iff in H. destruct H as [Hw Hws].
  destruct (p w); [|apply IH; exact Hws].
  cbn [flat_map]. rewrite forallb_app, Hw. apply IH. exact Hws.
Qed.

Lemma filter_keep_ok (ws : list str) :
  existsb (str_eqb (lit "..")) ws = false ->
  Forall component_ok (filter Spec.keep ws).
Proof.
  intros Hdd. apply Forall_forall. intros w Hw.
  apply filter_In in Hw. destruct Hw as [Hin Hkeep].
  unfold Spec.keep in Hkeep. apply negb_true_iff, orb_false_iff in Hkeep.
  destruct Hkeep as [Hnil Hdot].
  repeat split; intros ->.
  - discriminate Hnil.
  - discriminate Hdot.
  - assert (existsb (str_eqb (lit "..")) ws = true)
      by (apply existsb_exists; exists (lit ".."); split; [exact Hin|reflexivity]).
    congruence.
Qed.

Lemma filter_keep_free (ws : list str) :
  Forall slash_free ws -> Forall slash_free (filter Spec.keep ws).
Proof.
  intros H. apply Forall_forall. intros w Hw. apply filter_In in Hw.
  rewrite Forall_forall in H. apply H. tauto.
Qed.

(** An accepted name is the collapsed form of the name given. *)
Lemma accepted_collapse (name d : str) :
  check_filename name = Ok d -> d <> [] ->
  Spec.ends_with_dot name = false
  /\ Spec.rejected name = false
  /\ d = Spec.collapse name.
Proof.
  intros Hd Hne.
  destruct (Spec.ends_with_dot name) eqn:Hend.
  { destruct (check_filename_trailing_dot_general name Hend) as [H | H];
      rewrite H in Hd; [injection Hd as <-; contradiction Hne; reflexivity
                       |discriminate Hd]. }
  rewrite (check_filename_value name Hend) in Hd.
  destruct (Spec.rejected name);
    injection Hd as <-; [contradiction Hne; reflexivity|auto].
Qed.

Lemma collapse_normal (name : str) :
  Spec.rejected name = false ->
  normal_name (Spec.collapse name)
  /\ (length (Spec.collapse name) <= length name)%nat.
Proof.
  unfold Spec.rejected. intros Hrej.
  apply orb_false_iff in Hrej. destruct Hrej as [Hrej Hdd].
  apply orb_false_iff in Hrej. destruct Hrej as [Hrej Hbig].
  apply orb_false_iff in Hrej. destruct Hrej as [Hrej Htilde].
  apply orb_false_iff in Hrej. destruct Hrej as [Hall Hlen].
  apply negb_false_iff in Hall. apply Nat.eqb_neq in Hlen.
  apply Nat.leb_gt in Hbig. apply Ascii.eqb_neq in Htilde.
  unfold Spec.has_dotdot in Hdd.
  pose proof (split_slash_free name) as Hfree.
  unfold Spec.collapse.
  destruct (Spec.split_slash name) as [|w0 ws] eqn:Hs;
    [exfalso; exact (split_slash_nonempty name Hs)|].
  pose proof (unsplit name w0 ws Hs) as Hname.
  inversion Hfree as [|? ? Hfree0 Hfreews]; subst w0 ws. rename x into w0.
  rename l into ws.
  cbn [existsb] in Hdd. apply orb_false_iff in Hdd. destruct Hdd as [Hdd0 Hdd].
  cbv zeta.
  set (out := w0 ++ flat_map (fun w => "/"%char :: w) (filter Spec.keep ws)).
  assert (Hlenout : (length out <= length name)%nat).
  { subst out. rewrite Hname. rewrite !length_app.
    pose proof (length_flat_map_filter Spec.keep ws). lia. }
  assert (Hallout : forallb Spec.allowed_byte out = true).
  { subst out. rewrite Hname in Hall. rewrite forallb_app in Hall |- *.
    apply andb_true_iff in Hall. destruct Hall as [H0 Hws].
    rewrite H0. apply forallb_flat_map_filter. exact Hws. }
  destruct (Nat.eqb_spec (length out) 0) as [E | N].
  - split; [|cbn; lia].
    unfold normal_name. split; [reflexivity|]. split; [discriminate|].
    split; [cbn; lia|]. left. reflexivity.
  - split; [|exact Hlenout].
    unfold normal_name. split; [exact Hallout|]. split; [|split; [lia|]].
    + subst out. destruct w0 as [|c w0].
      * cbn [app]. destruct (filter Spec.keep ws); [contradiction N; reflexivity|].
        discriminate.
      * rewrite Hname in Htilde. exact Htilde.
    + right. exists w0, (filter Spec.keep ws). split.
      * apply split_join; [apply filter_keep_free; exact Hfreews|exact Hfree0].
      * split; [|apply filter_keep_ok; exact Hdd].
        intros ->. discriminate Hdd0.
Qed.

(** X12.  The name [check_filename] accepts is in normal form and is not
    longer than the name given: its bytes are in the allowlist, it does not
    begin with a tilde, and after its first component, which is not [..], it
    has no empty component (no doubled slash and no slash at the end), no
    [.] and no [..], unless it is [/] alone. *)
Theorem check_filename_normal (name d : str) :
  check_filename name = Ok d -> d <> [] ->
  normal_name d /\ (length d <= length name)%nat.
Proof.
  intros Hd Hne.
  destruct (accepted_collapse name d Hd Hne) as (_ & Hrej & ->).
  apply collapse_normal. exact Hrej.
Qed.

Lemma filter_keep_idem (ws : list str) :
  filter Spec.keep (filter Spec.keep ws) = filter Spec.keep ws.
Proof.
  induction ws as [|w ws IH]; [reflexivity|].
  cbn [filter]. destruct (Spec.keep w) eqn:E; [|exact IH].
  cbn [filter]. rewrite E, IH. reflexivity.
Qed.

Lemma component_ok_keep (ws : list str) :
  Forall component_ok ws -> filter Spec.keep ws = ws.
Proof.
  induction 1 as [|w ws (Hn & Hd & _) _ IH]; [reflexivity|].
  cbn [filter]. unfold Spec.keep at 1.
  replace (str_eqb w []) with false
    by (symmetry; destruct (str_eqb w []) eqn:E; [|reflexivity];
        apply str_eqb_eq in E; contradiction).
  replace (str_eqb w (lit ".")) with false
    by (symmetry; destruct (str_eqb w (lit ".")) eqn:E; [|reflexivity];
        apply str_eqb_eq in E; contradiction).
  cbn [orb negb]. rewrite IH. reflexivity.
Qed.

Lemma normal_fixed (d : str) :
  normal_name d ->
  Spec.ends_with_dot d = false /\ Spec.rejected d = false
  /\ Spec.collapse d = d.
Proof.
  intros (Hall & Htilde & Hlen & Hform).
  destruct Hform as [-> | (w0 & ws & Hs & Hw0 & Hws)].
  { repeat split. }
  pose proof (unsplit d w0 ws Hs) as Hd.
  assert (Hdd : existsb (str_eqb (lit "..")) (w0 :: ws) = false).
  { destruct (existsb (str_eqb (lit "..")) (w0 :: ws)) eqn:E; [|reflexivity].
    apply existsb_exists in E. destruct E as (w & Hin & Hw).
    apply str_eqb_eq in Hw. subst w. destruct Hin as [-> | Hin].
    - contradiction Hw0; reflexivity.
    - rewrite Forall_forall in Hws. destruct (Hws _ Hin) as (_ & _ & C).
      contradiction C; reflexivity. }
  split; [|split].
  - destruct (Spec.ends_with_dot d) eqn:E; [|reflexivity].
    destruct (ends_with_dot_split d E) as (v0 & vs & Hv).
    rewrite Hs in Hv. injection Hv as -> ->.
    rewrite Forall_app in Hws. destruct Hws as [_ Hdot].
    inversion Hdot as [|? ? (_ & C & _) _]. contradiction C; reflexivity.
  - unfold Spec.rejected, Spec.has_dotdot. rewrite Hall, Hs, Hdd.
    replace (Nat.eqb (length d) 0) with false
      by (symmetry; apply Nat.eqb_neq; lia).
    replace (Ascii.eqb (deref d) "~") with false
      by (symmetry; apply Ascii.eqb_neq; exact Htilde).
    replace (Nat.leb 1024 (length d)) with false
      by (symmetry; apply Nat.leb_gt; lia).
    reflexivity.
  - unfold Spec.collapse. rewrite Hs. cbv zeta.
    rewrite (component_ok_keep ws Hws). rewrite <- Hd.
    replace (Nat.eqb (length d) 0) with false
      by (symmetry; apply Nat.eqb_neq; lia).
    reflexivity.
Qed.

(** X13.  [check_filename] leaves the names it answers alone: given an
    accepted name again, it answers the same name. *)
Theorem check_filename_idempotent (name d : str) :
  check_filename name = Ok d -> d <> [] ->
  check_filename d = Ok d.
Proof.
  intros Hd Hne.
  destruct (accepted_collapse name d Hd Hne) as (_ & Hrej0 & ->).
  destruct (collapse_normal name Hrej0) as [Hnorm _].
  destruct (normal_fixed _ Hnorm) as (Hend & Hrej & Hfix).
  rewrite (check_filename_value _ Hend), Hrej, Hfix. reflexivity.
Qed.


Lemma check_filename_normal_witness :
  normal_name (lit "src/lib/main.c")
  /\ (length (lit "src/lib/main.c") <= length (lit "src//lib/./main.c"))%nat.
Proof.
  apply (check_filename_normal (lit "src//lib/./main.c")
                               (lit "src/lib/main.c")).
  - vm_compute. reflexivity.
  - discriminate.
Defined.

Lemma check_filename_idempotent_witness :
  check_filename (lit "src/lib/main.c") = Ok (lit "src/lib/main.c").
Proof.
  apply (check_filename_idempotent (lit "src//lib/./main.c")
                                   (lit "src/lib/main.c")).
  - vm_compute. reflexivity.
  - discriminate.
Defined.


End FilenameMoreFacts.

(** ** The command line as the shell reads it *)

Module CommandMoreFacts.
Import Path Shell Owner QuoteFacts.

Lemma sh_scan_bare_then (rest tail : str) :
  forall w,
    forallb bare_char rest = true ->
    sh_scan Unquoted (Some w) (rest ++ " "%char :: tail)
    = option_map (cons (w ++ rest)) (sh_scan Unquoted None tail).
Proof.
  induction rest as [|c rest IH]; intros w Hall.
  - cbn [app]. rewrite app_nil_r. reflexivity.
  - cbn [forallb] in Hall. apply andb_true_iff in Hall.
    destruct Hall as [Hc Hrest].
    destruct (bare_plain c Hc) as (Hb & Hq & Hd & Hs & Hp).
    cbn [app sh_scan]. rewrite Hb, Hq, Hd, Hs, Hp.
    rewrite IH by exact Hrest. rewrite <- app_assoc. reflexivity.
Qed.

Lemma needs_quote_false_cons (c : ascii) (rest : str) :
  Spec.needs_quote (c :: rest) = false ->
  Ascii.eqb c "~" = false /\ bare_char c = true
  /\ forallb bare_char rest = true.
Proof.
  unfold Spec.needs_quote. intros H.
  apply orb_false_iff in H. destruct H as [Htilde Hall].
  cbn [deref existsb] in Htilde, Hall.
  apply orb_false_iff in Hall. destruct Hall as [Hc Hrest].
  apply negb_false_iff in Hc. repeat split; try assumption.
  clear -Hrest. induction rest as [|d rest IH]; [reflexivity|].
  cbn [existsb forallb] in *. apply orb_false_iff in Hrest.
  destruct Hrest as [Hd Hr]. apply negb_false_iff in Hd.
  rewrite Hd, IH by assumption. reflexivity.
Qed.

(** A quoted word followed by a space: the shell reads the word and goes
    on with what follows the space. *)
Lemma quoted_word_then (s tail : str) :
  s <> [] ->
  sh_scan Unquoted None (shell_quote s ++ " "%char :: tail)
  = option_map (cons s) (sh_scan Unquoted None tail).
Proof.
  intros Hne. rewrite shell_quote_quoted_form. unfold Spec.quoted_form.
  destruct (Spec.needs_quote s) eqn:Hq.
  - change (lit "'") with ["'"%char]. rewrite <- !app_assoc.
    cbn [app]. cbn [sh_scan].
    change (Ascii.eqb "'" "'") with true.
    change (is_blank "'") with false. cbv iota.
    rewrite (sh_scan_single s [] (" "%char :: tail)). reflexivity.
  - destruct s as [|c rest]; [contradiction Hne; reflexivity|].
    destruct (needs_quote_false_cons c rest Hq) as (Htilde & Hc & Hrest).
    destruct (bare_plain c Hc) as (Hb & Hq' & Hd & Hs & Hp).
    cbn [app sh_scan]. rewrite Hb, Hq', Hd, Hs, Hp, Htilde.
    apply (sh_scan_bare_then rest tail [c] Hrest).
Qed.

Lemma quoted_word_last (s : str) :
  s <> [] -> sh_scan Unquoted None (shell_quote s) = Some [s].
Proof.
  intros Hne. rewrite shell_quote_quoted_form. unfold Spec.quoted_form.
  destruct (Spec.needs_quote s) eqn:Hq.
  - change (lit "'") with ["'"%char].
    cbn [app sh_scan].
    change (Ascii.eqb "'" "'") with true.
    change (is_blank "'") with false. cbv iota.
    rewrite (sh_scan_single s [] []). reflexivity.
  - destruct s as [|c rest]; [contradiction Hne; reflexivity|].
    apply sh_words_bare. exact Hq.
Qed.

Lemma quoted_words (ws : list str) :
  forall a,
    a <> [] -> Forall (fun w => w <> []) ws ->
    sh_scan Unquoted None
            (shell_quote a
               ++ concat (map (fun arg => lit " " ++ shell_quote arg) ws))
    = Some (a :: ws).
Proof.
  induction ws as [|w ws IH]; intros a Ha Hws.
  - cbn [map concat]. rewrite app_nil_r. apply quoted_word_last. exact Ha.
  - inversion Hws as [|? ? Hw Hws']; subst.
    cbn [map concat]. change (lit " ") with [" "%char].
    rewrite <- app_assoc. cbn [app].
    rewrite quoted_word_then by exact Ha.
    rewrite IH by assumption. reflexivity.
Qed.

(** X15.  With two COMMAND words or more, none of them empty, the shell
    reads the string after [-c] as the first word followed by all the words,
    the first one again included: the command runs with its own name as its
    first argument. *)
Theorem command_read_back (argv : list str) :
  (2 <= length argv)%nat ->
  Forall (fun w => w <> []) argv ->
  sh_words (command argv) = Some (hd [] argv :: argv).
Proof.
  intros Hlen Hall.
  destruct argv as [|a0 [|a1 rest]]; cbn [length] in Hlen; try lia.
  unfold command.
  change (Nat.eqb (length (a0 :: a1 :: rest)) 1) with false. cbv iota.
  rewrite CommandFacts.fold_left_command.
  cbn [nth hd]. unfold sh_words.
  apply quoted_words; [|exact Hall].
  inversion Hall; assumption.
Qed.


Lemma command_read_back_witness :
  sh_words (command [lit "echo"; lit "it's"; lit "a b"])
  = Some [lit "echo"; lit "echo"; lit "it's"; lit "a b"].
Proof.
  apply (command_read_back [lit "echo"; lit "it's"; lit "a b"]).
  - simpl. lia.
  - repeat constructor; discriminate.
Defined.

End CommandMoreFacts.

(** ** More on the byte buffer *)

Module BufferMoreFacts.
Import JBuffer BufferInv BufferFacts.

(** The pending bytes are the bytes written, without the first [head]. *)
Lemma contents_written (b : jbuffer) :
  0 <= head_ b <= tail_ b ->
  contents b = skipn (Z.to_nat (head_ b)) (written b).
Proof.
  intros H. unfold contents, written, substr.
  rewrite skipn_firstn_comm. f_equal. lia.
Qed.

Lemma extends_contents (b b' : jbuffer) (data : str) :
  Spec.buf_wf b -> extends b b' data ->
  contents b' = contents b ++ data.
Proof.
  intros Hwf (Hwf' & Ht & Hh & _ & Hw & _).
  pose proof Hwf as ((Hht & Htc) & Hh0 & _).
  pose proof Hwf' as ((Hht' & _) & Hh0' & _).
  rewrite (contents_written b') by lia.
  rewrite (contents_written b) by lia.
  rewrite Hw, Hh, skipn_app.
  rewrite written_length by exact Hwf.
  replace (Z.to_nat (head_ b) - Z.to_nat (tail_ b))%nat with 0%nat by lia.
  reflexivity.
Qed.

(** X16.  [append] is first in, first out: the bytes appended come after the
    bytes that wait in the buffer, which stay as they are, also when the
    array has to be replaced by a larger one; the absolute position of the
    first waiting byte does not move. *)
Theorem append_fifo (b : jbuffer) (data : str) :
  Spec.buf_wf b ->
  tail_ b + Z.of_nat (length data) <= 2 ^ 62 ->
  exists b',
    append b data = Ok b'
    /\ Spec.buf_wf b'
    /\ contents b' = contents b ++ data
    /\ bufpos_ b' + head_ b' = bufpos_ b + head_ b.
Proof.
  intros Hwf Hfit.
  destruct (append_ok b data Hwf Hfit) as (b' & Happ & Hext).
  exists b'. split; [exact Happ|].
  pose proof (extends_contents b b' data Hwf Hext) as Hc.
  destruct Hext as (Hwf' & _ & Hh & Hp & _).
  split; [exact Hwf'|]. split; [exact Hc|]. lia.
Qed.

(** X17.  [read] only adds at the end: when it answers true the bytes that
    [::read] stored follow the bytes that waited, and when it answers false
    the waiting bytes are unchanged; it never moves [head] or [bufpos]. *)
Theorem read_adds_at_end (b : jbuffer) (from : Z) (r : read_answer) :
  Spec.buf_wf b -> Spec.op_ok b (Spec.Read from r) ->
  exists any b',
    read b from r = Ok (any, b')
    /\ contents b'
       = contents b ++ (if any then match r with
                                    | ReadData data => data
                                    | _ => []
                                    end
                        else [])
    /\ head_ b' = head_ b /\ bufpos_ b' = bufpos_ b.
Proof.
  intros Hwf Hok.
  pose proof Hwf as ((Hht & Htc) & Hh & Hcap & Hlen & Hpos).
  unfold read.
  destruct ((from >=? 0) && negb (rclosed_ b) && negb (tail_ b =? cap_ b)).
  2:{ exists false, b. rewrite app_nil_r. repeat split. }
  destruct r as [[|x data]| |errno].
  - eexists false, _. split; [reflexivity|]. rewrite app_nil_r.
    repeat split.
  - cbn [Spec.op_ok] in Hok.
    assert (Hw : wrap64 (cap_ b - tail_ b) = cap_ b - tail_ b)
      by (apply wrap64_small; lia).
    rewrite Hw.
    replace (cap_ b - tail_ b <? Z.of_nat (length (x :: data))) with false
      by (symmetry; apply Z.ltb_ge; lia).
    eexists true, _. split; [reflexivity|].
    pose proof (store_ok b (x :: data) Hwf ltac:(lia)) as Hext.
    split; [exact (extends_contents _ _ _ Hwf Hext)|].
    split; reflexivity.
  - eexists false, _. split; [reflexivity|]. rewrite app_nil_r.
    repeat split.
  - destruct (negb (errno =? EINTR) && negb (errno =? EAGAIN));
      eexists false, _; (split; [reflexivity|]); rewrite app_nil_r;
      repeat split.
Qed.

(** X18.  A full buffer has room again as soon as one of its bytes has been
    consumed: [consume_to] then compacts, and [tail] is below [cap]. *)
Theorem full_buffer_drains (b : jbuffer) (off : Z) :
  Spec.buf_wf b -> Spec.op_ok b (Spec.ConsumeTo off) ->
  tail_ b = cap_ b ->
  bufpos_ b + head_ b < off ->
  exists b',
    consume_to b off = Ok b'
    /\ tail_ b' < cap_ b'
    /\ contents b' = Spec.bytes_between b off (bufpos_ b + tail_ b).
Proof.
  intros Hwf Hok Hfull Hsome.
  pose proof Hwf as ((Hht & Htc) & Hh & Hcap & Hlen & Hpos).
  destruct (consume_to_ok b off Hwf Hok) as (Hc & _ & _ & _ & Hbytes).
  assert (Hq : 3 * cap_ b / 4 <= tail_ b).
  { rewrite Hfull. apply Z.div_le_upper_bound; lia. }
  replace (3 * cap_ b / 4 <=? tail_ b) with true in Hc, Hbytes
    by (symmetry; apply Z.leb_le; exact Hq).
  exists (Spec.compact b off). split; [exact Hc|]. split; [|exact Hbytes].
  unfold Spec.compact. cbn [tail_ cap_]. lia.
Qed.

Lemma append_fifo_witness :
  exists b',
    append (jbuffer_new 8) (lit "hello world") = Ok b'
    /\ Spec.buf_wf b'
    /\ contents b' = contents (jbuffer_new 8) ++ lit "hello world"
    /\ bufpos_ b' + head_ b'
       = bufpos_ (jbuffer_new 8) + head_ (jbuffer_new 8).
Proof.
  apply (append_fifo (jbuffer_new 8) (lit "hello world")).
  - apply jbuffer_new_wf. split; [lia|reflexivity].
  - vm_compute. discriminate.
Defined.

Lemma read_adds_at_end_witness :
  exists any b',
    read (jbuffer_new 8) 0 (ReadData (lit "abc")) = Ok (any, b')
    /\ contents b'
       = contents (jbuffer_new 8) ++ (if any then lit "abc" else [])
    /\ head_ b' = head_ (jbuffer_new 8)
    /\ bufpos_ b' = bufpos_ (jbuffer_new 8).
Proof.
  apply (read_adds_at_end (jbuffer_new 8) 0 (ReadData (lit "abc"))).
  - apply jbuffer_new_wf. split; [lia|reflexivity].
  - vm_compute. discriminate.
Defined.

Lemma full_buffer_drains_witness :
  let b := {| buf_ := lit "abcdefgh"; head_ := 2; tail_ := 8; cap_ := 8;
              bufpos_ := 100; rclosed_ := false; wclosed_ := false;
              rerrno_ := 0 |} in
  exists b',
    consume_to b 105 = Ok b'
    /\ tail_ b' < cap_ b'
    /\ contents b' = Spec.bytes_between b 105 (bufpos_ b + tail_ b).
Proof.
  intros b.
  apply (full_buffer_drains b 105).
  - vm_compute. intuition discriminate.
  - vm_compute. intuition discriminate.
  - reflexivity.
  - reflexivity.
Defined.

End BufferMoreFacts.

(** ** Mount options, word by word *)

Module MountMoreFacts.
Import Mount MountInv.

Lemma word_ok_app (a b : str) : word_ok (a ++ b) <-> word_ok a /\ word_ok b.
Proof. unfold word_ok. apply Forall_app. Qed.

Lemma strcspn_word (w s reject : str) :
  word_ok w -> at_boundary s -> mem_char "," reject = true ->
  (forall c, In c w -> mem_char c reject = false) ->
  strcspn (w ++ s) reject = length w.
Proof.
  intros Hw Hs Hcomma Hfree.
  induction w as [|c w IH].
  - cbn [app length]. destruct Hs as [-> | (s' & ->)]; [reflexivity|].
    cbn [strcspn]. rewrite Hcomma. rewrite orb_true_r. reflexivity.
  - inversion Hw as [|? ? [_ Hnul] Hw']; subst.
    cbn [app strcspn length].
    apply Ascii.eqb_neq in Hnul. rewrite Hnul.
    rewrite (Hfree c (or_introl eq_refl)). cbn [orb].
    f_equal. apply IH; [exact Hw'|].
    intros x Hx. apply Hfree. right. exact Hx.
Qed.

Lemma strcspn_key (w s : str) :
  word_ok w -> at_boundary s ->
  strcspn (w ++ s) (lit ",=") = strcspn w (lit ",=").
Proof.
  intros Hw Hs. induction w as [|c w IH].
  - cbn [app]. destruct Hs as [-> | (s' & ->)]; reflexivity.
  - inversion Hw as [|? ? [_ Hnul] Hw']; subst.
    cbn [app strcspn]. rewrite (IH Hw'). reflexivity.
Qed.

Lemma strcspn_le (s reject : str) : (strcspn s reject <= length s)%nat.
Proof.
  induction s as [|c s IH]; [reflexivity|].
  cbn [strcspn length]. destruct (Ascii.eqb c NUL || mem_char c reject); lia.
Qed.

Lemma strspn_word (w s : str) :
  word_ok w -> w <> [] -> strspn (w ++ s) (lit ",") = 0%nat.
Proof.
  intros Hw Hne. destruct w as [|c w]; [contradiction Hne; reflexivity|].
  inversion Hw as [|? ? [Hc _] _]; subst.
  cbn [app strspn]. apply Ascii.eqb_neq in Hc.
  unfold mem_char. cbn [existsb lit list_ascii_of_string]. rewrite Hc.
  cbn [orb]. rewrite andb_false_r. reflexivity.
Qed.

Lemma deref_word (w s : str) :
  word_ok w -> w <> [] -> Ascii.eqb (deref (w ++ s)) NUL = false.
Proof.
  intros Hw Hne. destruct w as [|c w]; [contradiction Hne; reflexivity|].
  inversion Hw as [|? ? [_ Hc] _]; subst. apply Ascii.eqb_neq. exact Hc.
Qed.

Lemma find_mountarg_prefix (w s : str) (k : nat) :
  (k <= length w)%nat -> find_mountarg (w ++ s) k = find_mountarg w k.
Proof.
  intros Hk. unfold find_mountarg.
  rewrite firstn_app. replace (k - length w)%nat with 0%nat by lia.
  cbn [firstn]. rewrite app_nil_r. reflexivity.
Qed.

(** One turn of the constructor's loop over a word that is not empty. *)
Lemma parse_mopt_word (fuel : nat) (w s : str) (o : Z) (d : str) :
  word_ok w -> w <> [] -> at_boundary s ->
  parse_mopt (S fuel) (w ++ s) o d
  = parse_mopt fuel s (fst (ctor_word (o, d) w)) (snd (ctor_word (o, d) w)).
Proof.
  intros Hw Hne Hs.
  assert (Hlenw : Nat.eqb (length w) 0 = false)
    by (apply Nat.eqb_neq; destruct w; [contradiction Hne; reflexivity
                                        |discriminate]).
  cbn [parse_mopt]. rewrite (deref_word w s Hw Hne).
  rewrite (strspn_word w s Hw Hne). cbn [skipn].
  rewrite (strcspn_key w s Hw Hs).
  set (klen := strcspn w (lit ",=")).
  assert (Hklen : (klen <= length w)%nat) by apply strcspn_le.
  rewrite skipn_app.
  replace (klen - length w)%nat with 0%nat by lia. cbn [skipn].
  assert (Hrest : word_ok (skipn klen w)).
  { rewrite <- (firstn_skipn klen w) in Hw. apply word_ok_app in Hw. tauto. }
  rewrite (strcspn_word (skipn klen w) s (lit ",") Hrest Hs eq_refl).
  2:{ intros c Hc. unfold word_ok in Hrest. rewrite Forall_forall in Hrest.
      destruct (Hrest c Hc) as [Hcomma _]. apply Ascii.eqb_neq in Hcomma.
      unfold mem_char. cbn [existsb lit list_ascii_of_string].
      rewrite Hcomma. reflexivity. }
  rewrite skipn_app, length_skipn.
  rewrite (skipn_all2 (skipn klen w)) by (rewrite length_skipn; lia).
  replace (length w - klen - (length w - klen))%nat with 0%nat by lia.
  cbn [skipn app].
  rewrite (find_mountarg_prefix w s klen Hklen).
  unfold ctor_word. fold klen. cbn [fst snd].
  destruct (find_mountarg w klen) as [ma|]; [reflexivity|].
  replace (klen + (length w - klen))%nat with (length w) by lia.
  rewrite Hlenw. rewrite firstn_app, firstn_all, Nat.sub_diag.
  cbn [firstn]. rewrite app_nil_r. cbn [fst snd]. reflexivity.
Qed.

(** A comma in front changes nothing. *)
Lemma parse_mopt_comma (fuel : nat) (s : str) (o : Z) (d : str) :
  parse_mopt (S fuel) (","%char :: s) o d = parse_mopt (S fuel) s o d.
Proof.
  cbn [parse_mopt deref].
  change (Ascii.eqb "," NUL) with false. cbv iota.
  change (strspn (","%char :: s) (lit ",")) with (S (strspn s (lit ","))).
  cbn [skipn].
  destruct (Ascii.eqb (deref s) NUL) eqn:Hs; [|reflexivity].
  destruct s as [|c s].
  - cbn. destruct fuel; reflexivity.
  - cbn [deref] in Hs. apply Ascii.eqb_eq in Hs. subst c.
    cbn [strspn]. change (Ascii.eqb NUL NUL) with true. cbn [negb andb skipn].
    cbn [strcspn]. change (Ascii.eqb NUL NUL) with true. cbn [orb skipn].
    cbn [strcspn]. change (Ascii.eqb NUL NUL) with true. cbn [orb skipn].
    replace (find_mountarg (NUL :: s) 0) with (@None mountarg) by reflexivity.
    cbn [Nat.add Nat.eqb].
    destruct fuel; cbn [parse_mopt deref];
      change (Ascii.eqb NUL NUL) with true; reflexivity.
Qed.

Lemma ctor_word_nil (st : Z * str) : ctor_word st [] = st.
Proof. reflexivity. Qed.

Lemma length_join_tail (ws : list str) :
  (length ws <= length (flat_map (fun x => ","%char :: x) ws))%nat.
Proof.
  induction ws as [|w ws IH]; [reflexivity|].
  cbn [flat_map length]. rewrite length_app. cbn [length]. lia.
Qed.

(** The loop of the constructor over comma-joined words is [ctor_word]
    over the words. *)
Lemma parse_mopt_words (ws : list str) :
  forall fuel o d,
    Forall word_ok ws ->
    (length (join ws) <= fuel)%nat ->
    parse_mopt fuel (join ws) o d
    = Ok (fold_left ctor_word ws (o, d)).
Proof.
  induction ws as [|w ws IH]; intros fuel o d Hws Hfuel.
  - cbn. destruct fuel; reflexivity.
  - inversion Hws as [|? ? Hw Hws']; subst.
    cbn [fold_left].
    assert (Hb : at_boundary (flat_map (fun x => ","%char :: x) ws)).
    { destruct ws; [left; reflexivity|right; eexists; reflexivity]. }
    assert (Hnext : forall f o' d',
               (length (flat_map (fun x => ","%char :: x) ws) <= f)%nat ->
               parse_mopt f (flat_map (fun x => ","%char :: x) ws) o' d'
               = Ok (fold_left ctor_word ws (o', d'))).
    { intros f o' d' Hf. destruct ws as [|w' ws'].
      - cbn. destruct f; reflexivity.
      - cbn [flat_map app] in Hf |- *.
        destruct f as [|f]; [cbn [length] in Hf; lia|].
        rewrite parse_mopt_comma. apply (IH (S f) o' d' Hws').
        cbn [join]. cbn [length] in Hf. lia. }
    cbn [join] in Hfuel |- *.
    destruct w as [|c w].
    + cbn [app]. rewrite ctor_word_nil. apply Hnext. exact Hfuel.
    + destruct fuel as [|fuel]; [cbn [app length] in Hfuel; lia|].
      rewrite parse_mopt_word by (try assumption; discriminate).
      rewrite Hnext.
      * destruct (ctor_word (o, d) (c :: w)); reflexivity.
      * rewrite length_app in Hfuel. cbn [length] in Hfuel. lia.
Qed.

(** X19.  The constructor reads its options word by word: a word whose key
    (the word up to its [=]) is in the table adds the flag of the table to
    [opts], by a bitwise or, so that [rw], whose flag is 0, changes nothing;
    every other word that is not empty is added to [data], after a comma
    when [data] is not empty; empty words are dropped. *)
Theorem mountslot_word_by_word (fsname_ type_ : str) (ws : list str) :
  Forall word_ok ws ->
  mountslot_new fsname_ type_ (Some (join ws))
  = Ok {| fsname := fsname_; type := type_;
          opts := fst (fold_left ctor_word ws (0, []));
          data := snd (fold_left ctor_word ws (0, []));
          wanted := false |}.
Proof.
  intros Hws. unfold mountslot_new.
  rewrite (parse_mopt_words ws _ 0 [] Hws (le_n _)). cbn [bind].
  match goal with
  | |- (let '(o, d) := ?x in _) = _ => change x with (fold_left ctor_word ws (0, []))
  end.
  destruct (fold_left ctor_word ws (0, [])). reflexivity.
Qed.

(** *** [add_mountopt] *)

Lemma key_test (inopt w s : str) :
  word_ok w -> at_boundary s ->
  Nat.eqb (strcspn (w ++ s) (lit ",=")) (strcspn inopt (lit ",="))
  && str_eqb (firstn (strcspn inopt (lit ",=")) inopt)
             (firstn (strcspn inopt (lit ",=")) (w ++ s))
  = same_key inopt w.
Proof.
  intros Hw Hs. unfold same_key. rewrite (strcspn_key w s Hw Hs).
  destruct (Nat.eqb_spec (strcspn w (lit ",=")) (strcspn inopt (lit ",=")))
    as [E | N]; [|reflexivity].
  cbn [andb]. rewrite firstn_app.
  replace (strcspn inopt (lit ",=") - length w)%nat with 0%nat
    by (pose proof (strcspn_le w (lit ",=")); lia).
  cbn [firstn]. rewrite app_nil_r. reflexivity.
Qed.

Lemma word_spans (w s : str) :
  word_ok w -> at_boundary s ->
  let klen := strcspn (w ++ s) (lit ",=") in
  let vlen := strcspn (skipn klen (w ++ s)) (lit ",") in
  (klen + vlen = length w)%nat
  /\ skipn vlen (skipn klen (w ++ s)) = s.
Proof.
  intros Hw Hs. rewrite (strcspn_key w s Hw Hs). cbv zeta.
  set (klen := strcspn w (lit ",=")).
  assert (Hklen : (klen <= length w)%nat) by apply strcspn_le.
  rewrite skipn_app.
  replace (klen - length w)%nat with 0%nat by lia. cbn [skipn].
  assert (Hrest : word_ok (skipn klen w)).
  { rewrite <- (firstn_skipn klen w) in Hw. apply word_ok_app in Hw. tauto. }
  rewrite (strcspn_word (skipn klen w) s (lit ",") Hrest Hs eq_refl).
  2:{ intros c Hc. unfold word_ok in Hrest. rewrite Forall_forall in Hrest.
      destruct (Hrest c Hc) as [Hcomma _]. apply Ascii.eqb_neq in Hcomma.
      unfold mem_char. cbn [existsb lit list_ascii_of_string].
      rewrite Hcomma. reflexivity. }
  rewrite length_skipn. split; [lia|].
  rewrite skipn_app, length_skipn.
  rewrite (skipn_all2 (skipn klen w)) by (rewrite length_skipn; lia).
  replace (length w - klen - (length w - klen))%nat with 0%nat by lia.
  reflexivity.
Qed.

(** One turn of the loop over the first option of [data], which has
    another key. *)
Lemma drop_mopt_first (fuel : nat) (inopt pre w s : str) :
  other_option inopt w -> at_boundary s ->
  drop_mopt (S fuel) inopt (strcspn inopt (lit ",=")) pre (w ++ s)
  = drop_mopt fuel inopt (strcspn inopt (lit ",=")) (pre ++ w) s.
Proof.
  intros (Hw & Hne & Hkey) Hs.
  cbn [drop_mopt]. rewrite (deref_word w s Hw Hne).
  rewrite (strspn_word w s Hw Hne). cbn [skipn Nat.add].
  rewrite (key_test inopt w s Hw Hs), Hkey.
  destruct (word_spans w s Hw Hs) as [Hlen Hov]. cbv zeta in Hlen, Hov.
  rewrite Hlen, Hov.
  rewrite firstn_app, firstn_all, Nat.sub_diag. cbn [firstn].
  rewrite app_nil_r. reflexivity.
Qed.

(** One turn over a later option, which follows a comma. *)
Lemma drop_mopt_next (fuel : nat) (inopt pre w s : str) :
  other_option inopt w -> at_boundary s ->
  drop_mopt (S fuel) inopt (strcspn inopt (lit ",=")) pre
            (","%char :: w ++ s)
  = drop_mopt fuel inopt (strcspn inopt (lit ",="))
              (pre ++ ","%char :: w) s.
Proof.
  intros (Hw & Hne & Hkey) Hs.
  cbn [drop_mopt deref]. change (Ascii.eqb "," NUL) with false. cbv iota.
  change (strspn (","%char :: w ++ s) (lit ","))
    with (S (strspn (w ++ s) (lit ","))).
  rewrite (strspn_word w s Hw Hne). cbn [skipn].
  rewrite (key_test inopt w s Hw Hs), Hkey.
  destruct (word_spans w s Hw Hs) as [Hlen Hov]. cbv zeta in Hlen, Hov.
  rewrite Hov. f_equal.
  replace (1 + strcspn (w ++ s) (lit ",=")
           + strcspn (skipn (strcspn (w ++ s) (lit ",=")) (w ++ s)) (lit ","))%nat
    with (S (length w)) by lia.
  cbn [firstn]. rewrite firstn_app, firstn_all, Nat.sub_diag. cbn [firstn].
  rewrite app_nil_r. reflexivity.
Qed.

(** The loop over the options that follow the first, none of which has
    the key of [inopt]. *)
Lemma drop_mopt_walk (inopt : str) (ws : list str) :
  forall fuel pre tail,
    Forall (other_option inopt) ws ->
    at_boundary tail ->
    drop_mopt (length ws + fuel) inopt (strcspn inopt (lit ",=")) pre
              (flat_map (fun x => ","%char :: x) ws ++ tail)
    = drop_mopt fuel inopt (strcspn inopt (lit ",="))
                (pre ++ flat_map (fun x => ","%char :: x) ws) tail.
Proof.
  induction ws as [|w ws IH]; intros fuel pre tail Hws Htail.
  - cbn [flat_map app length Nat.add]. rewrite app_nil_r. reflexivity.
  - inversion Hws as [|? ? Hw Hws']; subst.
    cbn [flat_map length Nat.add]. rewrite <- app_assoc.
    cbn [app].
    rewrite drop_mopt_next.
    + rewrite IH by assumption. rewrite <- app_assoc. reflexivity.
    + exact Hw.
    + destruct ws as [|w' ws']; [exact Htail|].
      right. eexists. reflexivity.
Qed.

Lemma drop_mopt_end (fuel : nat) (inopt pre : str) (n : nat) :
  drop_mopt fuel inopt n pre [] = Ok pre.
Proof. destruct fuel; cbn; rewrite app_nil_r; reflexivity. Qed.

Lemma length_join (ws : list str) :
  Forall (fun w => w <> []) ws -> (length ws <= length (join ws))%nat.
Proof.
  intros H. destruct ws as [|w ws]; [reflexivity|].
  inversion H as [|? ? Hw _]; subst. cbn [join length].
  rewrite length_app. pose proof (length_join_tail ws).
  destruct w; [contradiction Hw; reflexivity|]. cbn [length]. lia.
Qed.

Lemma other_nonempty (inopt : str) (ws : list str) :
  Forall (other_option inopt) ws -> Forall (fun w => w <> []) ws.
Proof.
  intros H. eapply Forall_impl; [|exact H]. intros w (_ & Hne & _). exact Hne.
Qed.

(** When no option of [data] has the key of [inopt], nothing is deleted. *)
Lemma drop_mopt_keeps (inopt : str) (ws : list str) :
  Forall (other_option inopt) ws ->
  drop_mopt (length (join ws)) inopt (strcspn inopt (lit ",=")) [] (join ws)
  = Ok (join ws).
Proof.
  intros Hws. pose proof (length_join ws (other_nonempty _ _ Hws)) as Hlen.
  destruct ws as [|w ws]; [reflexivity|].
  inversion Hws as [|? ? Hw Hws']; subst.
  remember (length (join (w :: ws))) as n eqn:En.
  cbn [length] in Hlen.
  replace n with (S (length ws + (n - S (length ws))))%nat by lia.
  cbn [join].
  rewrite drop_mopt_first.
  - rewrite <- (app_nil_r (flat_map _ ws)) at 1.
    rewrite drop_mopt_walk; [|exact Hws'|left; reflexivity].
    apply drop_mopt_end.
  - exact Hw.
  - destruct ws; [left; reflexivity|right; eexists; reflexivity].
Qed.

(** X20.  [add_mountopt] with an option whose key is not in the table and
    that no option of [data] has: the option is added at the end of [data],
    after a comma when [data] is not empty, and nothing else changes. *)
Theorem add_mountopt_new_key (ms : mountslot) (inopt : str)
    (ws : list str) :
  find_mountarg inopt (strcspn inopt (lit ",=")) = None ->
  data ms = join ws ->
  Forall (other_option inopt) ws ->
  add_mountopt ms inopt
  = Ok {| fsname := fsname ms; type := type ms; opts := opts ms;
          data := data ms
                    ++ (if Nat.eqb (length (data ms)) 0 then [] else lit ",")
                    ++ firstn (strlen inopt) inopt;
          wanted := wanted ms |}.
Proof.
  intros Hfind Hdata Hws. unfold add_mountopt. rewrite Hfind, Hdata.
  rewrite (drop_mopt_keeps inopt ws Hws). reflexivity.
Qed.

(** The turn that deletes the last option of [data]. *)
Lemma drop_mopt_last (fuel : nat) (inopt pre o : str) :
  word_ok o -> o <> [] -> same_key inopt o = true ->
  drop_mopt (S fuel) inopt (strcspn inopt (lit ",=")) pre (","%char :: o)
  = Undefined.
Proof.
  intros Ho Hno Hkey.
  replace (","%char :: o) with (","%char :: o ++ [])
    by (rewrite app_nil_r; reflexivity).
  cbn [drop_mopt deref]. change (Ascii.eqb "," NUL) with false. cbv iota.
  change (strspn (","%char :: o ++ []) (lit ","))
    with (S (strspn (o ++ []) (lit ","))).
  rewrite (strspn_word o [] Ho Hno). cbn [skipn].
  rewrite (key_test inopt o [] Ho (or_introl eq_refl)), Hkey.
  destruct (word_spans o [] Ho (or_introl eq_refl)) as [_ Hov].
  cbv zeta in Hov. rewrite Hov. rewrite app_nil_r.
  replace (Nat.ltb (length pre) (length pre + 1)) with true
    by (symmetry; apply Nat.ltb_lt; lia).
  reflexivity.
Qed.

(** X21.  [add_mountopt] with an option whose key the last option of [data]
    has, when [data] has other options before it: after the deletion the
    loop resumes one byte past the terminator of the shortened [data] and
    reads there. *)
Theorem add_mountopt_last_key (ms : mountslot) (inopt : str)
    (ws : list str) (o : str) :
  find_mountarg inopt (strcspn inopt (lit ",=")) = None ->
  data ms = join (ws ++ [o]) ->
  ws <> [] ->
  Forall (other_option inopt) ws ->
  word_ok o -> o <> [] -> same_key inopt o = true ->
  add_mountopt ms inopt = Undefined.
Proof.
  intros Hfind Hdata Hne Hws Ho Hno Hkey.
  unfold add_mountopt. rewrite Hfind, Hdata.
  assert (Hlen : (length (ws ++ [o]) <= length (join (ws ++ [o])))%nat).
  { apply length_join. apply Forall_app. split.
    - exact (other_nonempty _ _ Hws).
    - constructor; [exact Hno|constructor]. }
  destruct ws as [|w ws]; [contradiction Hne; reflexivity|].
  inversion Hws as [|? ? Hw Hws']; subst.
  remember (length (join ((w :: ws) ++ [o]))) as n eqn:En.
  rewrite <- app_comm_cons in *. cbn [length] in Hlen.
  rewrite length_app in Hlen. cbn [length] in Hlen.
  replace n with (S (length ws + S (n - S (S (length ws)))))%nat by lia.
  cbn [join]. rewrite flat_map_app. cbn [flat_map]. rewrite app_nil_r.
  rewrite drop_mopt_first.
  2: exact Hw.
  2:{ destruct ws; right; eexists; reflexivity. }
  rewrite drop_mopt_walk; [|exact Hws'|right; eexists; reflexivity].
  rewrite drop_mopt_last by assumption. reflexivity.
Qed.

Ltac word_ok_tac :=
  repeat (constructor; [split; discriminate|]); constructor.

Lemma mountslot_word_by_word_witness :
  mountslot_new (lit "none") (lit "tmpfs")
                (Some (lit "nosuid,size=64m,,ro,mode=755"))
  = Ok {| fsname := lit "none"; type := lit "tmpfs";
          opts := Z.lor MS_NOSUID MS_RDONLY;
          data := lit "size=64m,mode=755";
          wanted := false |}.
Proof.
  apply (mountslot_word_by_word (lit "none") (lit "tmpfs")
           [lit "nosuid"; lit "size=64m"; []; lit "ro"; lit "mode=755"]).
  repeat (constructor; [word_ok_tac|]). constructor.
Defined.

Lemma add_mountopt_new_key_witness :
  add_mountopt {| fsname := lit "none"; type := lit "tmpfs"; opts := 0;
                  data := lit "size=64m,mode=755"; wanted := false |}
               (lit "uid=0")
  = Ok {| fsname := lit "none"; type := lit "tmpfs"; opts := 0;
          data := lit "size=64m,mode=755,uid=0"; wanted := false |}.
Proof.
  apply (add_mountopt_new_key
           {| fsname := lit "none"; type := lit "tmpfs"; opts := 0;
              data := lit "size=64m,mode=755"; wanted := false |}
           (lit "uid=0") [lit "size=64m"; lit "mode=755"]).
  - reflexivity.
  - reflexivity.
  - repeat (constructor;
            [split; [word_ok_tac | split; [discriminate | reflexivity]]|]).
    constructor.
Defined.

Lemma add_mountopt_last_key_witness :
  add_mountopt {| fsname := lit "none"; type := lit "tmpfs"; opts := 0;
                  data := lit "size=64m,mode=755"; wanted := false |}
               (lit "mode=700")
  = Undefined.
Proof.
  apply (add_mountopt_last_key
           {| fsname := lit "none"; type := lit "tmpfs"; opts := 0;
              data := lit "size=64m,mode=755"; wanted := false |}
           (lit "mode=700") [lit "size=64m"] (lit "mode=755")).
  - reflexivity.
  - reflexivity.
  - discriminate.
  - repeat (constructor;
            [split; [word_ok_tac | split; [discriminate | reflexivity]]|]).
    constructor.
  - word_ok_tac.
  - discriminate.
  - reflexivity.
Defined.

End MountMoreFacts.

(** ** The environment and the arguments of the jailed command *)

Module EnvFacts.
Import Env Owner.




Lemma name_len_assignment (name value : str) :
  forallb (fun c => isalnum c || Ascii.eqb c "_") name = true ->
  name_len (name ++ lit "=" ++ value) = length name.
Proof.
  intros Hname. unfold name_len.
  induction name as [|c name IH]; [reflexivity|].
  cbn [forallb] in Hname. apply andb_true_iff in Hname.
  destruct Hname as [Hc Hname].
  cbn [app Conf.span length]. rewrite Hc. f_equal. apply IH. exact Hname.
Qed.

Lemma nth_after (name rest : str) :
  nth (length name) (name ++ rest) NUL = deref rest.
Proof.
  rewrite app_nth2 by lia. rewrite Nat.sub_diag. destruct rest; reflexivity.
Qed.

Lemma set_env_replaces (before after : list str) (e arg : str) (n : nat) :
  Forall (fun x => str_eqb (firstn n x) (firstn n arg) = false) before ->
  str_eqb (firstn n e) (firstn n arg) = true ->
  set_env (before ++ e :: after) arg n = before ++ arg :: after.
Proof.
  intros Hb He. induction Hb as [|x before Hx _ IH].
  - cbn [app set_env]. rewrite He. reflexivity.
  - cbn [app set_env]. rewrite Hx, IH. reflexivity.
Qed.

(** X23.  An argument [NAME=VALUE] replaces the first entry of the
    environment that begins with the bytes of [NAME], whatever follows them
    in the entry: the entry need not be a setting of [NAME]. *)
Theorem assignment_replaces_prefix (before after : list str)
    (e name value : str) :
  name <> [] ->
  forallb (fun c => isalnum c || Ascii.eqb c "_") name = true ->
  has_prefix name e = true ->
  Forall (fun x => has_prefix name x = false) before ->
  take_assignments [name ++ lit "=" ++ value] (before ++ e :: after)
  = (before ++ (name ++ lit "=" ++ value) :: after, []).
Proof.
  intros Hne Hname He Hbefore.
  cbn [take_assignments]. unfold is_assignment.
  rewrite (name_len_assignment name value Hname).
  rewrite nth_after.
  replace (Nat.eqb (length name) 0) with false
    by (symmetry; apply Nat.eqb_neq; destruct name;
        [contradiction Hne; reflexivity|discriminate]).
  cbn [negb andb deref app lit list_ascii_of_string].
  change (Ascii.eqb "=" "=") with true. cbv iota.
  assert (Hfirst : firstn (length name) (name ++ "="%char :: value) = name).
  { rewrite firstn_app, firstn_all, Nat.sub_diag. cbn [firstn].
    apply app_nil_r. }
  rewrite set_env_replaces; [reflexivity| |].
  - eapply Forall_impl; [|exact Hbefore]. intros x Hx. cbv beta.
    rewrite Hfirst. exact Hx.
  - rewrite Hfirst. exact He.
Qed.


Lemma assignment_replaces_prefix_witness :
  take_assignments [lit "PA=1"]
    [lit "PATH=/usr/local/bin:/bin:/usr/bin"; lit "LANG=C";
     lit "HOME=/home/u"]
  = ([lit "PA=1"; lit "LANG=C"; lit "HOME=/home/u"], []).
Proof.
  apply (assignment_replaces_prefix []
           [lit "LANG=C"; lit "HOME=/home/u"]
           (lit "PATH=/usr/local/bin:/bin:/usr/bin") (lit "PA") (lit "1")).
  - discriminate.
  - reflexivity.
  - reflexivity.
  - constructor.
Defined.

End EnvFacts.

(** ** Symbolic links *)

Module SymlinkFacts.
Import Symlink.

(** The loop keeps [dst] below [root]: a prefix of [dst] that still has
    the slash after [root]. *)
Lemma climb_below (fuel : nat) (root : str) :
  forall src dst lnk rest src' dst' lnk',
    dst = root ++ "/"%char :: rest ->
    climb fuel root src dst lnk = Ok (Some (src', dst', lnk')) ->
    exists rest', dst' = root ++ "/"%char :: rest'.
Proof.
  induction fuel as [|fuel IH]; intros src dst lnk rest src' dst' lnk' Hdst;
    cbn [climb];
    (destruct (Nat.eqb (length src) 1); [discriminate|]);
    (destruct (rfind "/" src (len_minus_2 src)) as [ss|]; [|discriminate]);
    (destruct (rfind "/" dst (len_minus_2 dst)) as [ds|] eqn:Eds;
     [|discriminate]);
    (destruct (Nat.ltb_spec ds (length root)) as [Hlow | Hhigh];
     [discriminate|]);
    assert (Hcut : substr dst 0 (ds + 1)
                   = root ++ "/"%char :: firstn (ds - length root) rest)
      by (unfold substr; cbn [skipn]; rewrite Hdst, firstn_app, firstn_all2
            by lia;
          f_equal;
          replace (ds + 1 - length root)%nat with (S (ds - length root))
            by lia;
          reflexivity);
    destruct (Nat.ltb 3 (length lnk) && Ascii.eqb (nth 0 lnk NUL) "."
              && Ascii.eqb (nth 1 lnk NUL) "."
              && Ascii.eqb (nth 2 lnk NUL) "/").
  - discriminate.
  - intros H; injection H as _ <- _. eexists. exact Hcut.
  - apply (IH _ _ _ _ _ _ _ Hcut).
  - intros H; injection H as _ <- _. eexists. exact Hcut.
Qed.

(** X24.  When the destination of a link lies below the root it is copied to
    (the jail or the skeleton directory), the destination of the target that
    [handle_symlink_dst] hands to [handle_copy] begins with a slash: the
    leading [../] of a relative link never lead above that root, where the
    function gives up. *)
Theorem symlink_subdst_slash (dstroot linkdir dst src lnk rest : str)
    (src' subdst : str) :
  dst = dstroot ++ "/"%char :: rest
  \/ (linkdir <> []
      /\ str_eqb (substr dst 0 (length dstroot)) dstroot = false
      /\ dst = linkdir ++ "/"%char :: rest) ->
  handle_symlink_dst dstroot linkdir dst src lnk = Ok (Some (src', subdst)) ->
  deref subdst = "/"%char.
Proof.
  intros Hdst. unfold handle_symlink_dst.
  set (root := if negb (Nat.eqb (length linkdir) 0)
                  && negb (str_eqb (substr dst 0 (length dstroot)) dstroot)
               then linkdir else dstroot).
  assert (Hroot : dst = root ++ "/"%char :: rest).
  { destruct Hdst as [H | (Hl & Hne & H)]; subst root.
    - replace (str_eqb (substr dst 0 (length dstroot)) dstroot) with true.
      + rewrite andb_false_r. exact H.
      + symmetry. apply str_eqb_eq. unfold substr. cbn [skipn].
        rewrite H, firstn_app, firstn_all, Nat.sub_diag. cbn [firstn].
        apply app_nil_r.
    - rewrite Hne.
      replace (Nat.eqb (length linkdir) 0) with false
        by (symmetry; apply Nat.eqb_neq; destruct linkdir;
            [contradiction Hl; reflexivity|discriminate]).
      exact H. }
  clearbody root.
  assert (Hsub : forall t s d,
             (if Nat.ltb (length (root ++ "/"%char :: t)) (length root)
              then Aborted
              else if negb (str_eqb (substr (root ++ "/"%char :: t)
                                            (length root) 6) (lit "/proc/"))
                   then Ok (Some (s, substr_from (root ++ "/"%char :: t)
                                                 (length root)))
                   else Ok None) = Ok (Some (src', d)) ->
             deref d = "/"%char).
  { intros t s d.
    replace (Nat.ltb (length (root ++ "/"%char :: t)) (length root))
      with false by (symmetry; apply Nat.ltb_ge; rewrite length_app; lia).
    destruct (negb _); [|discriminate].
    intros H; injection H as _ <-. unfold substr_from.
    rewrite skipn_app, skipn_all, Nat.sub_diag. reflexivity. }
  destruct (Ascii.eqb_spec (nth 0 lnk NUL) "/") as [Habs | Hrel].
  - cbn [bind]. destruct lnk as [|c lnk]; [discriminate Habs|].
    cbn [nth] in Habs. subst c. apply Hsub.
  - destruct (climb (length lnk) root src dst lnk) as [[[[s d] l]|]| | |]
      eqn:Ec; cbn [bind]; try discriminate.
    destruct (climb_below _ _ _ _ _ _ _ _ _ Hroot Ec) as (rest' & ->).
    rewrite <- app_assoc. cbn [app]. apply Hsub.
Qed.

(** X25.  A link whose target begins with two slashes aborts the program:
    the target is handed on as it is, and the second assertion of
    [handle_copy] fails. *)
Theorem symlink_double_slash_aborts (dstroot linkdir dst src t : str) :
  symlink_copy dstroot linkdir dst src ("/"%char :: "/"%char :: t) = Aborted.
Proof.
  unfold symlink_copy, handle_symlink_dst.
  set (root := if negb (Nat.eqb (length linkdir) 0)
                  && negb (str_eqb (substr dst 0 (length dstroot)) dstroot)
               then linkdir else dstroot).
  cbn [nth]. change (Ascii.eqb "/" "/") with true. cbv iota. cbn [bind].
  replace (Nat.ltb (length (root ++ "/"%char :: "/"%char :: t)) (length root))
    with false by (symmetry; apply Nat.ltb_ge; rewrite length_app; lia).
  assert (Hcut : forall n, substr (root ++ "/"%char :: "/"%char :: t)
                                  (length root) n
                           = firstn n ("/"%char :: "/"%char :: t)).
  { intros n. unfold substr.
    rewrite skipn_app, skipn_all, Nat.sub_diag. reflexivity. }
  rewrite Hcut. cbn [firstn str_eqb lit list_ascii_of_string].
  change (Ascii.eqb "/" "/") with true. change (Ascii.eqb "/" "p") with false.
  cbn [andb negb]. cbn [bind].
  unfold substr_from. rewrite skipn_app, skipn_all, Nat.sub_diag.
  cbn [skipn app]. unfold handle_copy_asserts.
  cbn [nth length Nat.eqb]. change (Ascii.eqb "/" "/") with true.
  cbn [negb orb andb]. reflexivity.
Qed.

Lemma symlink_subdst_slash_witness :
  handle_symlink_dst (lit "/jails/run1") []
    (lit "/jails/run1/usr/lib/x86/libc.so") (lit "/usr/lib/x86/libc.so")
    (lit "../libc.so.6")
  = Ok (Some (lit "/usr/lib/libc.so.6", lit "/usr/lib/libc.so.6"))
  /\ deref (lit "/usr/lib/libc.so.6") = "/"%char.
Proof.
  split; [vm_compute; reflexivity|].
  apply (symlink_subdst_slash (lit "/jails/run1") []
           (lit "/jails/run1/usr/lib/x86/libc.so")
           (lit "/usr/lib/x86/libc.so")
           (lit "../libc.so.6") (lit "usr/lib/x86/libc.so")
           (lit "/usr/lib/libc.so.6") (lit "/usr/lib/libc.so.6")).
  - left. reflexivity.
  - vm_compute. reflexivity.
Defined.

End SymlinkFacts.

(** ** Event sources *)

Module EventFacts.
Import JBuffer BufferInv JsonInv BufferFacts JsonDecide JsonFacts.
Import Printf Event.

Lemma dec_loop_length (fuel : nat) :
  forall n acc, (length (dec_loop fuel n acc) <= fuel + length acc)%nat.
Proof.
  induction fuel as [|fuel IH]; intros n acc; [reflexivity|].
  cbn [dec_loop]. destruct (n <? 10).
  - cbn [length]. lia.
  - specialize (IH (n / 10) (digit_char (n mod 10) :: acc)).
    cbn [length] in IH. lia.
Qed.

Lemma dec_length (n : Z) : (length (dec n) <= 20)%nat.
Proof.
  unfold dec. pose proof (dec_loop_length 20 n []) as H.
  cbn [length] in H. lia.
Qed.

Lemma event_header_length (off : Z) :
  (length (event_header off) <= 44)%nat.
Proof.
  unfold event_header. pose proof (dec_length off) as H.
  remember (dec off) as d eqn:Ed. clear Ed.
  rewrite !length_app. simpl. lia.
Qed.

Lemma event_trailer_length (off : Z) :
  (length (event_trailer off) <= 64)%nat.
Proof.
  unfold event_trailer. pose proof (dec_length off) as H.
  remember (dec off) as d eqn:Ed. clear Ed.
  rewrite !length_app. simpl. lia.
Qed.

(** What [append_json_chars] leaves in the buffer. *)
Lemma append_json_chars_extends (b : jbuffer) (input : str) :
  Spec.buf_wf b ->
  tail_ b + 6 * Z.of_nat (length input) <= 2 ^ 62 ->
  exists b',
    append_json_chars b input = Ok (b', Spec.json_consumed input)
    /\ extends b b' (Spec.json_output input)
    /\ Z.of_nat (length (Spec.json_output input))
       <= 6 * Z.of_nat (length input).
Proof.
  intros Hwf Hfit.
  pose proof (json_loop_spec (length input) input [] 0 b (length input)
                             (length input) (le_n _) (le_n _) (le_n _)
                             (le_n _) Hwf) as H.
  cbn [app length] in H.
  destruct H as (b1 & stop' & emitted & Hres & Hle & He & Heq & Hb).
  { rewrite Nat.sub_0_r. change (Z.of_nat 0) with 0. rewrite Z.add_0_r.
    exact Hfit. }
  cbn [skipn app] in Heq. fold (Spec.json_output input) in Heq.
  cbn [length Nat.add] in Hres, Hle, Heq, Hb.
  fold (Spec.json_consumed input) in Hres, Hle, Heq, Hb.
  unfold append_json_chars. rewrite Hres. cbn [bind].
  unfold append_range.
  assert (Hsub : (length (substr input stop'
                                 (Spec.json_consumed input - stop'))
                  <= Spec.json_consumed input - stop')%nat).
  { unfold substr. rewrite length_firstn. lia. }
  destruct (append_ok b1 (substr input stop'
                                 (Spec.json_consumed input - stop'))
                      (extends_wf _ _ _ He)) as (b2 & H2 & E2).
  { rewrite (extends_tail _ _ _ He).
    change (Z.of_nat 0) with 0 in Hb. pows. lia. }
  rewrite H2. cbn [bind].
  pose proof (extends_trans _ _ _ _ _ He E2) as E. rewrite Heq in E.
  exists b2. split; [reflexivity|]. split; [exact E|].
  rewrite <- Heq, length_app. change (Z.of_nat 0) with 0 in Hb. lia.
Qed.

Lemma write_event_value (e : esfd) (jbuf : jbuffer) :
  Spec.buf_wf (jbuf_ e) -> Spec.buf_wf jbuf ->
  bufpos_ jbuf <= output_off_ e <= bufpos_ jbuf + tail_ jbuf ->
  bufpos_ jbuf + tail_ jbuf < 2 ^ 64 ->
  tail_ (jbuf_ e)
    + 6 * (bufpos_ jbuf + tail_ jbuf - output_off_ e) + 128 <= 2 ^ 62 ->
  let input := Spec.bytes_between jbuf (output_off_ e)
                                  (bufpos_ jbuf + tail_ jbuf) in
  exists e',
    write_event e jbuf = Ok e'
    /\ contents (jbuf_ e')
       = contents (jbuf_ e) ++ event_header (output_off_ e)
           ++ Spec.json_output input ++ event_trailer (output_off_ e')
    /\ output_off_ e' = output_off_ e + Z.of_nat (Spec.json_consumed input)
    /\ output_off_ e <= output_off_ e' <= bufpos_ jbuf + tail_ jbuf
    /\ Forall printable (Spec.json_output input).
Proof.
  intros Hwe Hwj Hoff Hend Hfit input.
  pose proof Hwj as ((Hht & Htc) & Hh & Hcap & Hlen & Hpos).
  assert (Hin : input
                = substr (JBuffer.buf_ jbuf)
                         (Z.to_nat (output_off_ e - bufpos_ jbuf))
                         (Z.to_nat (tail_ jbuf
                                    - (output_off_ e - bufpos_ jbuf)))).
  { subst input. unfold Spec.bytes_between. f_equal. lia. }
  assert (Hinlen : Z.of_nat (length input)
                   = bufpos_ jbuf + tail_ jbuf - output_off_ e).
  { rewrite Hin. unfold substr. rewrite length_firstn, length_skipn. lia. }
  assert (Hcons : (Spec.json_consumed input <= length input)%nat).
  { unfold Spec.json_consumed. lia. }
  unfold write_event.
  replace ((output_off_ e - bufpos_ jbuf <? 0)
           || (tail_ jbuf <? output_off_ e - bufpos_ jbuf)
           || (Z.of_nat (length (JBuffer.buf_ jbuf)) <? tail_ jbuf))
    with false.
  2:{ symmetry. apply orb_false_iff. split; [apply orb_false_iff; split|];
        apply Z.ltb_ge; lia. }
  rewrite <- Hin.
  pose proof (event_header_length (output_off_ e)) as Hhl.
  destruct (append_ok (jbuf_ e) (event_header (output_off_ e)) Hwe)
    as (b1 & -> & E1); [pows; lia|].
  cbn [bind].
  destruct (append_json_chars_extends b1 input (extends_wf _ _ _ E1))
    as (b2 & -> & E2 & Hol).
  { rewrite (extends_tail _ _ _ E1). pows. lia. }
  cbn [bind].
  set (newoff := wrap64 (bufpos_ jbuf
                         + (output_off_ e - bufpos_ jbuf
                            + Z.of_nat (Spec.json_consumed input)))).
  assert (Hnew : newoff
                 = output_off_ e + Z.of_nat (Spec.json_consumed input)).
  { subst newoff. rewrite wrap64_small by (pows; lia). lia. }
  pose proof (event_trailer_length newoff) as Htl.
  destruct (append_ok b2 (event_trailer newoff) (extends_wf _ _ _ E2))
    as (b3 & -> & E3).
  { rewrite (extends_tail _ _ _ E2), (extends_tail _ _ _ E1). pows. lia. }
  cbn [bind]. eexists. split; [reflexivity|].
  cbn [jbuf_ output_off_].
  pose proof (extends_trans _ _ _ _ _ (extends_trans _ _ _ _ _ E1 E2) E3)
    as E.
  split.
  { rewrite (BufferMoreFacts.extends_contents _ _ _ Hwe E).
    rewrite <- !app_assoc. reflexivity. }
  split; [exact Hnew|]. split; [lia|].
  apply json_output_printable.
Qed.

(** X26.  [write_event] appends one event to the buffer of the event source:
    the header with the offset, the bytes of [jbuf] from that offset on as
    [append_json_chars] writes them, and the trailer with the offset at
    which the next event starts. What is written between header and trailer
    has no byte below [0x20], so no newline: the event is one [data:] line
    and one [id:] line. The offset never moves backwards and never passes
    the end of [jbuf]. *)
Theorem write_event_frame (e : esfd) (jbuf : jbuffer) :
  Spec.buf_wf (jbuf_ e) -> Spec.buf_wf jbuf ->
  bufpos_ jbuf <= output_off_ e <= bufpos_ jbuf + tail_ jbuf ->
  bufpos_ jbuf + tail_ jbuf < 2 ^ 64 ->
  tail_ (jbuf_ e)
    + 6 * (bufpos_ jbuf + tail_ jbuf - output_off_ e) + 128 <= 2 ^ 62 ->
  let input := Spec.bytes_between jbuf (output_off_ e)
                                  (bufpos_ jbuf + tail_ jbuf) in
  exists e',
    write_event e jbuf = Ok e'
    /\ contents (jbuf_ e')
       = contents (jbuf_ e) ++ event_header (output_off_ e)
           ++ Spec.json_output input ++ event_trailer (output_off_ e')
    /\ output_off_ e' = output_off_ e + Z.of_nat (Spec.json_consumed input)
    /\ output_off_ e <= output_off_ e' <= bufpos_ jbuf + tail_ jbuf
    /\ Forall printable (Spec.json_output input).
Proof. apply write_event_value. Qed.

(** X27.  An event source can be left behind. When the bytes that wait in
    [jbuf] end in a UTF-8 sequence cut short, [write_event] stops at the
    start of that sequence; when the buffer is then drained to its end while
    it is three quarters full, [consume_to] compacts it and [bufpos] moves
    past the offset of the event source; from then on [write_event] hands
    [append_json_chars] a range that starts before the array. *)
Theorem write_event_left_behind (e : esfd) (jbuf : jbuffer) :
  Spec.buf_wf (jbuf_ e) -> Spec.buf_wf jbuf ->
  bufpos_ jbuf <= output_off_ e <= bufpos_ jbuf + tail_ jbuf ->
  bufpos_ jbuf + tail_ jbuf < 2 ^ 64 ->
  tail_ (jbuf_ e)
    + 6 * (bufpos_ jbuf + tail_ jbuf - output_off_ e) + 128 <= 2 ^ 62 ->
  3 * cap_ jbuf < 2 ^ 64 ->
  3 * cap_ jbuf / 4 <= tail_ jbuf ->
  let input := Spec.bytes_between jbuf (output_off_ e)
                                  (bufpos_ jbuf + tail_ jbuf) in
  (Spec.json_consumed input < length input)%nat ->
  exists e' jbuf',
    write_event e jbuf = Ok e'
    /\ consume_to jbuf (bufpos_ jbuf + tail_ jbuf) = Ok jbuf'
    /\ output_off_ e' < bufpos_ jbuf'
    /\ forall later,
         bufpos_ later = bufpos_ jbuf' -> write_event e' later = Undefined.
Proof.
  intros Hwe Hwj Hoff Hend Hfit Hcap3 Hfull input Hcut.
  pose proof Hwj as ((Hht & Htc) & Hh & Hcap & Hlen & Hpos).
  destruct (write_event_value e jbuf Hwe Hwj Hoff Hend Hfit)
    as (e' & Hev & _ & Hnew & _).
  fold input in Hnew.
  assert (Hinlen : Z.of_nat (length input)
                   = bufpos_ jbuf + tail_ jbuf - output_off_ e).
  { subst input. unfold Spec.bytes_between, substr.
    rewrite length_firstn, length_skipn. lia. }
  assert (Hok : Spec.op_ok jbuf (Spec.ConsumeTo (bufpos_ jbuf + tail_ jbuf))).
  { cbn [Spec.op_ok]. unfold Spec.offset_ok. repeat split; pows; lia. }
  destruct (consume_to_ok jbuf (bufpos_ jbuf + tail_ jbuf) Hwj Hok)
    as (Hc & _ & _ & _ & _).
  replace (3 * cap_ jbuf / 4 <=? tail_ jbuf) with true in Hc
    by (symmetry; apply Z.leb_le; exact Hfull).
  exists e', (Spec.compact jbuf (bufpos_ jbuf + tail_ jbuf)).
  split; [exact Hev|]. split; [exact Hc|].
  assert (Hbehind : output_off_ e'
                    < bufpos_ (Spec.compact jbuf (bufpos_ jbuf + tail_ jbuf))).
  { unfold Spec.compact. cbn [bufpos_]. lia. }
  split; [exact Hbehind|].
  intros later Hlater. unfold write_event.
  replace (output_off_ e' - bufpos_ later <? 0) with true
    by (symmetry; apply Z.ltb_lt; lia).
  reflexivity.
Qed.

Lemma write_event_frame_witness :
  let e := esfd_new 5 100 in
  let jbuf := {| buf_ := lit "ok" ++ [Conf.NL; chr 195] ++ fresh 4;
                 head_ := 0; tail_ := 4; cap_ := 8; bufpos_ := 100;
                 rclosed_ := false; wclosed_ := false; rerrno_ := 0 |} in
  let input := Spec.bytes_between jbuf (output_off_ e)
                                  (bufpos_ jbuf + tail_ jbuf) in
  exists e',
    write_event e jbuf = Ok e'
    /\ contents (jbuf_ e')
       = contents (jbuf_ e) ++ event_header (output_off_ e)
           ++ Spec.json_output input ++ event_trailer (output_off_ e')
    /\ output_off_ e' = output_off_ e + Z.of_nat (Spec.json_consumed input)
    /\ output_off_ e <= output_off_ e' <= bufpos_ jbuf + tail_ jbuf
    /\ Forall printable (Spec.json_output input).
Proof.
  intros e jbuf.
  apply (write_event_frame e jbuf);
    vm_compute; intuition discriminate.
Defined.

Lemma write_event_left_behind_witness :
  let e := esfd_new 5 100 in
  let jbuf := {| buf_ := lit "ok" ++ [Conf.NL; chr 195];
                 head_ := 0; tail_ := 4; cap_ := 4; bufpos_ := 100;
                 rclosed_ := false; wclosed_ := false; rerrno_ := 0 |} in
  exists e' jbuf',
    write_event e jbuf = Ok e'
    /\ consume_to jbuf (bufpos_ jbuf + tail_ jbuf) = Ok jbuf'
    /\ output_off_ e' < bufpos_ jbuf'
    /\ forall later,
         bufpos_ later = bufpos_ jbuf' -> write_event e' later = Undefined.
Proof.
  intros e jbuf.
  apply (write_event_left_behind e jbuf);
    vm_compute; try intuition discriminate.
  repeat constructor.
Defined.

End EventFacts.

(** ** The manifest *)

Module ManifestFacts.
Import Manifest.

Lemma split_last (cur : str) :
  cur <> [] ->
  cur = firstn (length cur - 1) cur ++ [nth (length cur - 1) cur NUL].
Proof.
  intros Hne. rewrite <- PathnameFacts.last_nth_pred.
  replace (length cur - 1)%nat with (pred (length cur)) by lia.
  rewrite <- removelast_firstn_len. apply app_removelast_last. exact Hne.
Qed.

Lemma repeat_snoc (c : ascii) (k : nat) :
  repeat c k ++ [c] = c :: repeat c k.
Proof.
  induction k as [|k IH]; [reflexivity|]. cbn [repeat app]. f_equal. exact IH.
Qed.

Lemma undouble_spec (fuel : nat) :
  forall cur,
    (length cur <= fuel)%nat ->
    exists d k,
      undouble fuel cur = Ok d
      /\ cur = d ++ repeat "/"%char k
      /\ (cur <> [] -> d <> [])
      /\ (k = 0%nat \/ nth (length d - 1) d NUL = "/"%char)
      /\ ((length d <= 1)%nat
          \/ nth (length d - 1) d NUL <> "/"%char
          \/ nth (length d - 2) d NUL <> "/"%char).
Proof.
  induction fuel as [|fuel IH]; intros cur Hlen.
  - destruct cur; [|cbn [length] in Hlen; lia].
    exists [], 0%nat. cbn. split; [reflexivity|]. split; [reflexivity|].
    split; [auto|]. split; [left; reflexivity|]. left. lia.
  - cbn [undouble].
    assert (Hstop : forall P : Prop,
               P ->
               ((length cur <= 1)%nat
                \/ nth (length cur - 1) cur NUL <> "/"%char
                \/ nth (length cur - 2) cur NUL <> "/"%char) ->
               exists d k,
                 Ok cur = Ok d /\ cur = d ++ repeat "/"%char k
                 /\ (cur <> [] -> d <> [])
                 /\ (k = 0%nat \/ nth (length d - 1) d NUL = "/"%char)
                 /\ ((length d <= 1)%nat
                     \/ nth (length d - 1) d NUL <> "/"%char
                     \/ nth (length d - 2) d NUL <> "/"%char)).
    { intros P _ H. exists cur, 0%nat. cbn [repeat]. rewrite app_nil_r.
      split; [reflexivity|]. split; [reflexivity|]. split; [auto|].
      split; [left; reflexivity|exact H]. }
    destruct (Nat.ltb_spec 1 (length cur)) as [Hlong | Hshort]; cbn [andb];
      [|apply (Hstop True I); left; lia].
    destruct (Ascii.eqb_spec (nth (length cur - 1) cur NUL) "/")
      as [H1 | H1]; cbn [andb]; [|apply (Hstop True I); right; left; exact H1].
    destruct (Ascii.eqb_spec (nth (length cur - 2) cur NUL) "/")
      as [H2 | H2]; [|apply (Hstop True I); right; right; exact H2].
    unfold substr. cbn [skipn].
    assert (Hne : cur <> []) by (destruct cur; [cbn in Hlong; lia|discriminate]).
    pose proof (split_last cur Hne) as Hcur. rewrite H1 in Hcur.
    destruct (IH (firstn (length cur - 1) cur))
      as (d & k & Hd & Hq & Hnd & Hk & Hf).
    { rewrite length_firstn. lia. }
    exists d, (S k). split; [exact Hd|]. split.
    + rewrite Hcur at 1. rewrite Hq at 1. rewrite <- app_assoc.
      rewrite repeat_snoc. reflexivity.
    + split; [|split; [|exact Hf]].
      * intros _. apply Hnd.
        intros C. apply (f_equal (@length _)) in C.
        rewrite length_firstn in C. cbn [length] in C. lia.
      * right. destruct Hk as [-> | Hk]; [|exact Hk].
        cbn [repeat] in Hq. rewrite app_nil_r in Hq. rewrite <- Hq.
        rewrite length_firstn.
        replace (Nat.min (length cur - 1) (length cur) - 1)%nat
          with (length cur - 2)%nat by lia.
        rewrite PolicyFacts.nth_firstn_lt by lia. exact H2.
Qed.

Lemma nth_last_app (d : str) (c : ascii) :
  nth (length (d ++ [c]) - 1) (d ++ [c]) NUL = c.
Proof.
  rewrite length_app. cbn [length].
  replace (length d + 1 - 1)%nat with (length d) by lia.
  rewrite app_nth2 by lia. rewrite Nat.sub_diag. reflexivity.
Qed.

Lemma deref_app (a b : str) : a <> [] -> deref (a ++ b) = deref a.
Proof. destruct a; [intros C; contradiction C; reflexivity|reflexivity]. Qed.

Lemma back_nth (d : str) : Path.back d = nth (length d - 1) d NUL.
Proof. apply PathnameFacts.last_nth_pred. Qed.

(** The last step: a slash is put at the end when there is none. *)
Lemma close_form (d0 : str) :
  d0 <> [] -> deref d0 = "/"%char ->
  ((length d0 <= 1)%nat
   \/ nth (length d0 - 1) d0 NUL <> "/"%char
   \/ nth (length d0 - 2) d0 NUL <> "/"%char) ->
  let d := if Ascii.eqb (nth (length d0 - 1) d0 NUL) "/" then d0
           else d0 ++ lit "/" in
  deref d = "/"%char
  /\ Path.back d = "/"%char
  /\ (d = lit "/" \/ nth (length d - 2) d NUL <> "/"%char)
  /\ firstn (length d0) d = d0.
Proof.
  intros Hne Hfirst Hend. cbv zeta.
  destruct (Ascii.eqb_spec (nth (length d0 - 1) d0 NUL) "/") as [Hl | Hl].
  - split; [exact Hfirst|]. split; [rewrite back_nth; exact Hl|].
    split; [|apply firstn_all].
    destruct Hend as [Hs | [Hc | Hc]].
    + left. destruct d0 as [|x [|y d0]]; [contradiction Hne; reflexivity
                                         | |cbn [length] in Hs; lia].
      cbn [deref] in Hfirst. subst x. reflexivity.
    + contradiction.
    + right. exact Hc.
  - split; [rewrite deref_app by exact Hne; exact Hfirst|].
    split; [apply PathnameFacts.back_snoc|].
    split.
    + right. rewrite length_app. cbn [length lit list_ascii_of_string].
      replace (length d0 + 1 - 2)%nat with (length d0 - 1)%nat by lia.
      rewrite app_nth1
        by (destruct d0; [contradiction Hne; reflexivity|cbn [length]; lia]).
      exact Hl.
    + rewrite firstn_app, firstn_all, Nat.sub_diag. cbn [firstn].
      apply app_nil_r.
Qed.

(** X28.  A line [directory:] of the manifest sets the current directory to
    a name that begins with a slash and ends in one slash, not two. The name
    is taken as written: a [./] at its start stays, behind the slash that is
    put in front of it (the test that is to remove it compares the wrong way
    round and never holds). *)
Theorem dir_line_form (body : str) :
  exists d,
    dir_line (body ++ lit ":") = Ok d
    /\ deref d = "/"%char
    /\ Path.back d = "/"%char
    /\ (d = lit "/" \/ nth (length d - 2) d NUL <> "/"%char)
    /\ (forall rest, body = lit "./" ++ rest -> firstn 3 d = lit "/./").
Proof.
  unfold dir_line.
  set (line := body ++ lit ":").
  assert (Hn : length line = S (length body)).
  { subst line. rewrite length_app. cbn [length lit list_ascii_of_string]. lia. }
  (* the three ways [cursrcdir] is first set *)
  assert (Hcur : exists cur,
             (if Nat.eqb (length line) 2 && Ascii.eqb (nth 0 line NUL) "."
              then Ok (lit "/")
              else if Nat.ltb (length line) 2
                      && Ascii.eqb (nth 0 line NUL) "."
                      && Ascii.eqb (nth 1 line NUL) "/"
                   then Undefined
                   else Ok (substr line 0 (length line - 1))) = Ok cur
             /\ (forall rest, body = lit "./" ++ rest -> cur = body)).
  { destruct (Nat.eqb (length line) 2 && Ascii.eqb (nth 0 line NUL) ".")
      eqn:E1.
    - exists (lit "/"). split; [reflexivity|].
      intros rest ->. apply andb_true_iff in E1. destruct E1 as [E1 _].
      apply Nat.eqb_eq in E1. rewrite Hn in E1.
      cbn [length app lit list_ascii_of_string] in E1. lia.
    - replace (Nat.ltb (length line) 2 && Ascii.eqb (nth 0 line NUL) "."
               && Ascii.eqb (nth 1 line NUL) "/") with false.
      + exists (substr line 0 (length line - 1)). split; [reflexivity|].
        intros _ _. unfold substr. cbn [skipn]. subst line.
        rewrite Hn. replace (S (length body) - 1)%nat with (length body) by lia.
        rewrite firstn_app, firstn_all, Nat.sub_diag. cbn [firstn].
        apply app_nil_r.
      + symmetry. destruct (Nat.ltb_spec (length line) 2) as [Hs | Hl];
          [|reflexivity].
        cbn [andb]. destruct body as [|c body]; [reflexivity|].
        rewrite Hn in Hs. cbn [length] in Hs. lia. }
  destruct Hcur as (cur & -> & Hbody). cbn [bind].
  set (cur1 := if Ascii.eqb (nth 0 cur NUL) "/" then cur else lit "/" ++ cur).
  assert (Hcur1 : cur1 <> [] /\ deref cur1 = "/"%char).
  { subst cur1. destruct (Ascii.eqb_spec (nth 0 cur NUL) "/") as [E | N].
    - destruct cur as [|c cur]; [discriminate E|].
      split; [discriminate|exact E].
    - split; [discriminate|reflexivity]. }
  destruct Hcur1 as [Hne1 Hfirst1].
  destruct (undouble_spec (length cur1) cur1 (le_n _))
    as (d0 & k & -> & Hsplit & Hnd & Hk & Hend).
  cbn [bind]. specialize (Hnd Hne1).
  assert (Hfirst0 : deref d0 = "/"%char).
  { rewrite Hsplit in Hfirst1. rewrite deref_app in Hfirst1 by exact Hnd.
    exact Hfirst1. }
  destruct (close_form d0 Hnd Hfirst0 Hend) as (H1 & H2 & H3 & H4).
  eexists. split; [reflexivity|]. split; [exact H1|]. split; [exact H2|].
  split; [exact H3|].
  intros rest Hrest. specialize (Hbody rest Hrest).
  assert (E1 : cur1 = lit "/./" ++ rest).
  { subst cur1. rewrite Hbody, Hrest. reflexivity. }
  assert (Hlen0 : (3 <= length d0)%nat).
  { destruct Hk as [-> | Hk].
    - cbn [repeat] in Hsplit. rewrite app_nil_r in Hsplit.
      rewrite <- Hsplit, E1. cbn [length app lit list_ascii_of_string]. lia.
    - rewrite E1 in Hsplit.
      destruct d0 as [|a [|b [|c d0]]]; [contradiction Hnd; reflexivity| |
                                         |cbn [length]; lia].
      + destruct k as [|k]; [discriminate Hsplit|].
        cbn [app repeat lit list_ascii_of_string] in Hsplit.
        injection Hsplit as _ Hdot _. discriminate Hdot.
      + cbn [nth length Nat.sub] in Hk. subst b.
        cbn [app lit list_ascii_of_string] in Hsplit.
        injection Hsplit as _ Hdot _. discriminate Hdot. }
  match goal with
  | |- firstn 3 ?d = _ =>
      replace (firstn 3 d) with (firstn 3 (firstn (length d0) d))
        by (rewrite firstn_firstn; f_equal; lia)
  end.
  rewrite H4.
  replace (firstn 3 d0) with (firstn 3 (d0 ++ repeat "/"%char k))
    by (rewrite firstn_app; replace (3 - length d0)%nat with 0%nat by lia;
        cbn [firstn]; apply app_nil_r).
  rewrite <- Hsplit, E1. reflexivity.
Qed.

End ManifestFacts.

(** ** The PID file *)

Module PidFacts.
Import Path Printf Pid.

Lemma eqb_dollar_false (c : ascii) : c <> "$"%char -> Ascii.eqb c "$" = false.
Proof. intros H. apply Ascii.eqb_neq. exact H. Qed.

Lemma pid_copy (p : Z) (s : str) :
  forall out : str,
    Forall (fun c => c <> "$"%char) s ->
    (length out + length s < BUFSZ)%nat ->
    pid_loop p s out = out ++ s.
Proof.
  induction s as [|c s IH]; intros out Hs Hlen.
  - cbn [pid_loop]. now rewrite app_nil_r.
  - inversion Hs as [|? ? Hc Hs']; subst.
    cbn [pid_loop].
    replace (Nat.eqb (length out) BUFSZ) with false
      by (symmetry; apply Nat.eqb_neq; cbn [length] in Hlen; lia).
    assert (Hgo : pid_loop p s (out ++ [c]) = out ++ c :: s).
    { rewrite IH; [now rewrite <- app_assoc| exact Hs'|].
      rewrite length_app. cbn [length] in *. lia. }
    destruct s as [|d s'']; [exact Hgo|].
    rewrite (eqb_dollar_false c Hc). cbn [andb]. exact Hgo.
Qed.

Lemma pid_copy_then (p : Z) (pre rest : str) :
  forall out : str,
    Forall (fun c => c <> "$"%char) pre ->
    (length out + length pre < BUFSZ)%nat ->
    pid_loop p (pre ++ "$"%char :: rest) out
    = pid_loop p ("$"%char :: rest) (out ++ pre).
Proof.
  induction pre as [|c pre IH]; intros out Hs Hlen.
  - cbn [app]. now rewrite app_nil_r.
  - inversion Hs as [|? ? Hc Hs']; subst.
    cbn [app].
    change (pid_loop p (c :: pre ++ "$"%char :: rest) out)
      with (if Nat.eqb (length out) BUFSZ then out else
            match pre ++ "$"%char :: rest with
            | d :: s'' =>
                if Ascii.eqb c "$" && Ascii.eqb d "$"
                then pid_loop p s'' (print_pid out p)
                else pid_loop p (pre ++ "$"%char :: rest) (out ++ [c])
            | [] => pid_loop p (pre ++ "$"%char :: rest) (out ++ [c])
            end).
    replace (Nat.eqb (length out) BUFSZ) with false
      by (symmetry; apply Nat.eqb_neq; cbn [length] in Hlen; lia).
    rewrite (eqb_dollar_false c Hc). cbn [andb].
    assert (Hgo : pid_loop p (pre ++ "$"%char :: rest) (out ++ [c])
                  = pid_loop p ("$"%char :: rest) (out ++ c :: pre)).
    { rewrite IH; [now rewrite <- app_assoc| exact Hs'|].
      rewrite length_app. cbn [length] in *. lia. }
    destruct (pre ++ "$"%char :: rest); exact Hgo.
Qed.

Lemma print_pid_fits (out : str) (p : Z) :
  0 < p ->
  (length out + length (dec p) < BUFSZ)%nat ->
  print_pid out p = out ++ dec p.
Proof.
  intros Hp Hlen. unfold print_pid, dec_int.
  replace (p <? 0) with false by (symmetry; apply Z.ltb_ge; lia).
  replace (Nat.ltb (length (dec p)) (BUFSZ - length out)) with true
    by (symmetry; apply Nat.ltb_lt; lia).
  reflexivity.
Qed.

Lemma print_pid_length (out : str) (p : Z) :
  (length out < BUFSZ)%nat -> (length (print_pid out p) <= BUFSZ)%nat.
Proof.
  intros Hlen. unfold print_pid.
  destruct (Nat.ltb (length (dec_int p)) (BUFSZ - length out)) eqn:E.
  - apply Nat.ltb_lt in E. rewrite length_app. lia.
  - rewrite !length_app, length_firstn. cbn [length]. lia.
Qed.

Lemma pid_loop_length (p : Z) (n : nat) :
  forall s out : str,
    (length s <= n)%nat ->
    (length out <= BUFSZ)%nat ->
    (length (pid_loop p s out) <= BUFSZ)%nat.
Proof.
  induction n as [|n IH]; intros s out Hs Hout.
  - destruct s; [exact Hout| cbn [length] in Hs; lia].
  - destruct s as [|c s']; [exact Hout|].
    cbn [pid_loop].
    destruct (Nat.eqb (length out) BUFSZ) eqn:E; [exact Hout|].
    apply Nat.eqb_neq in E.
    assert (Hone : (length (out ++ [c]) <= BUFSZ)%nat)
      by (rewrite length_app; cbn [length]; lia).
    cbn [length] in Hs.
    destruct s' as [|d s''].
    + apply IH; [cbn [length]; lia | exact Hone].
    + destruct (Ascii.eqb c "$" && Ascii.eqb d "$").
      * apply IH; [cbn [length] in *; lia|].
        apply print_pid_length. lia.
      * apply IH; [lia | exact Hone].
Qed.

(** X30.  Whatever the template and the process id, [write_pid] hands
    [write] at most the 1024 bytes of its buffer: a template that needs more
    is cut where the buffer ends. *)
Theorem pid_text_bounded (pidcontents : str) (p : Z) :
  (length (pid_text pidcontents p) <= BUFSZ)%nat.
Proof.
  unfold pid_text.
  set (out := if 0 <? p then pid_loop p pidcontents [] else lit "*").
  assert (Hout : (length out <= BUFSZ)%nat).
  { subst out. destruct (0 <? p).
    - apply (pid_loop_length p (length pidcontents)); [lia|].
      cbn [length]. unfold BUFSZ. lia.
    - cbn. unfold BUFSZ. lia. }
  destruct (Nat.eqb (length out) BUFSZ) eqn:E.
  - rewrite Bool.andb_false_r. cbn [andb]. exact Hout.
  - apply Nat.eqb_neq in E.
    destruct (negb (Nat.eqb (length out) 0) && negb false
              && negb (Ascii.eqb (back out) Conf.NL)); [|exact Hout].
    rewrite length_app. cbn [length]. lia.
Qed.

Lemma pid_loop_template (pre post : str) (p : Z) :
  0 < p ->
  Forall (fun c => c <> "$"%char) pre ->
  Forall (fun c => c <> "$"%char) post ->
  (length (pre ++ dec p ++ post) < BUFSZ)%nat ->
  pid_loop p (pre ++ lit "$$" ++ post) [] = pre ++ dec p ++ post.
Proof.
  intros Hp Hpre Hpost Hlen.
  rewrite !length_app in Hlen.
  change (lit "$$" ++ post) with ("$"%char :: "$"%char :: post).
  rewrite pid_copy_then by (cbn [length]; try assumption; lia).
  cbn [app].
  cbn [pid_loop].
  replace (Nat.eqb (length pre) BUFSZ) with false
    by (symmetry; apply Nat.eqb_neq; lia).
  cbn [Ascii.eqb Bool.eqb andb].
  rewrite print_pid_fits by (try assumption; lia).
  rewrite pid_copy by (try assumption; rewrite length_app; lia).
  now rewrite <- app_assoc.
Qed.

(** X29.  A template of the PID file that holds [$$] once, no other dollar
    sign, and that fits the buffer with the process id written out, is
    written with the [$$] replaced by the decimal process id, and ends in a
    newline: its own or an added one. *)
Theorem pid_text_template (pre post : str) (p : Z) :
  0 < p ->
  Forall (fun c => c <> "$"%char) pre ->
  Forall (fun c => c <> "$"%char) post ->
  (length (pre ++ dec p ++ post) < BUFSZ)%nat ->
  pid_text (pre ++ lit "$$" ++ post) p
  = let t := pre ++ dec p ++ post in
    if Ascii.eqb (back t) Conf.NL then t else t ++ [Conf.NL].
Proof.
  intros Hp Hpre Hpost Hlen.
  unfold pid_text.
  replace (0 <? p) with true by (symmetry; apply Z.ltb_lt; lia).
  rewrite (pid_loop_template pre post p Hp Hpre Hpost Hlen).
  cbv zeta.
  set (t := pre ++ dec p ++ post) in *.
  assert (Hne : length t <> 0%nat).
  { subst t. rewrite !length_app.
    assert (Hd : dec p <> []) by apply OptionsFacts.dec_loop_nonempty.
    destruct (dec p); [congruence| cbn [length]; lia]. }
  replace (Nat.eqb (length t) 0) with false
    by (symmetry; apply Nat.eqb_neq; exact Hne).
  replace (Nat.eqb (length t) BUFSZ) with false
    by (symmetry; apply Nat.eqb_neq; lia).
  cbn [negb andb].
  destruct (Ascii.eqb (back t) Conf.NL); reflexivity.
Qed.

Lemma pid_text_template_witness :
  pid_text (lit "pid=$$;") 4321 = lit "pid=4321;" ++ [Conf.NL].
Proof.
  apply (pid_text_template (lit "pid=") (lit ";") 4321).
  - lia.
  - repeat constructor; discriminate.
  - repeat constructor; discriminate.
  - vm_compute. lia.
Defined.

End PidFacts.
